(** * StepMap: the step map of a micromouse maze

    A shallow embedding of [src/StepMap.cpp] (namespace [MazeLib]) and the
    properties of its cost table, its field solver ([StepMap::update]), its
    descent ([StepMap::getStepDownDirections]), its shortest directions
    ([StepMap::calcShortestDirections]), its next directions
    ([StepMap::calcNextDirections]), its candidate ordering
    ([StepMap::getNextDirectionCandidates]) and its straight extension
    ([StepMap::appendStraightDirections]). *)

From Stdlib Require Import ZArith Lia Bool List Sorted.
From Stdlib Require Import Floats.SpecFloat.
From stdpp Require Import base option list relations.

Local Open Scope Z_scope.

(** ** Machine integers *)

(** [step_t] is a 16 bit unsigned integer; [STEP_MAX] is its largest value. *)
Definition STEP_MAX : Z := 65535.

(** Conversion of an [int] to [step_t]. *)
Definition wrap16 (z : Z) : Z := z mod 65536.

(** Conversion of an [int] to [int8_t]. *)
Definition wrap8 (z : Z) : Z := (z + 128) mod 256 - 128.

(** ** The cost model: [calcStraightCost] and [calcStraightCostTable] *)

Module Float32.

(** C++ [float] is IEEE 754 binary32: 24 bits of mantissa, exponents below
    128, every operation rounded to nearest even. *)
Definition prec : Z := 24.
Definition emax : Z := 128.

Definition float := spec_float.

Definition of_int (z : Z) : float := binary_normalize prec emax z 0 false.
Definition mul : float -> float -> float := SFmul prec emax.
Definition add : float -> float -> float := SFadd prec emax.
Definition sub : float -> float -> float := SFsub prec emax.
Definition div : float -> float -> float := SFdiv prec emax.
Definition sqrt : float -> float := SFsqrt prec emax.
Definition ltb : float -> float -> bool := SFltb.

(** Conversion of a [float] to an unsigned integer type truncates toward
    zero; the result is [None] where C++ leaves the conversion undefined
    (a value that is not finite, or outside of the target type). *)
Definition trunc (f : float) : option Z :=
  match f with
  | S754_zero _ => Some 0
  | S754_finite s m e =>
      let a := match e with
               | Z0 => Zpos m
               | Zpos p => Zpos m * 2 ^ Zpos p
               | Zneg p => Zpos m / 2 ^ Zpos p
               end in
      Some (if s then - a else a)
  | _ => None
  end.

Definition to_step (f : float) : option Z :=
  match trunc f with
  | Some z => if (0 <=? z) && (z <=? STEP_MAX) then Some z else None
  | None => None
  end.

End Float32.

(** [calcStraightCost(i, am, vs, vm, seg)]: the time in milliseconds of a
    straight run over [i] cells under a trapezoidal velocity profile,
    converted to [step_t]. *)
Definition calcStraightCost (i : Z) (am vs vm seg : Float32.float) : option Z :=
  let d := Float32.mul seg (Float32.of_int i) in
  let d_thr :=
    Float32.div (Float32.sub (Float32.mul vm vm) (Float32.mul vs vs)) am in
  if Float32.ltb d d_thr then
    Float32.to_step
      (Float32.mul
         (Float32.div
            (Float32.mul (Float32.of_int 2)
               (Float32.sub
                  (Float32.sqrt
                     (Float32.add (Float32.mul vs vs) (Float32.mul am d)))
                  vs))
            am)
         (Float32.of_int 1000))
  else
    Float32.to_step
      (Float32.mul
         (Float32.div
            (Float32.add (Float32.mul am d)
               (Float32.mul (Float32.sub vm vs) (Float32.sub vm vs)))
            (Float32.mul am vm))
         (Float32.of_int 1000)).

(** The kinematic constants of [calcStraightCostTable]. *)
Definition vs : Float32.float := Float32.of_int 420.
Definition am_a : Float32.float := Float32.of_int 4200.
Definition vm_a : Float32.float := Float32.of_int 1500.
Definition seg_a : Float32.float := Float32.of_int 90.
Definition t_turn : Z := 287.

(** The entry [i >= 1] of the table before scaling:
    [stepTable[i] = t_turn + calcStraightCost(i - 1, am_a, vs, vm_a, seg_a)],
    a [float] sum stored into a [step_t]. *)
Definition rawStepCost (i : Z) : option Z :=
  match calcStraightCost (i - 1) am_a vs vm_a seg_a with
  | Some c =>
      Float32.to_step (Float32.add (Float32.of_int t_turn) (Float32.of_int c))
  | None => None
  end.

(** [calcStraightCostTable]: entry 0 is unused and set to 0, the entries
    [1 .. stepTableSize - 1] are the raw costs, and every entry is then
    divided by [scalingFactor]. The two constants [stepTableSize] and
    [scalingFactor] are declared in the header of the class. *)
Definition calcStraightCostTable (stepTableSize scalingFactor : Z)
  : option (list Z) :=
  mapM (fun i : Z =>
          if i =? 0 then Some (0 / scalingFactor)
          else match rawStepCost i with
               | Some c => Some (c / scalingFactor)
               | None => None
               end)
       (map Z.of_nat (seq 0 (Z.to_nat stepTableSize))).

(** ** The data model of the maze *)

(** Modelled from the spec: [Direction], declared in the header of the maze.
    A direction is one of 8 values; the absolute ones count anticlockwise
    from East, the relative ones from Front, and a heading plus a relative
    turn is the new heading (the sum modulo 8). [Direction_Max] is the value
    that follows the 8 directions and stands for no direction. *)
Definition Direction := Z.

Definition East : Direction := 0.
Definition North : Direction := 2.
Definition West : Direction := 4.
Definition South : Direction := 6.
Definition Direction_Max : Direction := 8.

Definition Front : Direction := 0.
Definition Left : Direction := 2.
Definition Back : Direction := 4.
Definition Right : Direction := 6.

Definition Direction_of_int (z : Z) : Direction := Z.land z 7.

Definition Along4 : list Direction := [East; North; West; South].

(** Modelled from the spec: [Position], a cell coordinate, a pair of
    [int8_t], with its neighbour in a direction. *)
Record Position := mkPosition { px : Z; py : Z }.

Global Instance Position_eq_dec : EqDecision Position.
Proof. solve_decision. Defined.

Definition Position_next (p : Position) (d : Direction) : Position :=
  match d with
  | 0 => mkPosition (wrap8 (px p + 1)) (py p)
  | 1 => mkPosition (wrap8 (px p + 1)) (wrap8 (py p + 1))
  | 2 => mkPosition (px p) (wrap8 (py p + 1))
  | 3 => mkPosition (wrap8 (px p - 1)) (wrap8 (py p + 1))
  | 4 => mkPosition (wrap8 (px p - 1)) (py p)
  | 5 => mkPosition (wrap8 (px p - 1)) (wrap8 (py p - 1))
  | 6 => mkPosition (px p) (wrap8 (py p - 1))
  | 7 => mkPosition (wrap8 (px p + 1)) (wrap8 (py p - 1))
  | _ => p
  end.

(** [Pose]: a cell and a heading. *)
Record Pose := mkPose { pose_p : Position; pose_d : Direction }.

Definition Pose_next (s : Pose) (d : Direction) : Pose :=
  mkPose (Position_next (pose_p s) d) d.

(** Modelled from the spec: the maze, the read-only collaborator of the step
    map. It answers whether the wall on a side of a cell is present and
    whether it is known, and gives the extent of the cells seen so far. *)
Record Maze := mkMaze {
  isWall : Position -> Direction -> bool;
  isKnown : Position -> Direction -> bool;
  getMinX : Z;
  getMaxX : Z;
  getMinY : Z;
  getMaxY : Z
}.

(** Modelled from the spec: [countUnknownWalls], the number of the four sides
    of a cell whose wall is of unknown state. *)
Definition unknownCount (maze : Maze) (p : Position) : Z :=
  Z.of_nat (length (filter (fun d => isKnown maze p d = false) Along4)).

(** ** The distance field *)

Abbreviation Directions := (list Direction).
Abbreviation Positions := (list Position).

(** [stepMap]: one [step_t] per cell. *)
Abbreviation StepArray := (list Z).

(** An entry of the priority queue of [update]: a cell and the step it had
    when it was pushed. *)
Definition Element : Type := Position * Z.

(** The interface of [std::priority_queue<Element>]: the container is a bag
    of elements, [push] adds one and [top]/[pop] take out one of the least
    step (the order [operator<] of [Element] is reversed). Which of several
    elements of the same least step comes out is left to the implementation,
    hence to the instance. *)
Class PriorityQueue := {
  pq_pop : list Element -> option (Element * list Element);
  pq_pop_nil : pq_pop [] = None;
  pq_pop_cons : forall e q, is_Some (pq_pop (e :: q));
  pq_pop_perm : forall q e q', pq_pop q = Some (e, q') -> q ≡ₚ e :: q';
  pq_pop_min : forall q e q', pq_pop q = Some (e, q') ->
                              Forall (fun e' => snd e <= snd e') q
}.

Definition pq_push (e : Element) (q : list Element) : list Element := e :: q.

(** A loop that runs [step] until it answers with a result; [n] levels of
    fuel allow [2 ^ n] iterations. [None] is an undefined behaviour of the
    source; a loop out of fuel answers [Some (inl _)]. *)
Fixpoint loop_pow {S R : Type} (step : S -> option (S + R)) (n : nat) (s : S)
  : option (S + R) :=
  match n with
  | O => step s
  | Datatypes.S n' =>
      match loop_pow step n' s with
      | Some (inl s') => loop_pow step n' s'
      | r => r
      end
  end.

Section StepMap.

(** The side of the square field, a constant of the header. *)
Variable MAZE_SIZE : Z.

(** The cost table of the object, filled by [calcStraightCostTable]. *)
Variable stepTable : list Z.

Context {PQ : PriorityQueue}.

(** Modelled from the spec: a cell is inside of the field when both
    coordinates are in [0, MAZE_SIZE). *)
Definition isInsideOfField (p : Position) : bool :=
  (0 <=? px p) && (px p <? MAZE_SIZE) && (0 <=? py p) && (py p <? MAZE_SIZE).

(** Modelled from the spec: the dense linear index of a cell. *)
Definition getIndex (p : Position) : Z := px p * MAZE_SIZE + py p.

(** [stepMap[i]]; an index outside of the array is undefined behaviour. *)
Definition array_get (m : StepArray) (i : Z) : option Z :=
  if i <? 0 then None else m !! Z.to_nat i.

Definition array_set (m : StepArray) (i : Z) (v : Z) : StepArray :=
  <[Z.to_nat i := v]> m.

(** [reset]: every cell at [STEP_MAX]. *)
Definition reset : StepArray :=
  replicate (Z.to_nat (MAZE_SIZE * MAZE_SIZE)) STEP_MAX.

(** Modelled from the spec: the accessor [getStep] of the field, which
    reads the sentinel outside of the field. *)
Definition getStep (m : StepArray) (p : Position) : Z :=
  if isInsideOfField p then default STEP_MAX (array_get m (getIndex p))
  else STEP_MAX.

(** [simple ? i : stepTable[i]] *)
Definition run_cost (simple : bool) (i : Z) : option Z :=
  if simple then Some i else stepTable !! Z.to_nat i.

(** The inner loop of [update]: the straight run from the focus in the
    direction [d]. [next] is the cell reached so far and [i] the length of
    the run to the cell after it; the fuel bounds [i], an [int8_t]. With
    [brk = true] this is the source; [brk = false] is the variant that
    does not stop at a cell it cannot improve and goes on to the wall. *)
Fixpoint update_run (brk : bool) (fuel : nat) (maze : Maze)
    (knownOnly simple : bool) (focus_step : Z) (d : Direction)
    (next : Position) (i : Z) (st : StepArray * list Element)
  : option (StepArray * list Element) :=
  match fuel with
  | O => None
  | S fuel' =>
      if isWall maze next d || (knownOnly && negb (isKnown maze next d))
      then Some st
      else
        let next := Position_next next d in
        c ← run_cost simple i;
        let next_step := wrap16 (focus_step + c) in
        let next_index := getIndex next in
        cur ← array_get st.1 next_index;
        if cur <=? next_step then
          if brk then Some st
          else update_run brk fuel' maze knownOnly simple focus_step d
                 next (i + 1) st
        else
          update_run brk fuel' maze knownOnly simple focus_step d next
            (i + 1)
            (array_set st.1 next_index next_step,
             pq_push (next, next_step) st.2)
  end.

(** The largest run length an [int8_t] counts. *)
Definition run_fuel : nat := 127.

Global Arguments run_fuel : simpl never.

(** The loop over [Direction::Along4()]. *)
Definition update_dirs (brk : bool) (maze : Maze) (knownOnly simple : bool)
    (focus : Position) (focus_step : Z) (st : StepArray * list Element)
  : option (StepArray * list Element) :=
  foldl (fun acc d =>
           st' ← acc;
           update_run brk run_fuel maze knownOnly simple focus_step d
             focus 1 st')
        (Some st) Along4.

(** The bounding box of the search: the extent of the maze, widened to
    hold every destination, then by one cell below and two above. *)
Record Box := mkBox { min_x : Z; max_x : Z; min_y : Z; max_y : Z }.

Definition bounding_box (maze : Maze) (dest : Positions) : Box :=
  let b :=
    foldl (fun b p =>
             mkBox (Z.min (px p) (min_x b)) (Z.max (px p) (max_x b))
                   (Z.min (py p) (min_y b)) (Z.max (py p) (max_y b)))
          (mkBox (getMinX maze) (getMaxX maze) (getMinY maze) (getMaxY maze))
          dest in
  mkBox (wrap8 (min_x b - 1)) (wrap8 (max_x b + 2))
        (wrap8 (min_y b - 1)) (wrap8 (max_y b + 2)).

Definition outside_box (b : Box) (p : Position) : bool :=
  (max_x b <? px p) || (max_y b <? py p) || (px p <? min_x b)
  || (py p <? min_y b).

(** The seeding of the destinations: those inside of the field get step 0
    and are pushed. *)
Definition seed (dest : Positions) (st : StepArray * list Element)
  : StepArray * list Element :=
  foldl (fun st p =>
           if isInsideOfField p
           then (array_set st.1 (getIndex p) 0, pq_push (p, 0) st.2)
           else st)
        st dest.

(** One iteration of [while (!q.empty())]. *)
Definition update_step (brk : bool) (maze : Maze) (knownOnly simple : bool)
    (b : Box) (st : StepArray * list Element)
  : option (StepArray * list Element + StepArray) :=
  match pq_pop st.2 with
  | None => Some (inr st.1)
  | Some ((focus, focus_step_q), q) =>
      if outside_box b focus then Some (inl (st.1, q))
      else
        focus_step ← array_get st.1 (getIndex focus);
        if focus_step <? focus_step_q then Some (inl (st.1, q))
        else
          st' ← update_dirs brk maze knownOnly simple focus focus_step
                  (st.1, q);
          Some (inl st')
  end.

(** The levels of fuel of the main loop: every iteration pops an element,
    and pushes one only when it lowers a step. *)
Definition update_fuel (dest : Positions) : nat :=
  Z.to_nat
    (Z.log2_up (Z.of_nat (length dest) + MAZE_SIZE * MAZE_SIZE * 65536 + 2)).

(** [update_gen true] is [StepMap::update]; the result is the field at
    the end of the loop, [None] for an undefined behaviour or a loop out
    of fuel. *)
Definition update_gen (brk : bool) (maze : Maze) (dest : Positions)
    (knownOnly simple : bool) : option StepArray :=
  let b := bounding_box maze dest in
  match loop_pow (update_step brk maze knownOnly simple b)
          (update_fuel dest) (seed dest (reset, [])) with
  | Some (inr m) => Some m
  | _ => None
  end.

Definition update := update_gen true.

(** The variant of the spec's words: the run goes on to the next wall. *)
Definition update_to_wall := update_gen false.

End StepMap.

(** ** The descent over a filled field *)

Section Descent.

Variable MAZE_SIZE : Z.
Variable stepTable : list Z.

(** The scan of [getStepDownDirections] along one direction: the first
    cell of the straight run whose step is the step of the focus minus
    the cost of the run. *)
Fixpoint scan_run (fuel : nat) (maze : Maze) (knownOnly simple : bool)
    (m : StepArray) (focus_step : Z) (d : Direction) (next : Position)
    (i : Z) : option (option Position) :=
  match fuel with
  | O => None
  | S fuel' =>
      if isWall maze next d || (knownOnly && negb (isKnown maze next d))
      then Some None
      else
        let next := Position_next next d in
        c ← run_cost stepTable simple i;
        let next_step := wrap16 (focus_step - c) in
        cur ← array_get m (getIndex MAZE_SIZE next);
        if cur =? next_step then Some (Some next)
        else scan_run fuel' maze knownOnly simple m focus_step d next (i + 1)
  end.

(** The scan over [Direction::Along4()], left by [goto loop_exit] at the
    first match; without a match [min_p] stays the focus and [min_d]
    stays [Direction::Max]. *)
Fixpoint scan_dirs (maze : Maze) (knownOnly simple : bool) (m : StepArray)
    (focus : Position) (focus_step : Z) (ds : list Direction)
  : option (Position * Direction) :=
  match ds with
  | [] => Some (focus, Direction_Max)
  | d :: ds' =>
      r ← scan_run run_fuel maze knownOnly simple m focus_step d focus 1;
      match r with
      | Some next => Some (next, d)
      | None => scan_dirs maze knownOnly simple m focus focus_step ds'
      end
  end.

(** [while (focus.p != min_p)]: the moves to [min_p]; the flag of the
    result tells that the function returned at a cell with an unknown
    wall. *)
Fixpoint move_run (fuel : nat) (maze : Maze) (breakUnknown : bool)
    (min_p : Position) (min_d : Direction) (focus : Pose) (dirs : Directions)
  : option (Pose * Directions * bool) :=
  if decide (pose_p focus = min_p) then Some (focus, dirs, false)
  else
    match fuel with
    | O => None
    | S fuel' =>
        if breakUnknown && negb (unknownCount maze (pose_p focus) =? 0)
        then Some (focus, dirs, true)
        else move_run fuel' maze breakUnknown min_p min_d
               (Pose_next focus min_d) (dirs ++ [min_d])
    end.

(** [while (1)] of [getStepDownDirections]; every turn of the loop that
    does not leave it lowers the step of the focus. *)
Fixpoint descend_loop (fuel : nat) (maze : Maze)
    (knownOnly simple breakUnknown : bool) (m : StepArray) (focus : Pose)
    (dirs : Directions) : option (Directions * Pose) :=
  match fuel with
  | O => None
  | S fuel' =>
      focus_step ← array_get m (getIndex MAZE_SIZE (pose_p focus));
      if focus_step =? 0 then Some (dirs, focus)
      else
        '(min_p, min_d) ← scan_dirs maze knownOnly simple m (pose_p focus)
                            focus_step Along4;
        min_step ← array_get m (getIndex MAZE_SIZE min_p);
        if focus_step <=? min_step then Some (dirs, focus)
        else
          '(focus', dirs', stop) ← move_run run_fuel maze breakUnknown
                                     min_p min_d focus dirs;
          if stop : bool then Some (dirs', focus')
          else descend_loop fuel' maze knownOnly simple breakUnknown m
                 focus' dirs'
  end.

Definition descend_fuel : nat := Z.to_nat (STEP_MAX + 1).

Global Arguments descend_fuel : simpl never.

(** [getStepDownDirections]: the directions and the pose [end]. *)
Definition getStepDownDirections (maze : Maze) (m : StepArray)
    (start : Pose) (knownOnly simple breakUnknown : bool)
  : option (Directions * Pose) :=
  if negb (isInsideOfField MAZE_SIZE (pose_p start)) then Some ([], start)
  else descend_loop descend_fuel maze knownOnly simple breakUnknown m
         start [].

Context {PQ : PriorityQueue}.

(** [calcShortestDirections]: the field after the update and the
    directions. *)
Definition calcShortestDirections (maze : Maze) (start : Position)
    (dest : Positions) (knownOnly simple : bool)
  : option (StepArray * Directions) :=
  m ← update MAZE_SIZE stepTable maze dest knownOnly simple;
  '(shortestDirections, e) ←
    getStepDownDirections maze m (mkPose start Direction_Max) knownOnly
      simple false;
  end_step ← array_get m (getIndex MAZE_SIZE (pose_p e));
  Some (m, if end_step =? 0 then shortestDirections else []).

End Descent.

(** ** The candidates of the next direction *)

(** [std::sort] with a comparator, on the at most four candidates. Modelled
    from the spec: the sort keeps elements that the comparator does not
    order in their order, as an insertion from the right into the sorted
    prefix does. *)
Fixpoint linear_insert {A : Type} (comp : A -> A -> bool) (x : A)
    (rprefix : list A) : list A :=
  match rprefix with
  | [] => [x]
  | y :: r => if comp x y then y :: linear_insert comp x r else x :: rprefix
  end.

Definition std_sort {A : Type} (comp : A -> A -> bool) (l : list A) : list A :=
  rev (foldl (fun racc x => linear_insert comp x racc) [] l).

Section Candidates.

Variable MAZE_SIZE : Z.

Definition getNextDirectionCandidates (maze : Maze) (m : StepArray)
    (focus : Pose) : Directions :=
  let step_of d := getStep MAZE_SIZE m (Position_next (pose_p focus) d) in
  let unknown_of d :=
    negb (unknownCount maze (Position_next (pose_p focus) d) =? 0) in
  let dirs :=
    filter (fun d => negb (isWall maze (pose_p focus) d)
                     && negb (step_of d =? STEP_MAX) = true)
      (map (fun r => Direction_of_int (pose_d focus + r))
           [Front; Left; Right; Back]) in
  let dirs := std_sort (fun d1 d2 => step_of d1 <? step_of d2) dirs in
  let dirs :=
    std_sort (fun d1 d2 => unknown_of d1 && negb (unknown_of d2)) dirs in
  std_sort (fun d1 _ => d1 =? pose_d focus) dirs.

End Candidates.

(** ** Two priority queues *)

(** The element of least step that is first ([first = true]) or last in the
    bag, with the rest. *)
Fixpoint pop_least (first : bool) (q : list Element)
  : option (Element * list Element) :=
  match q with
  | [] => None
  | e :: q' =>
      match pop_least first q' with
      | None => Some (e, [])
      | Some (e', q'') =>
          if (if first then snd e <=? snd e' else snd e <? snd e')
          then Some (e, q') else Some (e', e :: q'')
      end
  end.

Lemma pop_least_cons first e q : is_Some (pop_least first (e :: q)).
Proof.
  simpl. destruct (pop_least first q) as [[e' q'']|]; [|by eauto].
  destruct (if first then _ else _); eauto.
Qed.

Lemma pop_least_perm first q : forall e q',
  pop_least first q = Some (e, q') -> q ≡ₚ e :: q'.
Proof.
  induction q as [|a q IH]; intros e q' H; simpl in H; [done|].
  destruct (pop_least first q) as [[e' q'']|] eqn:E.
  - destruct (if first then _ else _); simplify_eq; [done|].
    rewrite (IH _ _ eq_refl). apply perm_swap.
  - simplify_eq. destruct q; [done|].
    destruct (pop_least_cons first e0 q) as [? ?]. congruence.
Qed.

Lemma pop_least_min first q : forall e q',
  pop_least first q = Some (e, q') -> Forall (fun e' => snd e <= snd e') q.
Proof.
  induction q as [|a q IH]; intros e q' H; simpl in H; [done|].
  destruct (pop_least first q) as [[e' q'']|] eqn:E.
  - specialize (IH _ _ eq_refl).
    destruct (if first then _ else _) eqn:C; simplify_eq.
    + constructor; [lia|]. eapply Forall_impl; [exact IH|].
      intros x Hx; simpl in *. destruct first; lia.
    + constructor; [|done]. destruct first; lia.
  - simplify_eq. destruct q; [by repeat constructor|].
    destruct (pop_least_cons first e0 q) as [? ?]. congruence.
Qed.

(** Among elements of the same least step the one pushed last comes out. *)
Definition lifo_queue : PriorityQueue :=
  {| pq_pop := pop_least true;
     pq_pop_nil := eq_refl;
     pq_pop_cons := pop_least_cons true;
     pq_pop_perm := pop_least_perm true;
     pq_pop_min := pop_least_min true |}.

(** Among elements of the same least step the one pushed first comes out. *)
Definition fifo_queue : PriorityQueue :=
  {| pq_pop := pop_least false;
     pq_pop_nil := eq_refl;
     pq_pop_cons := pop_least_cons false;
     pq_pop_perm := pop_least_perm false;
     pq_pop_min := pop_least_min false |}.

(** ** Mazes to run the code on *)

(** The maze of [n] by [n] cells with walls on its border only, every wall
    known or every wall inside unknown, with a given extent. *)
Definition open_maze (n : Z) (known : bool) (lo hi : Z) : Maze :=
  let border p d :=
    negb (isInsideOfField n p) || negb (isInsideOfField n (Position_next p d)) in
  {| isWall := border;
     isKnown := fun p d => known || border p d;
     getMinX := lo; getMaxX := hi; getMinY := lo; getMaxY := hi |}.

(** The cost table of an object with [stepTableSize = 32] and
    [scalingFactor = 2]. *)
Definition realTable : list Z :=
  Eval vm_compute in default [] (calcStraightCostTable 32 2).

(** ** Auxiliary definitions of the proofs *)

(** The check of two consecutive raw entries. *)
Definition raw_ok (i : Z) : bool :=
  match rawStepCost i, rawStepCost (i + 1) with
  | Some a, Some b => a <=? b
  | _, _ => false
  end.

(** The entry of the table at [i]. *)
Definition table_entry (scalingFactor i : Z) : option Z :=
  if i =? 0 then Some (0 / scalingFactor)
  else match rawStepCost i with
       | Some c => Some (c / scalingFactor)
       | None => None
       end.

(** [a] comes before [b] in [l]. *)
Definition before {A : Type} (a b : A) (l : list A) : Prop :=
  exists l1 l2 l3, l = l1 ++ a :: l2 ++ b :: l3.

(** A direction is an open candidate at a pose: it is one of the four
    relative turns of the heading, there is no wall on that side, and the
    cell behind has a finite step. *)
Definition open_candidate (MAZE_SIZE : Z) (maze : Maze) (m : StepArray)
    (focus : Pose) (d : Direction) : Prop :=
  In d (map (fun r => Direction_of_int (pose_d focus + r))
          [Front; Left; Right; Back])
  /\ isWall maze (pose_p focus) d = false
  /\ getStep MAZE_SIZE m (Position_next (pose_p focus) d) <> STEP_MAX.

(** The field, the maze and the pose of the example: the robot is in the
    cell (1,1) of a field of 4 by 4 cells and heads East; the cells in front
    and to the left both have step 5; only the north wall of the cell to the
    left is unknown. *)
Definition candidates_maze : Maze :=
  {| isWall := fun _ _ => false;
     isKnown := fun p d =>
       negb ((px p =? 1) && (py p =? 2) && (d =? North));
     getMinX := 0; getMaxX := 3; getMinY := 0; getMaxY := 3 |}.

Definition candidates_field : StepArray :=
  <[6%nat := 5]> (<[9%nat := 5]> (reset 4)).

Definition candidates_pose : Pose := mkPose (mkPosition 1 1) East.

(** ** Notions of the proofs about the field *)

(** The side [d] of the cell [p] lets the search through: there is no wall,
    and the wall is known when only known walls count. *)
Definition passable (maze : Maze) (knownOnly : bool) (p : Position)
    (d : Direction) : bool :=
  negb (isWall maze p d || (knownOnly && negb (isKnown maze p d))).

(** The border of the field is walled. *)
Definition maze_closed (MAZE_SIZE : Z) (maze : Maze) : Prop :=
  forall p d, In d Along4 ->
    isInsideOfField MAZE_SIZE p = true ->
    isInsideOfField MAZE_SIZE (Position_next p d) = false ->
    isWall maze p d = true.

(** The number of cells between [p] and the border in the direction [d]. *)
Definition room (MAZE_SIZE : Z) (p : Position) (d : Direction) : Z :=
  match d with
  | 0 => MAZE_SIZE - 1 - px p
  | 2 => MAZE_SIZE - 1 - py p
  | 4 => px p
  | 6 => py p
  | _ => 0
  end.

(** The cell [k] moves away from [p] in the direction [d]. *)
Fixpoint advance (p : Position) (d : Direction) (k : nat) : Position :=
  match k with
  | O => p
  | S k' => Position_next (advance p d k') d
  end.

(** One relaxation of [update]: the step of the cell [c] is set to [v] and
    the cell is pushed with that step. *)
Definition relax_cell (MAZE_SIZE : Z) (c : Position) (v : Z)
    (st : StepArray * list Element) : StepArray * list Element :=
  (array_set st.1 (getIndex MAZE_SIZE c) v, pq_push (c, v) st.2).

(** The relaxations that the run from [focus] in the direction [d] may do:
    the cell at [k] moves, all passable, gets the step of the focus plus
    the cost of the run when that is below its step. *)
Inductive relax_step (MAZE_SIZE : Z) (stepTable : list Z) (maze : Maze)
    (knownOnly simple : bool) (focus : Position) (focus_step : Z)
    (d : Direction) : StepArray * list Element -> StepArray * list Element
                      -> Prop :=
| RelaxStep st (k : nat) c cur :
    In d Along4 ->
    (forall j, (j < S k)%nat -> passable maze knownOnly (advance focus d j) d = true) ->
    isInsideOfField MAZE_SIZE (advance focus d (S k)) = true ->
    run_cost stepTable simple (Z.of_nat (S k)) = Some c ->
    array_get st.1 (getIndex MAZE_SIZE (advance focus d (S k))) = Some cur ->
    wrap16 (focus_step + c) < cur ->
    relax_step MAZE_SIZE stepTable maze knownOnly simple focus focus_step d st
      (relax_cell MAZE_SIZE (advance focus d (S k)) (wrap16 (focus_step + c))
         st).

(** The state is well formed: the array has one step per cell, every step
    is a [step_t], and the queue holds cells of the field with steps below
    the sentinel. *)
Definition state_wf (MAZE_SIZE : Z) (st : StepArray * list Element) : Prop :=
  length st.1 = Z.to_nat (MAZE_SIZE * MAZE_SIZE)
  /\ Forall (fun v => 0 <= v <= STEP_MAX) st.1
  /\ Forall (fun e : Element =>
               isInsideOfField MAZE_SIZE e.1 = true /\ 0 <= e.2 < STEP_MAX)
            st.2.

(** The measure of the main loop. *)
Definition sum_steps (m : StepArray) : Z := foldr Z.add 0 m.

Definition potential (st : StepArray * list Element) : Z :=
  sum_steps st.1 + Z.of_nat (length st.2).

(** A relaxation of some run from the focus. *)
Definition relax_from (MAZE_SIZE : Z) (stepTable : list Z) (maze : Maze)
    (knownOnly simple : bool) (focus : Position) (focus_step : Z)
    (st st' : StepArray * list Element) : Prop :=
  exists d, relax_step MAZE_SIZE stepTable maze knownOnly simple focus
              focus_step d st st'.

(** What the runs from a focus leave at the first cell of a passable
    direction: a step that is at most the step of the focus plus the cost of
    one move. *)
Definition first_relaxed (MAZE_SIZE : Z) (stepTable : list Z) (maze : Maze)
    (knownOnly simple : bool) (focus : Position) (focus_step : Z)
    (st : StepArray * list Element) (d : Direction) : Prop :=
  passable maze knownOnly focus d = true ->
  exists c v,
    run_cost stepTable simple 1 = Some c
    /\ array_get st.1 (getIndex MAZE_SIZE (Position_next focus d)) = Some v
    /\ v <= wrap16 (focus_step + c).

(** ** The invariant of the main loop *)

(** A walk of [n] moves from a destination, each move out of a cell inside
    the bounding box and through a passable side. *)
Inductive walk_to (MAZE_SIZE : Z) (maze : Maze) (knownOnly : bool) (b : Box)
    (dest : Positions) : Position -> nat -> Prop :=
| walk_dest g :
    In g dest -> isInsideOfField MAZE_SIZE g = true ->
    walk_to MAZE_SIZE maze knownOnly b dest g 0
| walk_next p d n :
    walk_to MAZE_SIZE maze knownOnly b dest p n ->
    outside_box b p = false ->
    In d Along4 ->
    passable maze knownOnly p d = true ->
    walk_to MAZE_SIZE maze knownOnly b dest (Position_next p d) (S n).

(** The cell [p] of step [v] is settled: every neighbour behind a passable
    side has at most the step [v] plus the cost of one move. *)
Definition settled (MAZE_SIZE : Z) (stepTable : list Z) (maze : Maze)
    (knownOnly simple : bool) (st : StepArray * list Element) (p : Position)
    (v : Z) : Prop :=
  forall d, In d Along4 ->
    first_relaxed MAZE_SIZE stepTable maze knownOnly simple p v st d.

(** Every element of the queue has at least the step of its cell. *)
Definition queue_sound (MAZE_SIZE : Z) (st : StepArray * list Element)
  : Prop :=
  Forall (fun e : Element =>
            exists v, array_get st.1 (getIndex MAZE_SIZE e.1) = Some v
                      /\ v <= e.2) st.2.

(** Every cell of the box with a step below the sentinel, but possibly the
    cell [skip], waits in the queue with its step or is settled. *)
Definition queued_or_settled (MAZE_SIZE : Z) (stepTable : list Z)
    (maze : Maze) (knownOnly simple : bool) (b : Box) (skip : option Position)
    (st : StepArray * list Element) : Prop :=
  forall p v,
    skip <> Some p ->
    isInsideOfField MAZE_SIZE p = true -> outside_box b p = false ->
    array_get st.1 (getIndex MAZE_SIZE p) = Some v -> v < STEP_MAX ->
    In (p, v) st.2
    \/ settled MAZE_SIZE stepTable maze knownOnly simple st p v.

(** The destinations inside of the field have step 0. *)
Definition dest_zero (MAZE_SIZE : Z) (dest : Positions)
    (st : StepArray * list Element) : Prop :=
  forall g, In g dest -> isInsideOfField MAZE_SIZE g = true ->
    array_get st.1 (getIndex MAZE_SIZE g) = Some 0.

(** Every step below the sentinel is [good] for its cell. *)
Definition field_good (MAZE_SIZE : Z) (good : Position -> Z -> Prop)
    (st : StepArray * list Element) : Prop :=
  forall p v,
    isInsideOfField MAZE_SIZE p = true ->
    array_get st.1 (getIndex MAZE_SIZE p) = Some v -> v < STEP_MAX ->
    good p v.

Definition solver_inv (MAZE_SIZE : Z) (stepTable : list Z) (maze : Maze)
    (knownOnly simple : bool) (b : Box) (dest : Positions)
    (good : Position -> Z -> Prop) (st : StepArray * list Element) : Prop :=
  queue_sound MAZE_SIZE st
  /\ queued_or_settled MAZE_SIZE stepTable maze knownOnly simple b None st
  /\ dest_zero MAZE_SIZE dest st
  /\ field_good MAZE_SIZE good st.

(** What holds between the pop of the focus [u] of step [fs] and the end of
    its four runs. *)
Definition relax_inv (MAZE_SIZE : Z) (stepTable : list Z) (maze : Maze)
    (knownOnly simple : bool) (b : Box) (dest : Positions)
    (good : Position -> Z -> Prop) (u : Position) (fs : Z)
    (st : StepArray * list Element) : Prop :=
  state_wf MAZE_SIZE st
  /\ queue_sound MAZE_SIZE st
  /\ queued_or_settled MAZE_SIZE stepTable maze knownOnly simple b (Some u) st
  /\ dest_zero MAZE_SIZE dest st
  /\ field_good MAZE_SIZE good st
  /\ (array_get st.1 (getIndex MAZE_SIZE u) = Some fs
      \/ exists v, array_get st.1 (getIndex MAZE_SIZE u) = Some v
                   /\ In (u, v) st.2).

(** ** Paths and their cost *)

(** The cell at the end of the moves [dirs] from [p]. *)
Definition path_end (p : Position) (dirs : Directions) : Position :=
  foldl Position_next p dirs.

(** Every move of [dirs] from [p] is along one of the four directions and
    through a passable side. *)
Fixpoint path_open (maze : Maze) (knownOnly : bool) (p : Position)
    (dirs : Directions) : Prop :=
  match dirs with
  | [] => True
  | d :: ds =>
      In d Along4 /\ passable maze knownOnly p d = true
      /\ path_open maze knownOnly (Position_next p d) ds
  end.

(** The lengths of the maximal straight runs of a path. *)
Fixpoint run_lengths (dirs : Directions) : list Z :=
  match dirs with
  | [] => []
  | d :: ds =>
      match head ds, run_lengths ds with
      | Some d', r :: rs => if d =? d' then (r + 1) :: rs else 1 :: r :: rs
      | _, _ => [1]
      end
  end.

(** The cost of a path: the sum over its maximal straight runs of the cost
    of the run. *)
Definition path_cost (stepTable : list Z) (simple : bool) (dirs : Directions)
  : option Z :=
  costs ← mapM (run_cost stepTable simple) (run_lengths dirs);
  Some (foldr Z.add 0 costs).

(** Some path leads from a destination inside of the field to [p]. *)
Definition reachable (MAZE_SIZE : Z) (maze : Maze) (knownOnly : bool)
    (dest : Positions) (p : Position) : Prop :=
  exists g dirs,
    In g dest /\ isInsideOfField MAZE_SIZE g = true
    /\ path_open maze knownOnly g dirs /\ path_end g dirs = p.

(** The bounding box holds every cell of the field. *)
Definition box_covers (MAZE_SIZE : Z) (b : Box) : Prop :=
  forall p, isInsideOfField MAZE_SIZE p = true -> outside_box b p = false.

(** The cells of a walk, the last one first, and the cell at its end. *)
Inductive walk_path (MAZE_SIZE : Z) (maze : Maze) (knownOnly : bool) (b : Box)
    (dest : Positions) : list Position -> Position -> Prop :=
| walk_path_dest g :
    In g dest -> isInsideOfField MAZE_SIZE g = true ->
    walk_path MAZE_SIZE maze knownOnly b dest [] g
| walk_path_next l p d :
    walk_path MAZE_SIZE maze knownOnly b dest l p ->
    outside_box b p = false ->
    In d Along4 ->
    passable maze knownOnly p d = true ->
    walk_path MAZE_SIZE maze knownOnly b dest (p :: l) (Position_next p d).

(** The step [v] is the least cost of a path from a destination to [p]. *)
Definition least_cost (MAZE_SIZE : Z) (stepTable : list Z) (maze : Maze)
    (knownOnly simple : bool) (dest : Positions) (p : Position) (v : Z)
  : Prop :=
  (exists g dirs,
     In g dest /\ isInsideOfField MAZE_SIZE g = true
     /\ path_open maze knownOnly g dirs /\ path_end g dirs = p
     /\ path_cost stepTable simple dirs = Some v)
  /\ forall g dirs c,
       In g dest -> isInsideOfField MAZE_SIZE g = true ->
       path_open maze knownOnly g dirs -> path_end g dirs = p ->
       path_cost stepTable simple dirs = Some c -> v <= c.

(** The field [m] holds the least cost at every cell that a path reaches
    and the sentinel at every other cell. *)
Definition field_least (MAZE_SIZE : Z) (stepTable : list Z) (maze : Maze)
    (knownOnly simple : bool) (dest : Positions) (m : StepArray) : Prop :=
  forall p, isInsideOfField MAZE_SIZE p = true ->
    (reachable MAZE_SIZE maze knownOnly dest p ->
     getStep MAZE_SIZE m p < STEP_MAX
     /\ least_cost MAZE_SIZE stepTable maze knownOnly simple dest p
          (getStep MAZE_SIZE m p))
    /\ (~ reachable MAZE_SIZE maze knownOnly dest p ->
        getStep MAZE_SIZE m p = STEP_MAX).

(** ** The inputs of the examples *)

(** The maze of the example: 8 by 8 cells, no wall inside and none of them
    seen yet, the extent of the seen cells is the square from (0,0) to
    (1,1); the destination is the cell (0,0). *)
Definition far_maze : Maze := open_maze 8 false 0 1.


(** The field of 4 by 4 cells without a wall inside, every wall known, and
    its steps after the update for the destination (0,0) with the costs of
    the table. *)
Definition open4 : Maze := open_maze 4 true 0 3.

Definition open4_field : StepArray :=
  [0; 143; 220; 273; 143; 286; 363; 416; 220; 363; 440; 493; 273; 416; 493;
   546].

(** The same field of 4 by 4 cells where only the walls of the cells of the
    two columns on the East side have been seen. *)
Definition partly_known : Maze :=
  {| isWall := isWall open4;
     isKnown := fun p d => (2 <=? px p) || isWall open4 p d;
     getMinX := 2; getMaxX := 3; getMinY := 0; getMaxY := 3 |}.

(** ** Notions of the further properties *)

(** The cost table suits a field of side [MAZE_SIZE]: it has an entry for
    every run inside of the field, at least the entries 0 and 1, and every
    entry is a [step_t]. *)
Definition table_ok (MAZE_SIZE : Z) (stepTable : list Z) : Prop :=
  MAZE_SIZE <= Z.of_nat (length stepTable)
  /\ (1 < length stepTable)%nat
  /\ Forall (fun c => 0 <= c <= STEP_MAX) stepTable.

(** The coordinates of the destinations and the extent of the maze leave
    room for the padding of the bounding box in an [int8_t]. *)
Definition box_fits (maze : Maze) (dest : Positions) : Prop :=
  -127 <= getMinX maze <= 125 /\ -127 <= getMaxX maze <= 125
  /\ -127 <= getMinY maze <= 125 /\ -127 <= getMaxY maze <= 125
  /\ Forall (fun p => -127 <= px p <= 125 /\ -127 <= py p <= 125) dest.

(** The cells that a path leaves, one per move. *)
Fixpoint path_cells (p : Position) (dirs : Directions) : list Position :=
  match dirs with
  | [] => []
  | d :: ds => p :: path_cells (Position_next p d) ds
  end.

(** ** The next directions and the straight extension *)

(** [calcNextDirections]: the descent over the field through the cells
    whose walls are all known, then the candidates at the pose where it
    ends. The result is the pose [end], [nextDirectionsKnown] and
    [nextDirectionCandidates]. *)
Definition calcNextDirections (MAZE_SIZE : Z) (stepTable : list Z)
    (maze : Maze) (m : StepArray) (start : Pose)
  : option (Pose * Directions * Directions) :=
  '(nextDirectionsKnown, e) ←
    getStepDownDirections MAZE_SIZE stepTable maze m start false false true;
  Some (e, nextDirectionsKnown, getNextDirectionCandidates MAZE_SIZE maze m e).

(** The directions that one turn of the loop of [appendStraightDirections]
    tries, in their order: after a left or a right turn the diagonal goes
    on with the opposite turn, before straight on. *)
Definition straight_candidates (diagEnabled : bool)
    (prev_dir dir : Direction) : Directions :=
  let rel_dir := Direction_of_int (dir - prev_dir) in
  if diagEnabled && (rel_dir =? Left)
  then [Direction_of_int (dir + Right); dir]
  else if diagEnabled && (rel_dir =? Right)
       then [Direction_of_int (dir + Left); dir]
       else [dir].

(** [while (loop)] of [appendStraightDirections]: the first candidate with
    a side to go through is appended, and the loop ends when there is none.
    The loop of the source has no bound of its own; [None] is a loop that has
    not ended after [fuel] turns. *)
Fixpoint append_loop (fuel : nat) (maze : Maze)
    (knownOnly diagEnabled : bool) (p : Position) (prev_dir dir : Direction)
    (shortestDirections : Directions) : option Directions :=
  match fuel with
  | O => None
  | S fuel' =>
      match find (fun d => negb (isWall maze p d)
                           && (negb knownOnly || isKnown maze p d))
              (straight_candidates diagEnabled prev_dir dir) with
      | Some d =>
          append_loop fuel' maze knownOnly diagEnabled (Position_next p d)
            dir d (shortestDirections ++ [d])
      | None => Some shortestDirections
      end
  end.

(** [appendStraightDirections]; the cell [maze.getStart()], which the record
    of the maze does not carry, is the argument [start], and the result is
    the new value of [shortestDirections]. *)
Definition appendStraightDirections (fuel : nat) (maze : Maze)
    (start : Position) (shortestDirections : Directions)
    (knownOnly diagEnabled : bool) : option Directions :=
  let p := foldl Position_next start shortestDirections in
  if (length shortestDirections <? 2)%nat then Some shortestDirections
  else
    prev_dir ← shortestDirections !! (length shortestDirections - 1 - 1)%nat;
    dir ← shortestDirections !! (length shortestDirections - 1)%nat;
    append_loop fuel maze knownOnly diagEnabled p prev_dir dir
      shortestDirections.

(** Every move of [dirs] from [p] is through a passable side. *)
Fixpoint path_passable (maze : Maze) (knownOnly : bool) (p : Position)
    (dirs : Directions) : Prop :=
  match dirs with
  | [] => True
  | d :: ds =>
      passable maze knownOnly p d = true
      /\ path_passable maze knownOnly (Position_next p d) ds
  end.

(** A maze of 4 by 4 cells with a walled border and one wall inside, on the
    east side of the cell (2,2); every wall is known. *)
Definition walled4 : Maze :=
  {| isWall := fun p d =>
       isWall open4 p d || ((px p =? 2) && (py p =? 2) && (d =? East));
     isKnown := fun _ _ => true;
     getMinX := 0; getMaxX := 3; getMinY := 0; getMaxY := 3 |}.

(** A route is a sequence of straight runs, each a direction and a number
    of moves; its directions, and its cost: the sum of the costs of the
    runs. *)
Definition route_dirs (runs : list (Direction * nat)) : Directions :=
  concat (map (fun r : Direction * nat => replicate r.2 r.1) runs).

Fixpoint route_cost (stepTable : list Z) (simple : bool)
    (runs : list (Direction * nat)) : option Z :=
  match runs with
  | [] => Some 0
  | r :: rs =>
      c ← run_cost stepTable simple (Z.of_nat r.2);
      cs ← route_cost stepTable simple rs;
      Some (c + cs)
  end.

(** The step [v] is, as a [step_t], the cost of a route from a destination
    inside of the field to the cell [p], every move of it through a
    passable side. *)
Definition route_to (MAZE_SIZE : Z) (stepTable : list Z) (maze : Maze)
    (knownOnly simple : bool) (dest : Positions) (p : Position) (v : Z)
  : Prop :=
  exists g runs c,
    In g dest /\ isInsideOfField MAZE_SIZE g = true
    /\ Forall (fun r : Direction * nat => In r.1 Along4 /\ (1 <= r.2)%nat) runs
    /\ path_open maze knownOnly g (route_dirs runs)
    /\ path_end g (route_dirs runs) = p
    /\ route_cost stepTable simple runs = Some c
    /\ v = wrap16 c.

(** The walls of the maze are the same from both sides: between two cells
    of the field, the side of the one and the opposite side of the other are
    one wall. *)
Definition maze_symmetric (MAZE_SIZE : Z) (maze : Maze) : Prop :=
  forall p d, In d Along4 ->
    isInsideOfField MAZE_SIZE p = true ->
    isInsideOfField MAZE_SIZE (Position_next p d) = true ->
    isWall maze (Position_next p d) (Direction_of_int (d + Back))
    = isWall maze p d
    /\ isKnown maze (Position_next p d) (Direction_of_int (d + Back))
       = isKnown maze p d.

(** ** Notions of the field of unit costs behind the bounding box *)

(** The coordinates of the destinations and the extent of the maze are
    values of an [int8_t], as their type in the source says. *)
Definition int8_coords (maze : Maze) (dest : Positions) : Prop :=
  -128 <= getMinX maze <= 127 /\ -128 <= getMaxX maze <= 127
  /\ -128 <= getMinY maze <= 127 /\ -128 <= getMaxY maze <= 127
  /\ Forall (fun p => -128 <= px p <= 127 /\ -128 <= py p <= 127) dest.

(** The direction [d] points away from the box at the cell [c]. *)
Definition outward (b : Box) (c : Position) (d : Direction) : bool :=
  match d with
  | 0 => max_x b <? px c
  | 2 => max_y b <? py c
  | 4 => px c <? min_x b
  | 6 => py c <? min_y b
  | _ => false
  end.

(** The step [v] is the number of moves of a route to [p]: straight runs
    from a destination inside of the field, each run from a cell inside the
    bounding box and through passable sides. These are the ways that the
    update with unit costs follows. *)
Inductive box_route (MAZE_SIZE : Z) (maze : Maze) (knownOnly : bool)
    (b : Box) (dest : Positions) : Position -> Z -> Prop :=
| box_route_dest g :
    In g dest -> isInsideOfField MAZE_SIZE g = true ->
    box_route MAZE_SIZE maze knownOnly b dest g 0
| box_route_run u v d (k : nat) :
    box_route MAZE_SIZE maze knownOnly b dest u v ->
    outside_box b u = false ->
    In d Along4 ->
    (forall j, (j < S k)%nat ->
       passable maze knownOnly (advance u d j) d = true) ->
    box_route MAZE_SIZE maze knownOnly b dest (advance u d (S k))
      (v + Z.of_nat (S k)).

(** Away from the box the steps of the field [m] grow by at most one per
    cell, but possibly behind the cell [hole] of step [hv] in the direction
    [d0]: the place where a run is at work. *)
Definition outward_chain_at (MAZE_SIZE : Z) (maze : Maze) (knownOnly : bool)
    (b : Box) (hole : Position) (d0 : Direction) (hv : Z) (m : StepArray)
  : Prop :=
  forall c d vc,
    isInsideOfField MAZE_SIZE c = true -> In d Along4 ->
    outward b c d = true ->
    array_get m (getIndex MAZE_SIZE c) = Some vc -> vc < STEP_MAX ->
    passable maze knownOnly c d = true ->
    exists vn,
      array_get m (getIndex MAZE_SIZE (Position_next c d)) = Some vn
      /\ (vn <= vc + 1 \/ (c = hole /\ d = d0 /\ vc = hv)).

(** Away from the box the steps grow by at most one per cell. *)
Definition outward_chain (MAZE_SIZE : Z) (maze : Maze) (knownOnly : bool)
    (b : Box) (m : StepArray) : Prop :=
  forall c d vc,
    isInsideOfField MAZE_SIZE c = true -> In d Along4 ->
    outward b c d = true ->
    array_get m (getIndex MAZE_SIZE c) = Some vc -> vc < STEP_MAX ->
    passable maze knownOnly c d = true ->
    exists vn,
      array_get m (getIndex MAZE_SIZE (Position_next c d)) = Some vn
      /\ vn <= vc + 1.

(** A step of the field with unit costs is good for its cell: it is the
    number of moves of a route, far below the sentinel. *)
Definition unit_good (MAZE_SIZE : Z) (maze : Maze) (knownOnly : bool)
    (b : Box) (dest : Positions) (p : Position) (v : Z) : Prop :=
  box_route MAZE_SIZE maze knownOnly b dest p v /\ 0 <= v < 32768.

(** A field that the update with unit costs may end with: it is well
    formed, it satisfies the invariant of the loop on an empty queue, and it
    has the chain away from the box when the box holds the destinations. *)
Definition unit_final (MAZE_SIZE : Z) (stepTable : list Z) (maze : Maze)
    (knownOnly : bool) (dest : Positions) (m : StepArray) : Prop :=
  state_wf MAZE_SIZE (m, [])
  /\ solver_inv MAZE_SIZE stepTable maze knownOnly true
       (bounding_box maze dest) dest
       (unit_good MAZE_SIZE maze knownOnly (bounding_box maze dest) dest)
       (m, [])
  /\ ((forall g, In g dest -> isInsideOfField MAZE_SIZE g = true ->
         outside_box (bounding_box maze dest) g = false) ->
      outward_chain MAZE_SIZE maze knownOnly (bounding_box maze dest) m).
(** ** The cost table *)


Lemma raw_ok_all :
  forallb raw_ok (map Z.of_nat (seq 1 1023)) = true.
Proof. vm_compute. reflexivity. Qed.

Lemma raw_ok_at (i : Z) : 1 <= i <= 1023 -> raw_ok i = true.
Proof.
  intros Hi. pose proof raw_ok_all as H.
  rewrite forallb_forall in H. apply H.
  apply in_map_iff. exists (Z.to_nat i). split; [lia|].
  apply in_seq. lia.
Qed.

Lemma rawStepCost_defined (i : Z) :
  1 <= i <= 1024 -> exists a, rawStepCost i = Some a /\ 0 <= a.
Proof.
  intros Hi. destruct (decide (i = 1024)) as [->|].
  - pose proof (raw_ok_at 1023 ltac:(lia)) as H. unfold raw_ok in H.
    change (1023 + 1) with 1024 in H.
    destruct (rawStepCost 1023) as [a|] eqn:Ea; [|done].
    destruct (rawStepCost 1024) as [b|]; [|done].
    exists b. split; [done|].
    unfold rawStepCost in Ea. destruct (calcStraightCost _ _ _ _ _); [|done].
    unfold Float32.to_step in Ea.
    destruct (Float32.trunc _); [|done].
    destruct (0 <=? z0) eqn:?; [|done]. simpl in Ea.
    destruct (z0 <=? STEP_MAX); simplify_eq. lia.
  - pose proof (raw_ok_at i ltac:(lia)) as H. unfold raw_ok in H.
    destruct (rawStepCost i) as [a|] eqn:Ea; [|done]. exists a. split; [done|].
    unfold rawStepCost in Ea. destruct (calcStraightCost _ _ _ _ _); [|done].
    unfold Float32.to_step in Ea.
    destruct (Float32.trunc _); [|done].
    destruct (0 <=? z0) eqn:?; [|done]. simpl in Ea.
    destruct (z0 <=? STEP_MAX); simplify_eq. lia.
Qed.

Lemma rawStepCost_mono (i a b : Z) :
  1 <= i <= 1023 -> rawStepCost i = Some a -> rawStepCost (i + 1) = Some b ->
  a <= b.
Proof.
  intros Hi Ha Hb. pose proof (raw_ok_at i Hi) as H. unfold raw_ok in H.
  rewrite Ha, Hb in H. lia.
Qed.


Lemma calcStraightCostTable_lookup (stepTableSize scalingFactor : Z) t i :
  calcStraightCostTable stepTableSize scalingFactor = Some t ->
  0 <= i < stepTableSize ->
  t !! Z.to_nat i = table_entry scalingFactor i.
Proof.
  intros Ht Hi. unfold calcStraightCostTable in Ht.
  apply mapM_Some in Ht.
  assert (Hl : map Z.of_nat (seq 0 (Z.to_nat stepTableSize)) !! Z.to_nat i
               = Some i).
  { rewrite list_lookup_fmap, lookup_seq_lt by lia. simpl. f_equal. lia. }
  destruct (Forall2_lookup_l _ _ _ _ _ Ht Hl) as (y & Hy & Hf).
  rewrite Hy. symmetry. exact Hf.
Qed.

Lemma calcStraightCostTable_defined (stepTableSize scalingFactor : Z) :
  stepTableSize <= 1025 ->
  exists t, calcStraightCostTable stepTableSize scalingFactor = Some t
            /\ length t = Z.to_nat stepTableSize.
Proof.
  intros Hn.
  assert (H : is_Some (calcStraightCostTable stepTableSize scalingFactor)).
  { apply mapM_is_Some, Forall_forall. intros i Hi.
    apply list_elem_of_In, in_map_iff in Hi as (k & <- & Hk).
    apply in_seq in Hk. simpl.
    destruct (Z.of_nat k =? 0) eqn:E; [by eauto|].
    destruct (rawStepCost_defined (Z.of_nat k)) as (a & -> & _); [lia|].
    by eauto. }
  destruct H as [t Ht]. exists t. split; [done|].
  apply mapM_Some in Ht. apply Forall2_length in Ht.
  rewrite <- Ht, length_map, length_seq. done.
Qed.

(** C8: the cost table is monotonically non-decreasing, for every run length
    [i] with [1 <= i] and [i + 1] still in the table the entry at [i] is at
    most the entry at [i + 1], and the entry at 1 is the time of the 90
    degree turn divided by the scaling divisor. *)
Theorem cost_table_monotone (stepTableSize scalingFactor : Z) :
  2 <= stepTableSize <= 1025 ->
  0 < scalingFactor ->
  exists t,
    calcStraightCostTable stepTableSize scalingFactor = Some t
    /\ length t = Z.to_nat stepTableSize
    /\ (forall i, 1 <= i -> i + 1 < stepTableSize ->
        exists a b, t !! Z.to_nat i = Some a
                    /\ t !! Z.to_nat (i + 1) = Some b /\ a <= b)
    /\ t !! Z.to_nat 1 = Some (t_turn / scalingFactor).
Proof.
  intros Hn Hs.
  destruct (calcStraightCostTable_defined stepTableSize scalingFactor)
    as (t & Ht & Hlen); [lia|].
  exists t. repeat split; try done.
  - intros i Hi1 Hi2.
    rewrite !(calcStraightCostTable_lookup _ _ _ _ Ht) by lia.
    unfold table_entry.
    destruct (i =? 0) eqn:E0; [lia|]. destruct (i + 1 =? 0) eqn:E1; [lia|].
    destruct (rawStepCost_defined i) as (a & Ha & _); [lia|].
    destruct (rawStepCost_defined (i + 1)) as (b & Hb & _); [lia|].
    rewrite Ha, Hb. eexists _, _. repeat split.
    apply Z.div_le_mono; [lia|]. eapply rawStepCost_mono; eauto. lia.
  - rewrite (calcStraightCostTable_lookup _ _ _ _ Ht) by lia.
    vm_compute table_entry. reflexivity.
Qed.

Lemma cost_table_monotone_witness :
  exists t,
    calcStraightCostTable 32 2 = Some t
    /\ length t = Z.to_nat 32
    /\ (forall i, 1 <= i -> i + 1 < 32 ->
        exists a b, t !! Z.to_nat i = Some a
                    /\ t !! Z.to_nat (i + 1) = Some b /\ a <= b)
    /\ t !! Z.to_nat 1 = Some (t_turn / 2).
Proof. apply (cost_table_monotone 32 2); lia. Defined.

(** ** The main loop *)

Section LoopPow.

Context {S R : Type} (step : S -> option (S + R)).

Lemma loop_pow_done (n : nat) (s : S) (r : R) :
  step s = Some (inr r) -> loop_pow step n s = Some (inr r).
Proof.
  intros H. induction n as [|n IH]; simpl; [done|]. by rewrite IH.
Qed.

(** An invariant of the steps holds at whatever the loop answers. *)
Lemma loop_pow_inv (Inv : S -> Prop) (Post : R -> Prop) :
  (forall s s', Inv s -> step s = Some (inl s') -> Inv s') ->
  (forall s r, Inv s -> step s = Some (inr r) -> Post r) ->
  forall n s, Inv s ->
    match loop_pow step n s with
    | Some (inl s') => Inv s'
    | Some (inr r) => Post r
    | None => True
    end.
Proof.
  intros Hstep Hend. induction n as [|n IH]; intros s Hs; simpl.
  - destruct (step s) as [[s'|r]|] eqn:E; eauto.
  - pose proof (IH s Hs) as H1.
    destruct (loop_pow step n s) as [[s'|r]|]; [by apply IH|done|done].
Qed.

End LoopPow.

Section UpdateBasics.

Variable MAZE_SIZE : Z.
Variable stepTable : list Z.
Context {PQ : PriorityQueue}.

Lemma seed_outside (dest : Positions) st :
  Forall (fun p => isInsideOfField MAZE_SIZE p = false) dest ->
  seed MAZE_SIZE dest st = st.
Proof.
  intros H. revert st. induction H as [|p dest Hp _ IH]; intros st; [done|].
  unfold seed in *. simpl. rewrite Hp. apply IH.
Qed.

Lemma update_step_empty brk maze knownOnly simple b m :
  update_step MAZE_SIZE stepTable brk maze knownOnly simple b (m, [])
  = Some (inr m).
Proof. unfold update_step. simpl. by rewrite pq_pop_nil. Qed.

End UpdateBasics.

(** C9: a descent whose start cell is outside of the field returns the empty
    sequence at once, whatever the field and the maze are: it reads neither
    (the field may even be an array of no cell). *)
Theorem descent_outside_field (MAZE_SIZE : Z) (stepTable : list Z)
    (start : Pose) (knownOnly simple breakUnknown : bool) :
  isInsideOfField MAZE_SIZE (pose_p start) = false ->
  forall (maze : Maze) (m : StepArray),
    getStepDownDirections MAZE_SIZE stepTable maze m start knownOnly simple
      breakUnknown = Some ([], start).
Proof. intros H maze m. unfold getStepDownDirections. by rewrite H. Qed.

Lemma descent_outside_field_witness :
  getStepDownDirections 32 realTable (open_maze 32 false 0 0) []
    (mkPose (mkPosition 32 0) North) false false true
  = Some ([], mkPose (mkPosition 32 0) North).
Proof. apply (descent_outside_field 32 realTable). reflexivity. Defined.

(** C10: when every destination is outside of the field, none is seeded:
    the update ends, without an error, with every cell of the field at the
    sentinel. *)
Theorem update_no_destination_inside (MAZE_SIZE : Z) (stepTable : list Z)
    (PQ : PriorityQueue) (maze : Maze) (dest : Positions)
    (knownOnly simple : bool) :
  Forall (fun p => isInsideOfField MAZE_SIZE p = false) dest ->
  update MAZE_SIZE stepTable maze dest knownOnly simple
  = Some (reset MAZE_SIZE)
  /\ Forall (fun s => s = STEP_MAX) (reset MAZE_SIZE)
  /\ forall p, getStep MAZE_SIZE (reset MAZE_SIZE) p = STEP_MAX.
Proof.
  intros H. split; [|split].
  - unfold update, update_gen. rewrite seed_outside by done.
    by rewrite (loop_pow_done _ _ _ _ (update_step_empty _ _ _ _ _ _ _ _)).
  - apply Forall_forall. intros s Hs. unfold reset in Hs.
    by apply elem_of_replicate in Hs as [-> _].
  - intros p. unfold getStep. destruct (isInsideOfField MAZE_SIZE p); [|done].
    unfold array_get. destruct (_ <? 0); [done|].
    destruct (reset MAZE_SIZE !! _) eqn:E; [|done]. simpl.
    unfold reset in E. by apply lookup_replicate in E as [-> _].
Qed.

Lemma update_no_destination_inside_witness :
  @update 32 realTable fifo_queue (open_maze 32 false 0 0)
    [mkPosition (-1) 3; mkPosition 32 32] false false
  = Some (reset 32)
  /\ Forall (fun s => s = STEP_MAX) (reset 32)
  /\ forall p, getStep 32 (reset 32) p = STEP_MAX.
Proof.
  apply (update_no_destination_inside 32 realTable fifo_queue).
  repeat constructor.
Defined.

(** ** The order of the candidates *)

Section Sort.

Context {A : Type}.
Implicit Types (l : list A) (k : A -> bool).

Lemma linear_insert_perm (comp : A -> A -> bool) x l :
  linear_insert comp x l ≡ₚ x :: l.
Proof.
  induction l as [|y l IH]; simpl; [done|].
  destruct (comp x y); [|done]. rewrite IH. apply perm_swap.
Qed.

Lemma std_sort_perm (comp : A -> A -> bool) l : std_sort comp l ≡ₚ l.
Proof.
  unfold std_sort.
  assert (H : forall acc,
    foldl (fun racc x => linear_insert comp x racc) acc l ≡ₚ l ++ acc).
  { induction l as [|x l IH]; intros acc; simpl; [done|].
    rewrite IH, linear_insert_perm. by rewrite Permutation_middle. }
  rewrite <- Permutation_rev, H. by rewrite app_nil_r.
Qed.

(** A comparator that tells a class [k] from the rest gathers the class in
    front and keeps the order inside of both parts. *)
Lemma linear_insert_class k x (u v : list A) :
  Forall (fun y => k y = true) u -> Forall (fun y => k y = false) v ->
  linear_insert (fun a b => k a && negb (k b)) x (rev v ++ rev u)
  = if k x then rev v ++ x :: rev u else x :: rev v ++ rev u.
Proof.
  intros Hu Hv. apply Forall_rev in Hv. 
  induction Hv as [|y w Hy Hw IH]; simpl.
  - destruct (rev u) as [|z r] eqn:Er; simpl; [by destruct (k x)|].
    assert (k z = true) as ->.
    { apply Forall_rev in Hu. rewrite Er in Hu. by inversion Hu. }
    rewrite andb_false_r. by destruct (k x).
  - rewrite Hy. destruct (k x) eqn:Ex; simpl; [|done]. by rewrite IH.
Qed.

Lemma std_sort_class k l :
  std_sort (fun a b => k a && negb (k b)) l
  = List.filter k l ++ List.filter (fun y => negb (k y)) l.
Proof.
  unfold std_sort.
  assert (H : forall u v,
    Forall (fun y => k y = true) u -> Forall (fun y => k y = false) v ->
    rev (foldl (fun racc x => linear_insert (fun a b => k a && negb (k b)) x racc)
           (rev v ++ rev u) l)
    = (u ++ List.filter k l) ++ v ++ List.filter (fun y => negb (k y)) l).
  { induction l as [|x l IH]; intros u v Hu Hv; simpl.
    - rewrite rev_app_distr, !rev_involutive, !app_nil_r. done.
    - rewrite linear_insert_class by done. destruct (k x) eqn:Ex; simpl.
      + change (rev v ++ x :: rev u) with (rev v ++ rev (u ++ [x])) || idtac.
        replace (rev v ++ x :: rev u) with (rev v ++ rev (u ++ [x]))
          by (by rewrite rev_app_distr).
        rewrite IH; [|apply Forall_app; split; [done|by repeat constructor]|done].
        by rewrite <- (app_assoc u).
      + replace (x :: rev v ++ rev u) with (rev (v ++ [x]) ++ rev u)
          by (by rewrite rev_app_distr).
        rewrite IH; [|done|apply Forall_app; split; [done|by repeat constructor]].
        by rewrite <- (app_assoc v). }
  apply (H [] []); constructor.
Qed.

(** A comparator that looks at its first argument only moves the elements
    of the class to the front, one before the other. *)
Lemma std_sort_first k l :
  std_sort (fun a _ => k a) l
  = rev (List.filter k l) ++ List.filter (fun y => negb (k y)) l.
Proof.
  unfold std_sort.
  assert (Hins : forall x r, linear_insert (fun a _ => k a) x r
                             = if k x then r ++ [x] else x :: r).
  { intros x r. induction r as [|y r IH]; simpl.
    - by destruct (k x).
    - destruct (k x) eqn:E; [by rewrite IH|done]. }
  assert (H : forall acc,
    rev (foldl (fun racc x => linear_insert (fun a _ => k a) x racc) acc l)
    = rev (List.filter k l) ++ rev acc
      ++ List.filter (fun y => negb (k y)) l).
  { induction l as [|x l IH]; intros acc; simpl.
    - by rewrite app_nil_r.
    - rewrite IH, Hins. destruct (k x); simpl.
      + rewrite rev_app_distr. simpl. by rewrite <- !app_assoc.
      + by rewrite <- !app_assoc. }
  by rewrite H.
Qed.

End Sort.

Section Before.

Context {A : Type}.

Lemma before_app (a b : A) (l1 l2 : list A) :
  In a l1 -> In b l2 -> before a b (l1 ++ l2).
Proof.
  intros Ha Hb. apply in_split in Ha as (u1 & u2 & ->).
  apply in_split in Hb as (v1 & v2 & ->).
  exists u1, (u2 ++ v1), v2. by rewrite <- !app_assoc.
Qed.

Lemma before_app_r (a b : A) (l1 l2 : list A) :
  before a b l2 -> before a b (l1 ++ l2).
Proof.
  intros (u & v & w & ->). exists (l1 ++ u), v, w. by rewrite <- app_assoc.
Qed.

Lemma before_filter (k : A -> bool) (a b : A) (l : list A) :
  k a = true -> k b = true -> before a b l -> before a b (List.filter k l).
Proof.
  intros Ha Hb (u & v & w & ->).
  exists (List.filter k u), (List.filter k v), (List.filter k w).
  rewrite List.filter_app. simpl. rewrite Ha, List.filter_app. simpl.
  by rewrite Hb.
Qed.

Lemma before_in (a b : A) (l : list A) : before a b l -> In a l /\ In b l.
Proof.
  intros (u & v & w & ->). split.
  - apply in_or_app. right. by left.
  - apply in_or_app. right. right. apply in_or_app. right. by left.
Qed.

End Before.


Lemma open_candidate_sorted (MAZE_SIZE : Z) maze m focus d
    (comp : Direction -> Direction -> bool) :
  open_candidate MAZE_SIZE maze m focus d ->
  In d (std_sort comp
          (filter (fun d => negb (isWall maze (pose_p focus) d)
                    && negb (getStep MAZE_SIZE m
                               (Position_next (pose_p focus) d) =? STEP_MAX)
                    = true)
             (map (fun r => Direction_of_int (pose_d focus + r))
                [Front; Left; Right; Back]))).
Proof.
  intros (Hin & Hw & Hs). apply list_elem_of_In.
  rewrite std_sort_perm. apply list_elem_of_filter. split.
  - rewrite Hw. simpl. apply negb_true_iff, Z.eqb_neq. done.
  - by apply list_elem_of_In.
Qed.

(** C7, as amended: of two open candidates, the one that leads to a cell with
    an unknown wall comes before the one that leads to a cell without, in
    whatever order the two are enumerated, unless the latter is the heading
    itself, which the last pass moves to the front. *)
Theorem candidates_unknown_first (MAZE_SIZE : Z) (maze : Maze) (m : StepArray)
    (focus : Pose) (d1 d2 : Direction) :
  open_candidate MAZE_SIZE maze m focus d1 ->
  open_candidate MAZE_SIZE maze m focus d2 ->
  getStep MAZE_SIZE m (Position_next (pose_p focus) d1)
  = getStep MAZE_SIZE m (Position_next (pose_p focus) d2) ->
  unknownCount maze (Position_next (pose_p focus) d1) <> 0 ->
  unknownCount maze (Position_next (pose_p focus) d2) = 0 ->
  d2 <> pose_d focus ->
  before d1 d2 (getNextDirectionCandidates MAZE_SIZE maze m focus).
Proof.
  intros H1 H2 _ Hu1 Hu2 Hd2. unfold getNextDirectionCandidates.
  rewrite std_sort_first, std_sort_class.
  set (u := fun d => negb (unknownCount maze (Position_next (pose_p focus) d) =? 0)).
  set (s1 := std_sort _ _).
  assert (In d1 s1) as Hi1 by (by apply open_candidate_sorted).
  assert (In d2 s1) as Hi2 by (by apply open_candidate_sorted).
  assert (u d1 = true) as Hk1 by (by apply negb_true_iff, Z.eqb_neq).
  assert (u d2 = false) as Hk2 by (by apply negb_false_iff, Z.eqb_eq).
  assert (before d1 d2
            (List.filter u s1 ++ List.filter (fun y => negb (u y)) s1)) as Hb.
  { apply before_app; apply filter_In; split; try done. by rewrite Hk2. }
  assert ((d2 =? pose_d focus) = false) as Hh2 by (by apply Z.eqb_neq).
  destruct (d1 =? pose_d focus) eqn:Hh1.
  - apply before_app.
    + apply in_rev. rewrite rev_involutive. apply filter_In. split; [|done].
      by apply before_in in Hb as [? ?].
    + apply filter_In. split; [|by rewrite Hh2].
      by apply before_in in Hb as [? ?].
  - apply before_app_r, before_filter; [by rewrite Hh1|by rewrite Hh2|done].
Qed.


Lemma candidates_unknown_first_witness :
  before North South
    (getNextDirectionCandidates 4 candidates_maze
       (<[4%nat := 5]> candidates_field) candidates_pose).
Proof.
  apply (candidates_unknown_first 4 candidates_maze _ candidates_pose).
  - repeat split; [right; left; reflexivity|done].
  - repeat split; [right; right; left; reflexivity|done].
  - reflexivity.
  - done.
  - reflexivity.
  - done.
Defined.

(** C7 as stated fails when the candidate without an unknown wall is the
    heading: the last pass puts it first. *)
Lemma candidates_unknown_first_counterexample :
  open_candidate 4 candidates_maze candidates_field candidates_pose North
  /\ open_candidate 4 candidates_maze candidates_field candidates_pose East
  /\ getStep 4 candidates_field (Position_next (pose_p candidates_pose) North)
     = getStep 4 candidates_field (Position_next (pose_p candidates_pose) East)
  /\ unknownCount candidates_maze
       (Position_next (pose_p candidates_pose) North) <> 0
  /\ unknownCount candidates_maze
       (Position_next (pose_p candidates_pose) East) = 0
  /\ getNextDirectionCandidates 4 candidates_maze candidates_field
       candidates_pose = [East; North]
  /\ ~ before North East
         (getNextDirectionCandidates 4 candidates_maze candidates_field
            candidates_pose).
Proof.
  repeat split; try done.
  - right; left; reflexivity.
  - left; reflexivity.
  - intros (l1 & l2 & l3 & H).
    change (getNextDirectionCandidates 4 candidates_maze candidates_field
              candidates_pose) with [East; North] in H.
    destruct l1 as [|a l1]; [discriminate H|].
    apply (f_equal length) in H. simpl in H.
    rewrite length_app in H. simpl in H. rewrite length_app in H. simpl in H.
    lia.
Qed.
(** ** The geometry of the field and the array *)

Section Field.

Variable MAZE_SIZE : Z.
Hypothesis HN : 0 < MAZE_SIZE <= 127.

Lemma inside_bounds (p : Position) :
  isInsideOfField MAZE_SIZE p = true
  <-> 0 <= px p < MAZE_SIZE /\ 0 <= py p < MAZE_SIZE.
Proof. unfold isInsideOfField. rewrite !andb_true_iff. lia. Qed.

Lemma outside_bounds (p : Position) :
  isInsideOfField MAZE_SIZE p = false
  <-> ~ (0 <= px p < MAZE_SIZE /\ 0 <= py p < MAZE_SIZE).
Proof. rewrite <- inside_bounds. by destruct (isInsideOfField _ _). Qed.

Lemma wrap8_small (z : Z) : -128 <= z <= 127 -> wrap8 z = z.
Proof. intros H. unfold wrap8. rewrite Z.mod_small; lia. Qed.

Lemma Along4_cases (d : Direction) :
  In d Along4 -> d = 0 \/ d = 2 \/ d = 4 \/ d = 6.
Proof. unfold Along4, East, North, West, South. simpl. intuition. Qed.

Lemma room_range (p : Position) (d : Direction) :
  In d Along4 -> isInsideOfField MAZE_SIZE p = true ->
  0 <= room MAZE_SIZE p d <= MAZE_SIZE - 1.
Proof.
  intros Hd Hp. apply inside_bounds in Hp.
  destruct (Along4_cases d Hd) as [-> | [-> | [-> | ->]]]; simpl; lia.
Qed.

Lemma next_inside (p : Position) (d : Direction) :
  In d Along4 -> isInsideOfField MAZE_SIZE p = true ->
  0 < room MAZE_SIZE p d ->
  isInsideOfField MAZE_SIZE (Position_next p d) = true
  /\ room MAZE_SIZE (Position_next p d) d = room MAZE_SIZE p d - 1.
Proof.
  intros Hd Hp Hr. apply inside_bounds in Hp. rewrite inside_bounds.
  destruct (Along4_cases d Hd) as [-> | [-> | [-> | ->]]]; simpl in *;
    rewrite wrap8_small by lia; lia.
Qed.

Lemma next_outside (p : Position) (d : Direction) :
  In d Along4 -> isInsideOfField MAZE_SIZE p = true ->
  room MAZE_SIZE p d <= 0 ->
  isInsideOfField MAZE_SIZE (Position_next p d) = false.
Proof.
  intros Hd Hp Hr. apply inside_bounds in Hp. rewrite outside_bounds.
  destruct (Along4_cases d Hd) as [-> | [-> | [-> | ->]]]; simpl in *;
    rewrite wrap8_small by lia; lia.
Qed.

Lemma next_ne (p : Position) (d : Direction) :
  In d Along4 -> isInsideOfField MAZE_SIZE p = true -> Position_next p d <> p.
Proof.
  intros Hd Hp Heq. apply inside_bounds in Hp.
  apply (f_equal px) in Heq as Hx. apply (f_equal py) in Heq as Hy.
  destruct (Along4_cases d Hd) as [-> | [-> | [-> | ->]]]; simpl in *;
    rewrite wrap8_small in * by lia; lia.
Qed.

Lemma getIndex_range (p : Position) :
  isInsideOfField MAZE_SIZE p = true ->
  0 <= getIndex MAZE_SIZE p < MAZE_SIZE * MAZE_SIZE.
Proof. intros Hp. apply inside_bounds in Hp. unfold getIndex. nia. Qed.

Lemma getIndex_inj (p q : Position) :
  isInsideOfField MAZE_SIZE p = true -> isInsideOfField MAZE_SIZE q = true ->
  getIndex MAZE_SIZE p = getIndex MAZE_SIZE q -> p = q.
Proof.
  intros Hp Hq H. apply inside_bounds in Hp, Hq. unfold getIndex in H.
  destruct p as [x y], q as [x' y']; simpl in *.
  assert (x = x') by nia. subst. f_equal. lia.
Qed.

Lemma array_get_Some (m : StepArray) (i : Z) :
  0 <= i < Z.of_nat (length m) -> is_Some (array_get m i).
Proof.
  intros Hi. unfold array_get. destruct (i <? 0) eqn:E; [lia|].
  apply lookup_lt_is_Some. lia.
Qed.

Lemma array_get_set_eq (m : StepArray) (i v : Z) :
  0 <= i < Z.of_nat (length m) ->
  array_get (array_set m i v) i = Some v.
Proof.
  intros Hi. unfold array_get, array_set. destruct (i <? 0) eqn:E; [lia|].
  apply list_lookup_insert_eq. lia.
Qed.

Lemma array_get_set_ne (m : StepArray) (i j v : Z) :
  0 <= i -> 0 <= j -> i <> j ->
  array_get (array_set m i v) j = array_get m j.
Proof.
  intros Hi Hj Hij. unfold array_get, array_set.
  destruct (j <? 0); [done|]. apply list_lookup_insert_ne. lia.
Qed.

Lemma relax_cell_get (c p : Position) (v : Z) st :
  state_wf MAZE_SIZE st -> isInsideOfField MAZE_SIZE c = true ->
  isInsideOfField MAZE_SIZE p = true ->
  array_get (relax_cell MAZE_SIZE c v st).1 (getIndex MAZE_SIZE p)
  = if decide (p = c) then Some v
    else array_get st.1 (getIndex MAZE_SIZE p).
Proof.
  intros (Hlen & _) Hc Hp. unfold relax_cell. cbn [fst].
  pose proof (getIndex_range _ Hc).
  pose proof (getIndex_range _ Hp).
  destruct (decide (p = c)) as [->|Hne].
  - apply array_get_set_eq. lia.
  - apply array_get_set_ne; [lia|lia|]. intros E. apply Hne.
    symmetry. by apply getIndex_inj.
Qed.

End Field.
(** ** One straight run of the update *)

Lemma wrap16_range (z : Z) : 0 <= wrap16 z <= STEP_MAX.
Proof. unfold wrap16, STEP_MAX. pose proof (Z.mod_pos_bound z 65536). lia. Qed.

Section Run.

Variable MAZE_SIZE : Z.
Variable stepTable : list Z.
Hypothesis HN : 0 < MAZE_SIZE <= 127.
Variable maze : Maze.
Hypothesis Hclosed : maze_closed MAZE_SIZE maze.
Variables knownOnly simple : bool.
Hypothesis Htable : simple = false -> MAZE_SIZE <= Z.of_nat (length stepTable).


Lemma relax_cell_wf (c : Position) (v cur : Z) st :
  state_wf MAZE_SIZE st ->
  isInsideOfField MAZE_SIZE c = true ->
  array_get st.1 (getIndex MAZE_SIZE c) = Some cur ->
  0 <= v < cur ->
  state_wf MAZE_SIZE (relax_cell MAZE_SIZE c v st).
Proof.
  intros (Hlen & Hval & Hq) Hc Hcur Hv. unfold relax_cell, array_set.
  assert (cur <= STEP_MAX).
  { unfold array_get in Hcur. destruct (_ <? 0); [done|].
    rewrite Forall_lookup in Hval. by apply Hval in Hcur as [_ ?]. }
  split; [|split]; cbn [fst snd].
  - by rewrite length_insert.
  - apply Forall_insert; [done|]. lia.
  - constructor; [|done]. simpl. split; [done|lia].
Qed.

Lemma passable_next_inside (p : Position) (d : Direction) :
  In d Along4 -> isInsideOfField MAZE_SIZE p = true ->
  passable maze knownOnly p d = true ->
  0 < room MAZE_SIZE p d.
Proof.
  intros Hd Hp Hpass. destruct (Z_lt_le_dec 0 (room MAZE_SIZE p d)); [done|].
  pose proof (next_outside MAZE_SIZE HN p d Hd Hp ltac:(lia)) as Hout.
  unfold passable in Hpass. rewrite (Hclosed p d Hd Hp Hout) in Hpass. done.
Qed.

Lemma run_cost_Some (i : Z) :
  1 <= i <= MAZE_SIZE - 1 -> is_Some (run_cost stepTable simple i).
Proof.
  intros Hi. unfold run_cost. destruct simple eqn:E; [by eauto|].
  apply lookup_lt_is_Some. specialize (Htable eq_refl). lia.
Qed.

Variable brk : bool.
Variables (focus : Position) (focus_step : Z) (d : Direction).
Hypothesis Hd : In d Along4.

(** A relaxation lowers one step and leaves the others. *)
Lemma relax_step_get st st' (p : Position) v :
  relax_step MAZE_SIZE stepTable maze knownOnly simple focus focus_step d
    st st' ->
  state_wf MAZE_SIZE st ->
  isInsideOfField MAZE_SIZE p = true ->
  array_get st.1 (getIndex MAZE_SIZE p) = Some v ->
  exists v', array_get st'.1 (getIndex MAZE_SIZE p) = Some v' /\ v' <= v.
Proof.
  intros Hstep (Hlen & _ & _) Hp Hv. destruct Hstep as [st k c cur _ _ Hin Hc Hcur Hlt].
  unfold relax_cell. cbn [fst].
  pose proof (getIndex_range MAZE_SIZE HN _ Hin).
  pose proof (getIndex_range MAZE_SIZE HN _ Hp).
  destruct (decide (getIndex MAZE_SIZE (advance focus d (S k))
                    = getIndex MAZE_SIZE p)) as [E|E].
  - rewrite <- E, array_get_set_eq by lia. rewrite E in Hcur.
    exists (wrap16 (focus_step + c)). split; [done|]. simplify_eq. lia.
  - rewrite array_get_set_ne by lia. exists v. split; [done|lia].
Qed.

Lemma relax_step_wf st st' :
  relax_step MAZE_SIZE stepTable maze knownOnly simple focus focus_step d
    st st' ->
  state_wf MAZE_SIZE st -> state_wf MAZE_SIZE st'.
Proof.
  intros Hstep Hwf. destruct Hstep as [st k c cur _ _ Hin Hc Hcur Hlt].
  eapply relax_cell_wf; eauto.
  pose proof (wrap16_range (focus_step + c)). lia.
Qed.

Lemma relax_steps_wf st st' :
  rtc (relax_step MAZE_SIZE stepTable maze knownOnly simple focus focus_step
         d) st st' ->
  state_wf MAZE_SIZE st -> state_wf MAZE_SIZE st'.
Proof. induction 1; eauto using relax_step_wf. Qed.

Lemma relax_steps_get st st' (p : Position) v :
  rtc (relax_step MAZE_SIZE stepTable maze knownOnly simple focus focus_step
         d) st st' ->
  state_wf MAZE_SIZE st ->
  isInsideOfField MAZE_SIZE p = true ->
  array_get st.1 (getIndex MAZE_SIZE p) = Some v ->
  exists v', array_get st'.1 (getIndex MAZE_SIZE p) = Some v' /\ v' <= v.
Proof.
  intros Hrtc. revert v. induction Hrtc as [st|st st1 st' H1 _ IH]; intros v Hwf Hp Hv.
  - exists v. split; [done|lia].
  - destruct (relax_step_get _ _ _ _ H1 Hwf Hp Hv) as (v1 & Hv1 & Hle1).
    destruct (IH v1 (relax_step_wf _ _ H1 Hwf) Hp Hv1) as (v' & Hv' & Hle').
    exists v'. split; [done|lia].
Qed.

Lemma update_run_spec (fuel k : nat) st :
  isInsideOfField MAZE_SIZE (advance focus d k) = true ->
  (forall j, (j < k)%nat ->
     passable maze knownOnly (advance focus d j) d = true) ->
  room MAZE_SIZE (advance focus d k) d < Z.of_nat fuel ->
  Z.of_nat k + room MAZE_SIZE (advance focus d k) d <= MAZE_SIZE - 1 ->
  state_wf MAZE_SIZE st ->
  exists st',
    update_run MAZE_SIZE stepTable brk fuel maze knownOnly simple focus_step d
      (advance focus d k) (Z.of_nat k + 1) st = Some st'
    /\ rtc (relax_step MAZE_SIZE stepTable maze knownOnly simple focus
              focus_step d) st st'
    /\ state_wf MAZE_SIZE st'
    /\ (passable maze knownOnly (advance focus d k) d = true ->
        exists c v,
          run_cost stepTable simple (Z.of_nat k + 1) = Some c
          /\ array_get st'.1 (getIndex MAZE_SIZE (advance focus d (S k)))
             = Some v
          /\ v <= wrap16 (focus_step + c)).
Proof.
  revert k st. induction fuel as [|fuel IH]; intros k st Hin Hopen Hfuel Hroom Hwf.
  { pose proof (room_range MAZE_SIZE HN _ d Hd Hin). lia. }
  simpl.
  destruct (isWall maze (advance focus d k) d
            || knownOnly && negb (isKnown maze (advance focus d k) d)) eqn:Hw.
  { exists st. split; [done|]. split; [apply rtc_refl|]. split; [done|].
    unfold passable. by rewrite Hw. }
  assert (Hpass : passable maze knownOnly (advance focus d k) d = true).
  { unfold passable. by rewrite Hw. }
  pose proof (passable_next_inside _ _ Hd Hin Hpass) as Hr.
  destruct (next_inside MAZE_SIZE HN _ d Hd Hin Hr) as [Hin' Hr'].
  destruct (run_cost_Some (Z.of_nat k + 1)) as [c Hc]; [lia|].
  rewrite Hc. simpl.
  pose proof Hwf as (Hlen & Hval & Hq).
  destruct (array_get_Some st.1 (getIndex MAZE_SIZE (Position_next (advance focus d k) d)))
    as [cur Hcur].
  { pose proof (getIndex_range MAZE_SIZE HN _ Hin'). lia. }
  rewrite Hcur. simpl.
  assert (Hopen' : forall j, (j < S k)%nat ->
            passable maze knownOnly (advance focus d j) d = true).
  { intros j Hj. destruct (decide (j = k)) as [->|]; [done|]. apply Hopen. lia. }
  replace (Z.of_nat k + 1 + 1) with (Z.of_nat (S k) + 1) by lia.
  change (Position_next (advance focus d k) d) with (advance focus d (S k)) in *.
  destruct (cur <=? wrap16 (focus_step + c)) eqn:Hle.
  - destruct brk.
    + exists st. split; [done|]. split; [apply rtc_refl|].
      split; [done|]. intros _. exists c, cur.
      repeat split; try done. lia.
    + destruct (IH (S k) st) as (st' & Hst' & Hrtc & Hwf' & _);
        try done; try lia.
      exists st'. split; [done|]. split; [done|]. split; [done|].
      intros _.
      destruct (relax_steps_get _ _ _ _ Hrtc Hwf Hin' Hcur)
        as (v' & Hv' & Hle').
      exists c, v'. repeat split; try done. lia.
  - assert (Hstep : relax_step MAZE_SIZE stepTable maze knownOnly simple focus
              focus_step d st
              (relax_cell MAZE_SIZE (advance focus d (S k))
                 (wrap16 (focus_step + c)) st)).
    { eapply RelaxStep; eauto; [|lia].
      replace (Z.of_nat (S k)) with (Z.of_nat k + 1) by lia. done. }
    destruct (IH (S k) (relax_cell MAZE_SIZE (advance focus d (S k))
                          (wrap16 (focus_step + c)) st))
      as (st' & Hst' & Hrtc & Hwf' & _); try done; try lia.
    { eapply relax_step_wf; eauto. }
    exists st'. split; [exact Hst'|]. split; [by eapply rtc_l; eauto|].
    split; [done|]. intros _.
    destruct (relax_steps_get _ _ (advance focus d (S k))
                (wrap16 (focus_step + c)) Hrtc) as (v' & Hv' & Hle');
      [by eapply relax_step_wf; eauto|done| |].
    { unfold relax_cell. cbn [fst]. apply array_get_set_eq.
      pose proof (getIndex_range MAZE_SIZE HN _ Hin'). lia. }
    exists c, v'. by repeat split.
Qed.

End Run.
(** ** The four runs from a focus *)

Section Dirs.

Variable MAZE_SIZE : Z.
Variable stepTable : list Z.
Hypothesis HN : 0 < MAZE_SIZE <= 127.
Variable maze : Maze.
Hypothesis Hclosed : maze_closed MAZE_SIZE maze.
Variables knownOnly simple : bool.
Hypothesis Htable : simple = false -> MAZE_SIZE <= Z.of_nat (length stepTable).
Variable brk : bool.
Variables (focus : Position) (focus_step : Z).
Hypothesis Hfocus : isInsideOfField MAZE_SIZE focus = true.

Local Abbreviation relax :=
  (relax_from MAZE_SIZE stepTable maze knownOnly simple focus focus_step).

Lemma relax_from_wf st st' :
  rtc relax st st' -> state_wf MAZE_SIZE st -> state_wf MAZE_SIZE st'.
Proof.
  induction 1 as [|st st1 st' [d H1] _ IH]; [done|]. intros Hwf.
  apply IH. eapply relax_step_wf; eauto.
Qed.

Lemma relax_from_get st st' (p : Position) v :
  rtc relax st st' ->
  state_wf MAZE_SIZE st ->
  isInsideOfField MAZE_SIZE p = true ->
  array_get st.1 (getIndex MAZE_SIZE p) = Some v ->
  exists v', array_get st'.1 (getIndex MAZE_SIZE p) = Some v' /\ v' <= v.
Proof.
  intros Hrtc. revert v.
  induction Hrtc as [st|st st1 st' [d H1] _ IH]; intros v Hwf Hp Hv.
  - exists v. split; [done|lia].
  - destruct (relax_step_get MAZE_SIZE stepTable HN maze knownOnly simple
                focus focus_step d _ _ _ _ H1 Hwf Hp Hv) as (v1 & Hv1 & Hle1).
    destruct (IH v1) as (v' & Hv' & Hle'); [by eapply relax_step_wf; eauto|done|done|].
    exists v'. split; [done|lia].
Qed.

Lemma relax_step_from d st st' :
  rtc (relax_step MAZE_SIZE stepTable maze knownOnly simple focus focus_step
         d) st st' ->
  rtc relax st st'.
Proof. induction 1; [apply rtc_refl|]. eapply rtc_l; [by exists d|done]. Qed.

Local Abbreviation first_ok :=
  (first_relaxed MAZE_SIZE stepTable maze knownOnly simple focus focus_step).

Lemma update_dirs_fold (ds : list Direction) st :
  (forall d, In d ds -> In d Along4) ->
  state_wf MAZE_SIZE st ->
  exists st',
    foldl (fun acc d =>
             st' ← acc;
             update_run MAZE_SIZE stepTable brk run_fuel maze knownOnly simple
               focus_step d focus 1 st')
          (Some st) ds = Some st'
    /\ rtc relax st st'
    /\ state_wf MAZE_SIZE st'
    /\ forall d, In d ds -> first_ok st' d.
Proof.
  revert st. induction ds as [|d ds IH]; intros st Hds Hwf.
  { exists st. split; [done|]. split; [apply rtc_refl|]. split; [done|].
    intros d []. }
  assert (Hd : In d Along4) by (apply Hds; by left).
  pose proof (room_range MAZE_SIZE HN focus d Hd Hfocus) as Hroom.
  destruct (update_run_spec MAZE_SIZE stepTable HN maze Hclosed knownOnly
              simple Htable brk focus focus_step d Hd run_fuel 0 st)
    as (st1 & Hst1 & Hrtc1 & Hwf1 & Hfirst1); try done.
  { intros j Hj. lia. }
  { simpl advance. unfold run_fuel. lia. }
  { simpl advance. lia. }
  destruct (IH st1) as (st' & Hst' & Hrtc' & Hwf' & Hfirst');
    [by intros; apply Hds; right|done|].
  exists st'. cbn [foldl mbind option_bind].
  change (update_run MAZE_SIZE stepTable brk run_fuel maze knownOnly simple
            focus_step d focus 1 st = Some st1) in Hst1.
  rewrite Hst1.
  split; [done|]. split.
  { etrans; [by eapply relax_step_from|done]. }
  split; [done|]. intros d' [<-|Hd']; [|by apply Hfirst'].
  intros Hpass. destruct (Hfirst1 Hpass) as (c & v & Hc & Hv & Hle).
  destruct (next_inside MAZE_SIZE HN focus d Hd Hfocus) as [Hin' _].
  { eapply passable_next_inside; eauto. }
  destruct (relax_from_get _ _ _ _ Hrtc' Hwf1 Hin' Hv) as (v' & Hv' & Hle').
  exists c, v'. repeat split; try done. lia.
Qed.

Lemma update_dirs_spec st :
  state_wf MAZE_SIZE st ->
  exists st',
    update_dirs MAZE_SIZE stepTable brk maze knownOnly simple focus focus_step
      st = Some st'
    /\ rtc relax st st'
    /\ state_wf MAZE_SIZE st'
    /\ forall d, In d Along4 -> first_ok st' d.
Proof.
  intros Hwf. exact (update_dirs_fold Along4 st (fun d H => H) Hwf).
Qed.

End Dirs.
(** ** One iteration of the main loop *)

Lemma sum_steps_insert (m : StepArray) (i : nat) (cur v : Z) :
  m !! i = Some cur -> sum_steps (<[i:=v]> m) = sum_steps m - cur + v.
Proof.
  revert i. induction m as [|a m IH]; intros i Hi; [done|].
  destruct i as [|i]; simpl in *.
  - simplify_eq. unfold sum_steps. simpl. lia.
  - unfold sum_steps in *. simpl. rewrite (IH i Hi). lia.
Qed.

Lemma sum_steps_range (m : StepArray) :
  Forall (fun v => 0 <= v <= STEP_MAX) m ->
  0 <= sum_steps m <= STEP_MAX * Z.of_nat (length m).
Proof.
  induction 1 as [|a m Ha _ IH]; unfold sum_steps in *; simpl; lia.
Qed.

Lemma potential_nonneg
    (MAZE_SIZE : Z) st : state_wf MAZE_SIZE st -> 0 <= potential st.
Proof.
  intros (_ & Hval & _). unfold potential.
  pose proof (sum_steps_range _ Hval). lia.
Qed.

Section Step.

Variable MAZE_SIZE : Z.
Variable stepTable : list Z.
Context {PQ : PriorityQueue}.
Hypothesis HN : 0 < MAZE_SIZE <= 127.
Variable maze : Maze.
Hypothesis Hclosed : maze_closed MAZE_SIZE maze.
Variables knownOnly simple : bool.
Hypothesis Htable : simple = false -> MAZE_SIZE <= Z.of_nat (length stepTable).
Variable brk : bool.
Variable b : Box.

Local Abbreviation step_of :=
  (update_step MAZE_SIZE stepTable brk maze knownOnly simple b).

Lemma pop_wf st e q :
  state_wf MAZE_SIZE st -> pq_pop st.2 = Some (e, q) ->
  state_wf MAZE_SIZE (st.1, q)
  /\ isInsideOfField MAZE_SIZE e.1 = true /\ 0 <= e.2 < STEP_MAX.
Proof.
  intros (Hlen & Hval & Hq) Hpop. apply pq_pop_perm in Hpop.
  rewrite Hpop in Hq. apply Forall_cons in Hq as [[He1 He2] Hq].
  unfold state_wf. cbn [fst snd]. repeat split; try done; lia.
Qed.

Lemma update_step_spec st :
  state_wf MAZE_SIZE st ->
  (st.2 = [] /\ step_of st = Some (inr st.1))
  \/ exists u s q st',
       pq_pop st.2 = Some ((u, s), q)
       /\ step_of st = Some (inl st')
       /\ state_wf MAZE_SIZE st'
       /\ isInsideOfField MAZE_SIZE u = true
       /\ ((st' = (st.1, q)
            /\ (outside_box b u = true
                \/ exists fs, array_get st.1 (getIndex MAZE_SIZE u) = Some fs
                              /\ fs < s))
           \/ (outside_box b u = false
               /\ exists fs,
                    array_get st.1 (getIndex MAZE_SIZE u) = Some fs
                    /\ s <= fs
                    /\ rtc (relax_from MAZE_SIZE stepTable maze knownOnly
                              simple u fs) (st.1, q) st'
                    /\ forall d, In d Along4 ->
                         first_relaxed MAZE_SIZE stepTable maze knownOnly
                           simple u fs st' d)).
Proof.
  intros Hwf. unfold update_step.
  destruct (pq_pop st.2) as [[[u s] q]|] eqn:Hpop.
  2:{ left. split; [|done]. destruct st.2 as [|e q]; [done|].
      destruct (pq_pop_cons e q) as [? ?]. congruence. }
  right. exists u, s, q.
  destruct (pop_wf _ _ _ Hwf Hpop) as (Hwf' & Hu & Hs). simpl in Hu, Hs.
  destruct (outside_box b u) eqn:Hbox.
  { exists (st.1, q). do 4 (split; [done|]). left. split; [done|by left]. }
  destruct (array_get_Some st.1 (getIndex MAZE_SIZE u)) as [fs Hfs].
  { destruct Hwf as (Hlen & _). pose proof (getIndex_range MAZE_SIZE HN _ Hu).
    lia. }
  rewrite Hfs. simpl.
  destruct (fs <? s) eqn:Hstale.
  { exists (st.1, q). do 4 (split; [done|]). left. split; [done|].
    right. exists fs. split; [done|lia]. }
  destruct (update_dirs_spec MAZE_SIZE stepTable HN maze Hclosed knownOnly
              simple Htable brk u fs Hu (st.1, q) Hwf')
    as (st' & Hst' & Hrtc & Hwf'' & Hfirst).
  rewrite Hst'. simpl. exists st'. do 4 (split; [done|]).
  right. split; [done|]. exists fs. do 2 (split; [done || lia|]). done.
Qed.

(** *** Termination *)



Lemma relax_from_potential u fs st st' :
  rtc (relax_from MAZE_SIZE stepTable maze knownOnly simple u fs) st st' ->
  potential st' <= potential st.
Proof.
  induction 1 as [|st st1 st' [d H1] _ IH]; [lia|].
  etrans; [exact IH|]. destruct H1 as [st k c cur _ _ Hin Hc Hcur Hlt].
  unfold potential, relax_cell, array_set, pq_push. cbn [fst snd].
  unfold array_get in Hcur. destruct (_ <? 0); [done|].
  rewrite (sum_steps_insert _ _ _ _ Hcur). simpl length. lia.
Qed.

Lemma update_step_progress st :
  state_wf MAZE_SIZE st ->
  exists r, step_of st = Some r
            /\ match r with
               | inl st' => state_wf MAZE_SIZE st'
                            /\ potential st' < potential st
               | inr m => m = st.1 /\ st.2 = []
               end.
Proof.
  intros Hwf.
  destruct (update_step_spec st Hwf)
    as [[Hq Hr]|(u & s & q & st' & Hpop & Hr & Hwf' & Hu & Hcase)].
  { exists (inr st.1). by repeat split. }
  exists (inl st'). split; [done|]. split; [done|].
  assert (Hpot : potential (st.1, q) = potential st - 1).
  { apply pq_pop_perm in Hpop. unfold potential. cbn [fst snd].
    rewrite Hpop. simpl length. lia. }
  destruct Hcase as [[-> _]|(_ & fs & _ & _ & Hrtc & _)]; [lia|].
  apply relax_from_potential in Hrtc. lia.
Qed.


Lemma loop_total (n : nat) st :
  state_wf MAZE_SIZE st ->
  exists r, loop_pow step_of n st = Some r
            /\ match r with
               | inl st' => state_wf MAZE_SIZE st'
                            /\ potential st' + 2 ^ Z.of_nat n <= potential st
               | inr _ => True
               end.
Proof.
  revert st. induction n as [|n IH]; intros st Hwf.
  - destruct (update_step_progress st Hwf) as (r & Hr & Hcase).
    exists r. split; [done|]. destruct r as [st'|m]; [|done].
    split; [tauto|]. simpl. lia.
  - destruct (IH st Hwf) as (r & Hr & Hcase). simpl. rewrite Hr.
    destruct r as [st1|m]; [|by exists (inr m)].
    destruct Hcase as [Hwf1 Hpot1].
    destruct (IH st1 Hwf1) as (r' & Hr' & Hcase'). exists r'. split; [done|].
    destruct r' as [st'|m]; [|done]. split; [tauto|].
    rewrite Nat2Z.inj_succ, Z.pow_succ_r by lia. lia.
Qed.

End Step.
(** ** The whole update *)

Section SeedWf.

Variable MAZE_SIZE : Z.

Lemma reset_wf : state_wf MAZE_SIZE (reset MAZE_SIZE, []).
Proof.
  unfold state_wf, reset. cbn [fst snd]. split; [|split].
  - by rewrite length_replicate.
  - apply Forall_replicate. unfold STEP_MAX. lia.
  - constructor.
Qed.

Lemma seed_step_wf st (p : Position) :
  state_wf MAZE_SIZE st ->
  isInsideOfField MAZE_SIZE p = true ->
  state_wf MAZE_SIZE (array_set st.1 (getIndex MAZE_SIZE p) 0,
                      pq_push (p, 0) st.2).
Proof.
  intros (Hlen & Hval & Hq) Hp. unfold state_wf, array_set, pq_push.
  cbn [fst snd]. split; [|split].
  - by rewrite length_insert.
  - apply Forall_insert; [done|]. unfold STEP_MAX. lia.
  - constructor; [|done]. simpl. unfold STEP_MAX. split; [done|lia].
Qed.

Lemma seed_wf (ds : Positions) st :
  state_wf MAZE_SIZE st -> state_wf MAZE_SIZE (seed MAZE_SIZE ds st).
Proof.
  revert st. induction ds as [|p ds IH]; intros st Hwf; [done|].
  unfold seed in *. cbn [foldl].
  destruct (isInsideOfField MAZE_SIZE p) eqn:Hp; apply IH; [|done].
  by apply seed_step_wf.
Qed.

Lemma seed_length (ds : Positions) st :
  (length (seed MAZE_SIZE ds st).2 <= length st.2 + length ds)%nat.
Proof.
  revert st. induction ds as [|p ds IH]; intros st; [simpl; lia|].
  unfold seed in *. cbn [foldl].
  destruct (isInsideOfField MAZE_SIZE p); etrans; try apply IH;
    unfold pq_push; simpl; lia.
Qed.

End SeedWf.

Section Update.

Variable MAZE_SIZE : Z.
Variable stepTable : list Z.
Context {PQ : PriorityQueue}.
Hypothesis HN : 0 < MAZE_SIZE <= 127.
Variable maze : Maze.
Hypothesis Hclosed : maze_closed MAZE_SIZE maze.
Variables knownOnly simple : bool.
Hypothesis Htable : simple = false -> MAZE_SIZE <= Z.of_nat (length stepTable).
Variable brk : bool.
Variable dest : Positions.





Lemma seed_potential :
  potential (seed MAZE_SIZE dest (reset MAZE_SIZE, []))
  < 2 ^ Z.of_nat (update_fuel MAZE_SIZE dest).
Proof.
  pose proof (seed_wf MAZE_SIZE dest _ (reset_wf MAZE_SIZE)) as (Hlen & Hval & _).
  pose proof (sum_steps_range _ Hval) as Hsum. rewrite Hlen in Hsum.
  pose proof (seed_length MAZE_SIZE dest (reset MAZE_SIZE, [])) as Hq. simpl in Hq.
  unfold potential, update_fuel.
  set (a := Z.of_nat (length dest) + MAZE_SIZE * MAZE_SIZE * 65536 + 2).
  assert (1 < a) by (unfold a; nia).
  pose proof (Z.log2_up_spec a ltac:(lia)) as [_ Ha].
  rewrite Z2Nat.id by apply Z.log2_up_nonneg.
  unfold STEP_MAX in Hsum. unfold a in *. nia.
Qed.

(** The update ends, and what holds at the seeds and is kept by every
    iteration holds of the field at the end. *)
Lemma update_gen_inv (Inv : StepArray * list Element -> Prop) :
  Inv (seed MAZE_SIZE dest (reset MAZE_SIZE, [])) ->
  (forall st st',
     state_wf MAZE_SIZE st -> Inv st ->
     update_step MAZE_SIZE stepTable brk maze knownOnly simple
       (bounding_box maze dest) st = Some (inl st') ->
     Inv st') ->
  exists m,
    update_gen MAZE_SIZE stepTable brk maze dest knownOnly simple = Some m
    /\ state_wf MAZE_SIZE (m, []) /\ Inv (m, []).
Proof.
  intros Hinit Hstep. unfold update_gen.
  set (b := bounding_box maze dest).
  set (st0 := seed MAZE_SIZE dest (reset MAZE_SIZE, [])).
  assert (Hwf0 : state_wf MAZE_SIZE st0) by apply seed_wf, reset_wf.
  destruct (loop_total MAZE_SIZE stepTable HN maze Hclosed knownOnly simple
              Htable brk b (update_fuel MAZE_SIZE dest) st0 Hwf0)
    as (r & Hr & Hcase).
  rewrite Hr. destruct r as [st'|m].
  { destruct Hcase as [Hwf' Hpot]. pose proof seed_potential.
    pose proof (potential_nonneg MAZE_SIZE _ Hwf'). fold st0 in H. lia. }
  exists m. split; [done|].
  assert (H1 : forall s s',
            state_wf MAZE_SIZE s /\ Inv s ->
            update_step MAZE_SIZE stepTable brk maze knownOnly simple b s
            = Some (inl s') ->
            state_wf MAZE_SIZE s' /\ Inv s').
  { intros st st' [Hwf Hi] Hs. split; [|by eapply Hstep].
    destruct (update_step_progress MAZE_SIZE stepTable HN maze Hclosed
                knownOnly simple Htable brk b st Hwf) as (r & Hr' & Hc).
    rewrite Hs in Hr'. simplify_eq. tauto. }
  assert (H2 : forall s r,
            state_wf MAZE_SIZE s /\ Inv s ->
            update_step MAZE_SIZE stepTable brk maze knownOnly simple b s
            = Some (inr r) ->
            state_wf MAZE_SIZE (r, []) /\ Inv (r, [])).
  { intros st r [Hwf Hi] Hs.
    destruct (update_step_progress MAZE_SIZE stepTable HN maze Hclosed
                knownOnly simple Htable brk b st Hwf) as (r' & Hr' & Hc).
    rewrite Hs in Hr'. simplify_eq. destruct Hc as [-> Hq].
    destruct st as [m' q']. simpl in *. by subst. }
  pose proof (loop_pow_inv _ _ _ H1 H2 (update_fuel MAZE_SIZE dest) st0
                (conj Hwf0 Hinit)) as Hloop.
  rewrite Hr in Hloop. exact Hloop.
Qed.

End Update.
(** ** The invariant is kept *)

Section Invariant.

Variable MAZE_SIZE : Z.
Variable stepTable : list Z.
Context {PQ : PriorityQueue}.
Hypothesis HN : 0 < MAZE_SIZE <= 127.
Variable maze : Maze.
Hypothesis Hclosed : maze_closed MAZE_SIZE maze.
Variables knownOnly simple : bool.
Hypothesis Htable : simple = false -> MAZE_SIZE <= Z.of_nat (length stepTable).
Variable brk : bool.
Variable b : Box.
Variable dest : Positions.
Variable c1 : Z.
Hypothesis Hc1 : run_cost stepTable simple 1 = Some c1.
Hypothesis Hc1pos : 0 <= c1.
Variable good : Position -> Z -> Prop.

Local Abbreviation inside p := (isInsideOfField MAZE_SIZE p = true).
Local Abbreviation get st p := (array_get (fst st) (getIndex MAZE_SIZE p)).
Local Abbreviation walk := (walk_to MAZE_SIZE maze knownOnly b dest).
Local Abbreviation qos :=
  (queued_or_settled MAZE_SIZE stepTable maze knownOnly simple b).

Lemma walk_inside p n : walk p n -> inside p.
Proof.
  induction 1 as [g Hg Hin|p d n _ IH _ Hd Hpass]; [done|].
  apply (next_inside MAZE_SIZE HN p d Hd IH).
  eapply passable_next_inside; eauto.
Qed.


(** Lower steps keep a cell settled. *)
Lemma settled_mono st st' p v :
  (forall q w, inside q -> get st q = Some w ->
               exists w', get st' q = Some w' /\ w' <= w) ->
  inside p ->
  settled MAZE_SIZE stepTable maze knownOnly simple st p v ->
  settled MAZE_SIZE stepTable maze knownOnly simple st' p v.
Proof.
  intros Hle Hp Hs d Hd Hpass. destruct (Hs d Hd Hpass) as (c & w & Hc & Hw & Hwle).
  destruct (next_inside MAZE_SIZE HN p d Hd Hp) as [Hin _].
  { eapply passable_next_inside; eauto. }
  destruct (Hle _ _ Hin Hw) as (w' & Hw' & Hle').
  exists c, w'. repeat split; try done. lia.
Qed.

(** Below the least step of the queue every cell that a walk reaches has at
    most the cost of the walk, move by move. *)
Lemma below_least st (M : Z) :
  state_wf MAZE_SIZE st ->
  qos None st -> dest_zero MAZE_SIZE dest st ->
  (forall e, In e st.2 -> M <= e.2) ->
  forall p n, walk p n ->
    c1 * Z.of_nat n < M -> c1 * Z.of_nat n < STEP_MAX ->
    exists v, get st p = Some v /\ v <= c1 * Z.of_nat n.
Proof.
  intros Hwf Hqos Hzero HM p n Hwalk.
  induction Hwalk as [g Hg Hin|p d n Hwalk IH Hbox Hd Hpass]; intros HltM Hlt.
  { exists 0. split; [by apply Hzero|lia]. }
  destruct IH as (v & Hv & Hle); [nia|nia|].
  pose proof (walk_inside _ _ Hwalk) as Hp.
  assert (Hv0 : 0 <= v).
  { destruct Hwf as (_ & Hval & _). unfold array_get in Hv.
    destruct (_ <? 0); [done|]. rewrite Forall_lookup in Hval.
    by apply Hval in Hv as [? _]. }
  destruct (Hqos p v) as [Hq|Hs]; try done; [nia| |].
  { apply HM in Hq. simpl in Hq. nia. }
  destruct (Hs d Hd Hpass) as (c & w & Hc & Hw & Hwle).
  rewrite Hc1 in Hc. simplify_eq. exists w. split; [done|].
  unfold wrap16 in Hwle. rewrite Z.mod_small in Hwle; [nia|].
  unfold STEP_MAX in *. nia.
Qed.


(** The steps that the runs write are good, when the step of the focus is
    good and at most the cost of every walk to the focus. *)
Hypothesis Hgood_step : forall u fs d (k : nat) c,
  inside u -> outside_box b u = false -> good u fs -> 0 <= fs < STEP_MAX ->
  (forall n, walk u n -> c1 * Z.of_nat n < STEP_MAX -> fs <= c1 * Z.of_nat n) ->
  In d Along4 ->
  (forall j, (j < S k)%nat ->
     passable maze knownOnly (advance u d j) d = true) ->
  inside (advance u d (S k)) ->
  run_cost stepTable simple (Z.of_nat (S k)) = Some c ->
  wrap16 (fs + c) < STEP_MAX ->
  good (advance u d (S k)) (wrap16 (fs + c)).

Local Abbreviation rinv :=
  (relax_inv MAZE_SIZE stepTable maze knownOnly simple b dest good).

Lemma relax_inv_step u fs d st st' :
  inside u -> outside_box b u = false -> good u fs -> 0 <= fs < STEP_MAX ->
  (forall n, walk u n -> c1 * Z.of_nat n < STEP_MAX -> fs <= c1 * Z.of_nat n) ->
  rinv u fs st ->
  relax_step MAZE_SIZE stepTable maze knownOnly simple u fs d st st' ->
  rinv u fs st'.
Proof.
  intros Hu Hbox Hgu Hfs Hbound (Hwf & Hqs & Hqos & Hzero & Hgood & Hj) Hstep.
  pose proof (relax_step_wf MAZE_SIZE stepTable HN maze knownOnly simple u fs
                d st st' Hstep Hwf) as Hwf'.
  assert (Hmono : forall q w, inside q -> get st q = Some w ->
            exists w', get st' q = Some w' /\ w' <= w).
  { intros q w Hq Hw. eapply relax_step_get; eauto. }
  destruct Hstep as [st k c cur Hd Hopen Hin Hc Hcur Hlt].
  set (cell := advance u d (S k)) in *.
  set (v := wrap16 (fs + c)) in *.
  assert (Hget : forall p, inside p ->
            get (relax_cell MAZE_SIZE cell v st) p
            = if decide (p = cell) then Some v else get st p).
  { intros p Hp. by apply relax_cell_get. }
  assert (Hcurmax : cur <= STEP_MAX).
  { destruct Hwf as (_ & Hval & _). unfold array_get in Hcur.
    destruct (_ <? 0); [done|]. rewrite Forall_lookup in Hval.
    by apply Hval in Hcur as [_ ?]. }
  split; [done|]. split; [|split; [|split; [|split]]].
  - (* the queue *)
    unfold queue_sound, relax_cell, pq_push. cbn [snd]. constructor.
    + exists v. cbn [fst snd]. split; [|lia].
      fold (relax_cell MAZE_SIZE cell v st).
      change (get (relax_cell MAZE_SIZE cell v st) cell = Some v).
      rewrite Hget by done. by rewrite decide_True.
    + destruct Hwf as (_ & _ & Hq). unfold queue_sound in Hqs.
      rewrite Forall_forall in Hqs, Hq. apply Forall_forall. intros e He.
      destruct (Hqs e He) as (w & Hw & Hle). destruct (Hq e He) as [Hine _].
      destruct (Hmono _ _ Hine Hw) as (w' & Hw' & Hle').
      exists w'. split; [exact Hw'|lia].
  - (* queued or settled *)
    intros p w Hskip Hp Hpbox Hw Hwmax. rewrite Hget in Hw by done.
    destruct (decide (p = cell)) as [->|Hne].
    + simplify_eq. left. unfold relax_cell, pq_push. cbn [snd]. by left.
    + destruct (Hqos p w Hskip Hp Hpbox Hw Hwmax) as [Hq|Hs].
      * left. unfold relax_cell, pq_push. cbn [snd]. by right.
      * right. eapply settled_mono; eauto.
  - (* destinations *)
    intros g Hg Hgin. destruct (Hmono _ _ Hgin (Hzero g Hg Hgin))
      as (w' & Hw' & Hle').
    assert (0 <= w'); [|by replace w' with 0 in Hw' by lia].
    destruct Hwf' as (_ & Hval & _). unfold array_get in Hw'.
    destruct (_ <? 0); [done|]. rewrite Forall_lookup in Hval.
    by apply Hval in Hw' as [? _].
  - (* good steps *)
    intros p w Hp Hw Hwmax. rewrite Hget in Hw by done.
    destruct (decide (p = cell)) as [->|Hne]; [|by eapply Hgood].
    simplify_eq. eapply Hgood_step; eauto.
  - (* the focus *)
    rewrite Hget by done. destruct (decide (u = cell)) as [E|Hne].
    + right. exists v. split; [done|]. unfold relax_cell, pq_push.
      cbn [snd]. left. by rewrite E.
    + destruct Hj as [Hj|(w & Hw & Hq)]; [by left|].
      right. exists w. split; [done|]. unfold relax_cell, pq_push.
      cbn [snd]. by right.
Qed.


Lemma relax_inv_steps u fs st st' :
  inside u -> outside_box b u = false -> good u fs -> 0 <= fs < STEP_MAX ->
  (forall n, walk u n -> c1 * Z.of_nat n < STEP_MAX -> fs <= c1 * Z.of_nat n) ->
  rtc (relax_from MAZE_SIZE stepTable maze knownOnly simple u fs) st st' ->
  rinv u fs st -> rinv u fs st'.
Proof.
  intros Hu Hbox Hgu Hfs Hbound Hrtc.
  induction Hrtc as [|st st1 st' [d H1] _ IH]; [done|]. intros Hinv.
  apply IH. eapply relax_inv_step; eauto.
Qed.

Local Abbreviation sinv :=
  (solver_inv MAZE_SIZE stepTable maze knownOnly simple b dest good).

Lemma get_range st p v :
  state_wf MAZE_SIZE st -> get st p = Some v -> 0 <= v <= STEP_MAX.
Proof.
  intros (_ & Hval & _) Hv. unfold array_get in Hv.
  destruct (_ <? 0); [done|]. rewrite Forall_lookup in Hval.
  by apply Hval in Hv.
Qed.

Lemma solver_inv_step st st' :
  state_wf MAZE_SIZE st -> sinv st ->
  update_step MAZE_SIZE stepTable brk maze knownOnly simple b st
  = Some (inl st') ->
  sinv st'.
Proof.
  intros Hwf (Hqs & Hqos & Hzero & Hgood) Hstep.
  destruct (update_step_spec MAZE_SIZE stepTable HN maze Hclosed knownOnly
              simple Htable brk b st Hwf)
    as [[_ Hr]|(u & s & q & st1 & Hpop & Hr & Hwf1 & Hu & Hcase)];
    [congruence|].
  rewrite Hr in Hstep. simplify_eq.
  pose proof (pq_pop_perm _ _ _ Hpop) as Hperm.
  pose proof (pq_pop_min _ _ _ Hpop) as Hmin. simpl in Hmin.
  assert (Hus : In (u, s) st.2).
  { apply list_elem_of_In. rewrite Hperm. by left. }
  assert (Hsub : forall e, In e q -> In e st.2).
  { intros e He. apply list_elem_of_In. rewrite Hperm. right.
    by apply list_elem_of_In. }
  assert (Hcases : forall e, In e st.2 -> e = (u, s) \/ In e q).
  { intros e He. apply list_elem_of_In in He. rewrite Hperm in He.
    apply elem_of_cons in He as [->|He]; [by left|right].
    by apply list_elem_of_In. }
  assert (Hqs' : queue_sound MAZE_SIZE (st.1, q)).
  { unfold queue_sound in *. cbn [fst snd]. rewrite Hperm in Hqs.
    by apply Forall_cons in Hqs as [_ ?]. }
  destruct (pop_wf MAZE_SIZE stepTable _ _ _ Hwf Hpop) as (Hwfq & _ & Hsr).
  simpl in Hsr.
  destruct Hcase as [[-> Hskip]|(Hbox & fs & Hfs & Hle & Hrtc & Hfirst)].
  - (* the element is dropped *)
    split; [done|]. split; [|by split].
    intros p v _ Hp Hpbox Hv Hvmax. cbn [fst] in Hv.
    destruct (Hqos p v ltac:(done) Hp Hpbox Hv Hvmax) as [Hq|Hs]; [|by right].
    destruct (Hcases _ Hq) as [E|Hq']; [|by left]. simplify_eq.
    destruct Hskip as [Hout|(fs & Hfs & Hlt)]; [congruence|].
    rewrite Hv in Hfs. simplify_eq. lia.
  - (* the element is the focus of four runs *)
    assert (fs = s) as ->.
    { unfold queue_sound in Hqs. rewrite Forall_forall in Hqs.
      destruct (Hqs (u, s)) as (w & Hw & Hws); [by apply list_elem_of_In|].
      simpl in Hw, Hws. rewrite Hfs in Hw. simplify_eq. lia. }
    assert (Hbound : forall n, walk u n -> c1 * Z.of_nat n < STEP_MAX ->
                               s <= c1 * Z.of_nat n).
    { intros n Hw Hn. destruct (Z_lt_le_dec (c1 * Z.of_nat n) s) as [Hlt|]; [|done].
      destruct (below_least st s Hwf Hqos Hzero) with (p := u) (n := n)
        as (w & Hw' & Hwle); try done.
      - intros e He. rewrite Forall_forall in Hmin.
        by apply Hmin, list_elem_of_In.
      - rewrite Hfs in Hw'. simplify_eq. lia. }
    assert (Hinv : rinv u s (st.1, q)).
    { split; [done|]. split; [done|]. split; [|split; [done|split; [done|by left]]].
      intros p v Hne Hp Hpbox Hv Hvmax. cbn [fst] in Hv.
      destruct (Hqos p v ltac:(done) Hp Hpbox Hv Hvmax) as [Hq|Hs]; [|by right].
      destruct (Hcases _ Hq) as [E|Hq']; [|by left]. simplify_eq. }
    apply relax_inv_steps with (st' := st') in Hinv; try done;
      [|by eapply Hgood; eauto; lia].
    destruct Hinv as (_ & Hqs1 & Hqos1 & Hzero1 & Hgood1 & Hj).
    split; [done|]. split; [|by split].
    intros p v _ Hp Hpbox Hv Hvmax.
    destruct (decide (p = u)) as [->|Hne].
    + destruct Hj as [Hj|(w & Hw & Hq)].
      * rewrite Hv in Hj. simplify_eq. right. exact Hfirst.
      * rewrite Hv in Hw. simplify_eq. by left.
    + apply Hqos1; try done. congruence.
Qed.

(** At the end of the loop the queue is empty: every cell that a walk
    reaches has at most the cost of the walk, move by move. *)
Lemma solver_inv_final m p n :
  state_wf MAZE_SIZE (m, []) -> sinv (m, []) -> walk p n ->
  c1 * Z.of_nat n < STEP_MAX ->
  exists v, array_get m (getIndex MAZE_SIZE p) = Some v
            /\ v <= c1 * Z.of_nat n.
Proof.
  intros Hwf (_ & Hqos & Hzero & _) Hwalk Hn.
  destruct (below_least (m, []) STEP_MAX Hwf Hqos Hzero) with (p := p) (n := n)
    as (v & Hv & Hle); try done.
  by exists v.
Qed.

End Invariant.
(** ** The seeds and the field at the end *)

Section Seeds.

Variable MAZE_SIZE : Z.
Hypothesis HN : 0 < MAZE_SIZE <= 127.

Local Abbreviation inside p := (isInsideOfField MAZE_SIZE p = true).
Local Abbreviation get st p := (array_get (fst st) (getIndex MAZE_SIZE p)).

Lemma reset_get (p : Position) :
  inside p -> get (reset MAZE_SIZE, @nil Element) p = Some STEP_MAX.
Proof.
  intros Hp. pose proof (getIndex_range MAZE_SIZE HN p Hp).
  cbn [fst]. unfold array_get, reset. destruct (_ <? 0) eqn:E; [lia|].
  apply lookup_replicate. split; [done|lia].
Qed.

Lemma seed_spec (dest : Positions) :
  let st0 := seed MAZE_SIZE dest (reset MAZE_SIZE, []) in
  (forall g, In g dest -> inside g -> get st0 g = Some 0)
  /\ (forall p, inside p ->
        get st0 p = Some STEP_MAX
        \/ (get st0 p = Some 0 /\ In p dest /\ In (p, 0) st0.2))
  /\ (forall e, In e st0.2 -> get st0 e.1 = Some 0 /\ e.2 = 0).
Proof.
  induction dest as [|g ds IH] using rev_ind.
  { simpl. split; [done|]. split; [|done]. intros p Hp. left.
    by apply reset_get. }
  cbn zeta in *. unfold seed in *. rewrite foldl_app. cbn [foldl].
  set (st := foldl _ _ ds) in *.
  assert (Hwf : state_wf MAZE_SIZE st).
  { exact (seed_wf MAZE_SIZE ds _ (reset_wf MAZE_SIZE)). }
  destruct IH as (IH1 & IH2 & IH3).
  destruct (isInsideOfField MAZE_SIZE g) eqn:Hg.
  2:{ split; [|split; [|done]].
      - intros p Hp Hin. apply in_app_or in Hp as [Hp|[<-|[]]]; [eauto|congruence].
      - intros p Hp. destruct (IH2 p Hp) as [?|(? & ? & ?)]; [by left|right].
        repeat split; try done. apply in_or_app. by left. }
  assert (Hget : forall p, inside p ->
            get (array_set st.1 (getIndex MAZE_SIZE g) 0,
                 pq_push (g, 0) st.2) p
            = if decide (p = g) then Some 0 else get st p).
  { intros p Hp. exact (relax_cell_get MAZE_SIZE HN g p 0 st Hwf Hg Hp). }
  split; [|split].
  - intros p Hp Hin. rewrite Hget by done. destruct (decide (p = g)); [done|].
    apply in_app_or in Hp as [Hp|[<-|[]]]; [eauto|done].
  - intros p Hp. rewrite Hget by done. destruct (decide (p = g)) as [->|Hne].
    + right. repeat split; [apply in_or_app; right; by left|by left].
    + destruct (IH2 p Hp) as [?|(? & ? & ?)]; [by left|right].
      repeat split; [done|apply in_or_app; by left|by right].
  - intros e [<-|He]; cbn [fst snd].
    + split; [|done]. change (get (array_set st.1 (getIndex MAZE_SIZE g) 0,
                 pq_push (g, 0) st.2) g = Some 0).
      rewrite Hget by done. by rewrite decide_True.
    + destruct (IH3 e He) as [He1 He2]. split; [|done].
      destruct Hwf as (_ & _ & Hq). rewrite Forall_forall in Hq.
      destruct (Hq e) as [Hine _]; [by apply list_elem_of_In|].
      change (get (array_set st.1 (getIndex MAZE_SIZE g) 0,
                 pq_push (g, 0) st.2) e.1 = Some 0).
      rewrite Hget by done. by destruct (decide (e.1 = g)).
Qed.

End Seeds.

Section Solve.

Variable MAZE_SIZE : Z.
Variable stepTable : list Z.
Context {PQ : PriorityQueue}.
Hypothesis HN : 0 < MAZE_SIZE <= 127.
Variable maze : Maze.
Hypothesis Hclosed : maze_closed MAZE_SIZE maze.
Variables knownOnly simple : bool.
Hypothesis Htable : simple = false -> MAZE_SIZE <= Z.of_nat (length stepTable).
Variable brk : bool.
Variable dest : Positions.
Variable c1 : Z.
Hypothesis Hc1 : run_cost stepTable simple 1 = Some c1.
Hypothesis Hc1pos : 0 <= c1.
Variable good : Position -> Z -> Prop.

Local Abbreviation inside p := (isInsideOfField MAZE_SIZE p = true).
Local Abbreviation b := (bounding_box maze dest).
Local Abbreviation walk := (walk_to MAZE_SIZE maze knownOnly b dest).

Hypothesis Hgood_dest : forall g, In g dest -> inside g -> good g 0.
Hypothesis Hgood_step : forall u fs d (k : nat) c,
  inside u -> outside_box b u = false -> good u fs -> 0 <= fs < STEP_MAX ->
  (forall n, walk u n -> c1 * Z.of_nat n < STEP_MAX -> fs <= c1 * Z.of_nat n) ->
  In d Along4 ->
  (forall j, (j < S k)%nat ->
     passable maze knownOnly (advance u d j) d = true) ->
  inside (advance u d (S k)) ->
  run_cost stepTable simple (Z.of_nat (S k)) = Some c ->
  wrap16 (fs + c) < STEP_MAX ->
  good (advance u d (S k)) (wrap16 (fs + c)).

Lemma seed_solver_inv :
  solver_inv MAZE_SIZE stepTable maze knownOnly simple b dest good
    (seed MAZE_SIZE dest (reset MAZE_SIZE, [])).
Proof.
  destruct (seed_spec MAZE_SIZE HN dest) as (H1 & H2 & H3).
  set (st0 := seed MAZE_SIZE dest (reset MAZE_SIZE, [])) in *.
  split; [|split; [|split]].
  - apply Forall_forall. intros e He. apply list_elem_of_In in He.
    destruct (H3 e He) as [Hg Hz]. exists 0. split; [done|lia].
  - intros p v _ Hp _ Hv Hvmax. left.
    destruct (H2 p Hp) as [E|(E & Hd & Hq)]; rewrite Hv in E; simplify_eq.
    + lia.
    + done.
  - intros g Hg Hin. by apply H1.
  - intros p v Hp Hv Hvmax.
    destruct (H2 p Hp) as [E|(E & Hd & Hq)]; rewrite Hv in E; simplify_eq.
    + lia.
    + by apply Hgood_dest.
Qed.

(** The update ends with a field that satisfies the invariant, and whatever
    else holds at the seeds and is kept by the iterations, and an empty
    queue. *)
Lemma update_solver_inv_with (extra : StepArray * list Element -> Prop) :
  extra (seed MAZE_SIZE dest (reset MAZE_SIZE, [])) ->
  (forall st st',
     state_wf MAZE_SIZE st ->
     solver_inv MAZE_SIZE stepTable maze knownOnly simple b dest good st ->
     extra st ->
     update_step MAZE_SIZE stepTable brk maze knownOnly simple b st
     = Some (inl st') ->
     extra st') ->
  exists m,
    update_gen MAZE_SIZE stepTable brk maze dest knownOnly simple = Some m
    /\ state_wf MAZE_SIZE (m, [])
    /\ solver_inv MAZE_SIZE stepTable maze knownOnly simple b dest good
         (m, [])
    /\ extra (m, []).
Proof.
  intros Hex0 Hex.
  destruct (update_gen_inv MAZE_SIZE stepTable HN maze Hclosed knownOnly
              simple Htable brk dest
              (fun st => solver_inv MAZE_SIZE stepTable maze knownOnly simple
                           b dest good st /\ extra st))
    as (m & Hm & Hwf & Hinv & Hextra).
  - split; [apply seed_solver_inv|exact Hex0].
  - intros st st' Hwf [Hinv He] Hstep. split; [|by eapply Hex].
    eapply (solver_inv_step MAZE_SIZE stepTable HN maze Hclosed knownOnly
              simple Htable brk b dest c1 Hc1 Hc1pos good Hgood_step); eauto.
  - by exists m.
Qed.

Lemma update_solver_inv :
  exists m,
    update_gen MAZE_SIZE stepTable brk maze dest knownOnly simple = Some m
    /\ state_wf MAZE_SIZE (m, [])
    /\ solver_inv MAZE_SIZE stepTable maze knownOnly simple b dest good
         (m, []).
Proof.
  destruct (update_solver_inv_with (fun _ => True)) as (m & ? & ? & ? & _);
    [done|done|].
  by exists m.
Qed.

End Solve.
Example run_lengths_ex : run_lengths [0; 0; 2; 2; 2; 4; 0] = [2; 3; 1; 1].
Proof. reflexivity. Qed.

Lemma run_lengths_sum (dirs : Directions) :
  foldr Z.add 0 (run_lengths dirs) = Z.of_nat (length dirs).
Proof.
  induction dirs as [|d ds IH]; [done|].
  cbn [run_lengths]. destruct ds as [|d' ds']; [done|].
  cbn [head]. destruct (run_lengths (d' :: ds')) as [|r rs] eqn:E.
  - simpl in *. lia.
  - destruct (d =? d'); simpl in *; lia.
Qed.

Lemma path_cost_simple (stepTable : list Z) (dirs : Directions) :
  path_cost stepTable true dirs = Some (Z.of_nat (length dirs)).
Proof.
  unfold path_cost.
  assert (H : mapM (run_cost stepTable true) (run_lengths dirs)
              = Some (run_lengths dirs)).
  { apply mapM_Some. induction (run_lengths dirs); by constructor. }
  rewrite H. simpl. by rewrite run_lengths_sum.
Qed.

Lemma path_end_app p ds1 ds2 :
  path_end p (ds1 ++ ds2) = path_end (path_end p ds1) ds2.
Proof. unfold path_end. by rewrite foldl_app. Qed.

Lemma path_open_app maze knownOnly p ds1 ds2 :
  path_open maze knownOnly p (ds1 ++ ds2)
  <-> path_open maze knownOnly p ds1
      /\ path_open maze knownOnly (path_end p ds1) ds2.
Proof.
  revert p. induction ds1 as [|d ds1 IH]; intros p; simpl; [tauto|].
  rewrite IH. unfold path_end. simpl. tauto.
Qed.
(** ** Short walks *)

Lemma dup_split {A : Type} `{EqDecision A} (l : list A) :
  ~ NoDup l -> exists x l1 l2 l3, l = l1 ++ x :: l2 ++ x :: l3.
Proof.
  induction l as [|a l IH]; intros Hnd.
  { destruct Hnd. constructor. }
  destruct (decide (a ∈ l)) as [Hin|Hnin].
  - apply list_elem_of_split in Hin as (l2 & l3 & ->).
    by exists a, [], l2, l3.
  - destruct IH as (x & l1 & l2 & l3 & ->).
    { intros Hl. apply Hnd. by constructor. }
    by exists x, (a :: l1), l2, l3.
Qed.

Section ShortWalk.

Variable MAZE_SIZE : Z.
Hypothesis HN : 0 < MAZE_SIZE <= 127.
Variable maze : Maze.
Hypothesis Hclosed : maze_closed MAZE_SIZE maze.
Variable knownOnly : bool.
Variable b : Box.
Variable dest : Positions.

Local Abbreviation inside p := (isInsideOfField MAZE_SIZE p = true).
Local Abbreviation walk := (walk_to MAZE_SIZE maze knownOnly b dest).
Local Abbreviation wpath := (walk_path MAZE_SIZE maze knownOnly b dest).

Lemma walk_path_to l p : wpath l p -> walk p (length l).
Proof. induction 1; simpl; by econstructor. Qed.

Lemma walk_to_path p n : walk p n -> exists l, wpath l p /\ length l = n.
Proof.
  induction 1 as [g Hg Hin|p d n _ (l & Hl & <-) Hbox Hd Hpass].
  - exists []. split; [by constructor|done].
  - exists (p :: l). split; [by constructor|done].
Qed.

Lemma walk_path_inside l p :
  wpath l p -> inside p /\ Forall (fun q => inside q) l.
Proof.
  induction 1 as [g Hg Hin|l p d _ [IHp IHl] Hbox Hd Hpass]; [by split|].
  split; [|by constructor].
  apply (next_inside MAZE_SIZE HN p d Hd IHp).
  unfold passable in Hpass.
  destruct (Z_lt_le_dec 0 (room MAZE_SIZE p d)); [done|].
  pose proof (next_outside MAZE_SIZE HN p d Hd IHp ltac:(lia)) as Hout.
  by rewrite (Hclosed p d Hd IHp Hout) in Hpass.
Qed.

Lemma walk_path_suffix l1 x l2 p : wpath (l1 ++ x :: l2) p -> wpath l2 x.
Proof.
  revert p. induction l1 as [|a l1 IH]; intros p H; inversion H; subst; eauto.
Qed.

Lemma walk_path_splice l1 x l2 l2' p :
  wpath (l1 ++ x :: l2) p -> wpath l2' x -> wpath (l1 ++ x :: l2') p.
Proof.
  revert p. induction l1 as [|a l1 IH]; intros p H H';
    inversion H; subst; simpl; constructor; eauto.
Qed.

Lemma walk_path_nodup l p :
  wpath l p -> exists l', wpath l' p /\ NoDup (p :: l').
Proof.
  remember (length l) as n eqn:Hn. revert l p Hn.
  induction n as [n IH] using lt_wf_ind. intros l p -> Hw.
  destruct (decide (p ∈ l)) as [Hin|Hnin].
  { apply list_elem_of_split in Hin as (l1 & l2 & ->).
    apply (IH (length l2)) with (l := l2); [|done|by eapply walk_path_suffix].
    rewrite length_app. simpl. lia. }
  destruct (decide (NoDup l)) as [Hnd|Hnd].
  { exists l. split; [done|by constructor]. }
  apply dup_split in Hnd as (x & l1 & l2 & l3 & ->).
  assert (Hx : wpath l3 x).
  { apply walk_path_suffix in Hw. by apply walk_path_suffix in Hw. }
  apply (IH (length (l1 ++ x :: l3))) with (l := l1 ++ x :: l3);
    [|done|by eapply walk_path_splice].
  rewrite !length_app. simpl. rewrite length_app. simpl. lia.
Qed.

Lemma nodup_cells_length (l : list Position) :
  NoDup l -> Forall (fun q => inside q) l ->
  Z.of_nat (length l) <= MAZE_SIZE * MAZE_SIZE.
Proof.
  intros Hnd Hin.
  assert (H1 : NoDup ((fun q => Z.to_nat (getIndex MAZE_SIZE q)) <$> l)).
  { apply NoDup_fmap_2_strong; [|done]. intros x y Hx Hy E.
    rewrite Forall_forall in Hin.
    pose proof (getIndex_range MAZE_SIZE HN x (Hin x Hx)).
    pose proof (getIndex_range MAZE_SIZE HN y (Hin y Hy)).
    apply (getIndex_inj MAZE_SIZE HN); auto. lia. }
  assert (H2 : ((fun q => Z.to_nat (getIndex MAZE_SIZE q)) <$> l)
               ⊆ seq 0 (Z.to_nat (MAZE_SIZE * MAZE_SIZE))).
  { intros i Hi. apply list_elem_of_fmap in Hi as (q & -> & Hq).
    rewrite Forall_forall in Hin.
    pose proof (getIndex_range MAZE_SIZE HN q (Hin q Hq)).
    apply elem_of_seq. lia. }
  pose proof (submseteq_length _ _ (NoDup_submseteq _ _ H1 H2)) as Hlen.
  rewrite length_fmap, length_seq in Hlen. lia.
Qed.

(** A cell that a walk reaches is reached by a walk of less than
    [MAZE_SIZE * MAZE_SIZE] moves. *)
Lemma walk_short p n :
  walk p n ->
  exists n', walk p n' /\ Z.of_nat n' < MAZE_SIZE * MAZE_SIZE.
Proof.
  intros Hw. apply walk_to_path in Hw as (l & Hl & _).
  apply walk_path_nodup in Hl as (l' & Hl' & Hnd).
  exists (length l'). split; [by apply walk_path_to|].
  destruct (walk_path_inside _ _ Hl') as [Hp Hin].
  pose proof (nodup_cells_length (p :: l') Hnd ltac:(by constructor)) as H.
  simpl length in H. lia.
Qed.

End ShortWalk.
(** ** The field of unit costs is the field of least costs *)

Section Simple.

Variable MAZE_SIZE : Z.
Variable stepTable : list Z.
Context {PQ : PriorityQueue}.
Hypothesis HN : 0 < MAZE_SIZE <= 127.
Variable maze : Maze.
Hypothesis Hclosed : maze_closed MAZE_SIZE maze.
Variable knownOnly : bool.
Variable brk : bool.
Variable dest : Positions.
Hypothesis Hcov : box_covers MAZE_SIZE (bounding_box maze dest).

Local Abbreviation inside p := (isInsideOfField MAZE_SIZE p = true).
Local Abbreviation b := (bounding_box maze dest).
Local Abbreviation walk := (walk_to MAZE_SIZE maze knownOnly b dest).

Lemma advance_room u d (k : nat) :
  In d Along4 -> inside u ->
  (forall j, (j < k)%nat -> passable maze knownOnly (advance u d j) d = true) ->
  inside (advance u d k)
  /\ room MAZE_SIZE (advance u d k) d = room MAZE_SIZE u d - Z.of_nat k.
Proof.
  intros Hd Hu. induction k as [|k IH]; intros Hopen.
  { split; [done|simpl; lia]. }
  destruct IH as [Hin Hr]; [intros j Hj; apply Hopen; lia|].
  assert (Hpass : passable maze knownOnly (advance u d k) d = true)
    by (apply Hopen; lia).
  assert (Hpos : 0 < room MAZE_SIZE (advance u d k) d)
    by (eapply passable_next_inside; eauto).
  destruct (next_inside MAZE_SIZE HN _ d Hd Hin Hpos) as [Hin' Hr'].
  simpl advance. split; [done|]. lia.
Qed.

Lemma walk_advance u d n (k : nat) :
  In d Along4 -> walk u n ->
  (forall j, (j < k)%nat -> passable maze knownOnly (advance u d j) d = true) ->
  walk (advance u d k) (n + k).
Proof.
  intros Hd Hw. induction k as [|k IH]; intros Hopen.
  { by rewrite Nat.add_0_r. }
  rewrite Nat.add_succ_r. simpl advance.
  assert (Hu : inside u) by (eapply walk_inside; eauto).
  destruct (advance_room u d k Hd Hu) as [Hin _];
    [intros j Hj; apply Hopen; lia|].
  constructor; [apply IH; intros j Hj; apply Hopen; lia|by apply Hcov|done|].
  apply Hopen. lia.
Qed.

Lemma walk_of_path g dirs :
  In g dest -> inside g -> path_open maze knownOnly g dirs ->
  walk (path_end g dirs) (length dirs).
Proof.
  intros Hg Hin. induction dirs as [|d ds IH] using rev_ind; intros Hopen.
  { by constructor. }
  apply path_open_app in Hopen as [Hopen1 (Hd & Hpass & _)].
  rewrite path_end_app, length_app, Nat.add_1_r. simpl.
  specialize (IH Hopen1).
  constructor; try done. apply Hcov.
  eapply walk_inside; eauto.
Qed.

Lemma path_of_walk p n :
  walk p n ->
  exists g dirs,
    In g dest /\ inside g /\ path_open maze knownOnly g dirs
    /\ path_end g dirs = p /\ length dirs = n.
Proof.
  induction 1 as [g Hg Hin|p d n _ (g & dirs & Hg & Hin & Hopen & <- & <-)
                              Hbox Hd Hpass].
  - by exists g, [].
  - exists g, (dirs ++ [d]). repeat split; try done.
    + apply path_open_app. by repeat split.
    + by rewrite path_end_app.
    + rewrite length_app. simpl. lia.
Qed.

(** A step is good for a cell when it is the number of moves of a walk to
    the cell. *)
Local Abbreviation good :=
  (fun (p : Position) (v : Z) => exists n, walk p n /\ v = Z.of_nat n).

Lemma simple_good_step u fs d (k : nat) c :
  inside u -> outside_box b u = false -> good u fs -> 0 <= fs < STEP_MAX ->
  (forall n, walk u n -> 1 * Z.of_nat n < STEP_MAX -> fs <= 1 * Z.of_nat n) ->
  In d Along4 ->
  (forall j, (j < S k)%nat ->
     passable maze knownOnly (advance u d j) d = true) ->
  inside (advance u d (S k)) ->
  run_cost stepTable true (Z.of_nat (S k)) = Some c ->
  wrap16 (fs + c) < STEP_MAX ->
  good (advance u d (S k)) (wrap16 (fs + c)).
Proof.
  intros Hu Hbox (n & Hw & ->) Hfs Hbound Hd Hopen Hin Hc _.
  simpl in Hc. simplify_eq.
  destruct (walk_short MAZE_SIZE HN maze Hclosed knownOnly b dest _ _ Hw)
    as (n' & Hw' & Hn').
  assert (Z.of_nat n <= 1 * Z.of_nat n').
  { apply Hbound; [done|]. unfold STEP_MAX. nia. }
  destruct (advance_room u d (S k) Hd Hu Hopen) as [_ Hr].
  pose proof (room_range MAZE_SIZE HN _ d Hd Hin).
  pose proof (room_range MAZE_SIZE HN _ d Hd Hu).
  exists (n + S k)%nat. split; [by apply walk_advance|].
  unfold wrap16. rewrite Z.mod_small; [lia|]. nia.
Qed.

Lemma update_simple_inv :
  exists m,
    update_gen MAZE_SIZE stepTable brk maze dest knownOnly true = Some m
    /\ state_wf MAZE_SIZE (m, [])
    /\ solver_inv MAZE_SIZE stepTable maze knownOnly true b dest good (m, []).
Proof.
  apply (update_solver_inv MAZE_SIZE stepTable HN maze Hclosed knownOnly true
           ltac:(done) brk dest 1 eq_refl ltac:(lia) good).
  - intros g Hg Hin. exists 0%nat. split; [by constructor|done].
  - apply simple_good_step.
Qed.

(** The field at the end of the update with unit costs. *)
Lemma update_simple_field :
  exists m,
    update_gen MAZE_SIZE stepTable brk maze dest knownOnly true = Some m
    /\ length m = Z.to_nat (MAZE_SIZE * MAZE_SIZE)
    /\ forall p, inside p ->
         (forall g dirs,
            In g dest -> inside g -> path_open maze knownOnly g dirs ->
            path_end g dirs = p ->
            getStep MAZE_SIZE m p < STEP_MAX
            /\ exists c, path_cost stepTable true dirs = Some c
                         /\ getStep MAZE_SIZE m p <= c)
         /\ (getStep MAZE_SIZE m p <> STEP_MAX ->
             exists g dirs,
               In g dest /\ inside g /\ path_open maze knownOnly g dirs
               /\ path_end g dirs = p
               /\ path_cost stepTable true dirs
                  = Some (getStep MAZE_SIZE m p))
         /\ (~ reachable MAZE_SIZE maze knownOnly dest p ->
             getStep MAZE_SIZE m p = STEP_MAX).
Proof.
  destruct update_simple_inv as (m & Hm & Hwf & Hinv).
  exists m. split; [done|]. split; [by destruct Hwf|].
  intros p Hp.
  assert (Hgetp : exists v, array_get m (getIndex MAZE_SIZE p) = Some v
                            /\ getStep MAZE_SIZE m p = v /\ 0 <= v <= STEP_MAX).
  { destruct (array_get_Some m (getIndex MAZE_SIZE p)) as [v Hv].
    - destruct Hwf as (Hlen & _). simpl in Hlen.
      pose proof (getIndex_range MAZE_SIZE HN p Hp). lia.
    - exists v. split; [done|]. unfold getStep. rewrite Hp, Hv.
      split; [done|]. destruct Hwf as (_ & Hval & _). unfold array_get in Hv.
      destruct (_ <? 0); [done|]. rewrite Forall_lookup in Hval.
      by apply Hval in Hv. }
  destruct Hgetp as (v & Hv & -> & Hvr).
  assert (Hsome : v <> STEP_MAX ->
            exists g dirs,
              In g dest /\ inside g /\ path_open maze knownOnly g dirs
              /\ path_end g dirs = p
              /\ path_cost stepTable true dirs = Some v).
  { intros Hne. destruct Hinv as (_ & _ & _ & Hgood).
    destruct (Hgood p v Hp Hv ltac:(lia)) as (n & Hw & ->).
    destruct (path_of_walk _ _ Hw) as (g & dirs & ? & ? & ? & ? & <-).
    exists g, dirs. repeat split; try done. apply path_cost_simple. }
  split; [|split; [done|]].
  - intros g dirs Hg Hin Hopen Hend. rewrite path_cost_simple.
    pose proof (walk_of_path g dirs Hg Hin Hopen) as Hw. rewrite Hend in Hw.
    destruct (walk_short MAZE_SIZE HN maze Hclosed knownOnly b dest _ _ Hw)
      as (n' & Hw' & Hn').
    destruct (solver_inv_final MAZE_SIZE stepTable HN maze Hclosed knownOnly
                true b dest 1 eq_refl ltac:(lia) good m p n' Hwf Hinv Hw')
      as (v' & Hv' & Hle'); [unfold STEP_MAX; nia|].
    rewrite Hv in Hv'. simplify_eq.
    split; [unfold STEP_MAX; nia|]. eexists. split; [done|].
    destruct (Z_lt_le_dec (Z.of_nat (length dirs)) STEP_MAX) as [Hlt|]; [|lia].
    destruct (solver_inv_final MAZE_SIZE stepTable HN maze Hclosed knownOnly
                true b dest 1 eq_refl ltac:(lia) good m _ _ Hwf Hinv Hw)
      as (v'' & Hv'' & Hle''); [lia|].
    rewrite Hv in Hv''. simplify_eq. lia.
  - intros Hnr. destruct (decide (v = STEP_MAX)) as [|Hne]; [done|].
    destruct (Hsome Hne) as (g & dirs & ? & ? & ? & ? & _).
    destruct Hnr. by exists g, dirs.
Qed.

End Simple.
(** ** The claims about the field *)

Lemma open_maze_closed (n : Z) (known : bool) (lo hi : Z) :
  maze_closed n (open_maze n known lo hi).
Proof.
  intros p d Hd Hp Hout. simpl. rewrite Hout. simpl. apply orb_true_r.
Qed.

(** C1, as amended: when the bounding box holds every cell of the field,
    the update with unit costs ends with the least cost of a path from a
    destination at every cell that such a path reaches, and with the
    sentinel at every other cell. *)
Theorem update_field_least (MAZE_SIZE : Z) (stepTable : list Z)
    (PQ : PriorityQueue) (maze : Maze) (dest : Positions) (knownOnly : bool) :
  0 < MAZE_SIZE <= 127 ->
  maze_closed MAZE_SIZE maze ->
  box_covers MAZE_SIZE (bounding_box maze dest) ->
  exists m,
    update MAZE_SIZE stepTable maze dest knownOnly true = Some m
    /\ length m = Z.to_nat (MAZE_SIZE * MAZE_SIZE)
    /\ field_least MAZE_SIZE stepTable maze knownOnly true dest m.
Proof.
  intros HN Hclosed Hcov.
  destruct (update_simple_field MAZE_SIZE stepTable HN maze Hclosed knownOnly
              true dest Hcov) as (m & Hm & Hlen & Hfield).
  exists m. split; [done|]. split; [done|]. intros p Hp.
  destruct (Hfield p Hp) as (H1 & H2 & H3). split; [|done].
  intros (g & dirs & Hg & Hin & Hopen & Hend).
  destruct (H1 g dirs Hg Hin Hopen Hend) as (Hfin & _). split; [done|].
  split.
  - apply H2. lia.
  - intros g' dirs' c Hg' Hin' Hopen' Hend' Hc.
    destruct (H1 g' dirs' Hg' Hin' Hopen' Hend') as (_ & c' & Hc' & Hle).
    rewrite Hc in Hc'. simplify_eq. done.
Qed.
Lemma box_covers_intro (MAZE_SIZE : Z) (b : Box) :
  min_x b <= 0 -> min_y b <= 0 ->
  MAZE_SIZE - 1 <= max_x b -> MAZE_SIZE - 1 <= max_y b ->
  box_covers MAZE_SIZE b.
Proof.
  intros H1 H2 H3 H4 p Hp. unfold isInsideOfField in Hp.
  rewrite !andb_true_iff in Hp. unfold outside_box.
  rewrite !orb_false_iff. lia.
Qed.

Lemma update_field_least_witness :
  exists m,
    @update 4 realTable lifo_queue (open_maze 4 true 0 3) [mkPosition 0 0]
      false true = Some m
    /\ length m = Z.to_nat (4 * 4)
    /\ field_least 4 realTable (open_maze 4 true 0 3) false true
         [mkPosition 0 0] m.
Proof.
  apply (update_field_least 4 realTable lifo_queue).
  - lia.
  - apply open_maze_closed.
  - apply box_covers_intro; vm_compute; discriminate.
Defined.

Lemma advance_keeps (u : Position) (d : Direction) (k : nat) :
  In d Along4 ->
  px (advance u d k) = px u \/ py (advance u d k) = py u.
Proof.
  intros Hd. induction k as [|k IH]; [by left|]. simpl advance.
  unfold Along4, East, North, West, South in Hd. simpl in Hd.
  destruct Hd as [<-|[<-|[<-|[<-|[]]]]]; simpl.
  - right. clear IH. induction k; [done|]. simpl. done.
  - left. clear IH. induction k; [done|]. simpl. done.
  - right. clear IH. induction k; [done|]. simpl. done.
  - left. clear IH. induction k; [done|]. simpl. done.
Qed.

Lemma far_maze_sentinel (PQ : PriorityQueue) :
  exists m,
    update 8 realTable far_maze [mkPosition 0 0] false true = Some m
    /\ getStep 8 m (mkPosition 4 4) = STEP_MAX.
Proof.
  assert (HN : 0 < 8 <= 127) by lia.
  assert (Htable : true = false -> 8 <= Z.of_nat (length realTable))
    by (intros H; discriminate H).
  assert (Hc1pos : 0 <= 1) by lia.
  destruct (update_solver_inv 8 realTable HN far_maze
              (open_maze_closed 8 false 0 1) false true Htable true
              [mkPosition 0 0] 1 eq_refl Hc1pos
              (fun p _ => px p <= 3 \/ py p <= 3))
    as (m & Hm & Hwf & Hinv).
  - intros g [<-|[]] _. simpl. lia.
  - intros u fs d k c Hu Hbox _ _ _ Hd _ _ _ _.
    assert (px u <= 3 /\ py u <= 3) as [Hx Hy].
    { unfold outside_box in Hbox. rewrite !orb_false_iff in Hbox.
      vm_compute bounding_box in Hbox. simpl in Hbox. lia. }
    destruct (advance_keeps u d (S k) Hd) as [-> | ->]; lia.
  - exists m. split; [done|].
    destruct Hinv as (_ & _ & _ & Hgood). unfold getStep.
    change (isInsideOfField 8 (mkPosition 4 4)) with true. cbv iota.
    destruct (array_get m (getIndex 8 (mkPosition 4 4))) as [v|] eqn:Hv;
      [|done]. simpl.
    destruct (decide (v = STEP_MAX)) as [|Hne]; [done|].
    assert (0 <= v <= STEP_MAX).
    { destruct Hwf as (_ & Hval & _). unfold array_get in Hv.
      destruct (_ <? 0); [done|]. rewrite Forall_lookup in Hval.
      by apply Hval in Hv. }
    destruct (Hgood (mkPosition 4 4) v eq_refl Hv ltac:(lia)) as [H4|H4];
      simpl in H4; lia.
Qed.

(** C1 as stated fails: the cell (4,4) of the example is reached by a path
    from the destination, yet whatever the priority queue does with equal
    steps it is left at the sentinel, for it lies behind the bounding
    box. *)
Lemma update_field_least_counterexample :
  ~ exists (PQ : PriorityQueue) m,
      update 8 realTable far_maze [mkPosition 0 0] false true = Some m
      /\ field_least 8 realTable far_maze false true [mkPosition 0 0] m.
Proof.
  intros (PQ & m & Hm & Hleast).
  destruct (far_maze_sentinel PQ) as (m' & Hm' & Hmax).
  rewrite Hm in Hm'. simplify_eq.
  destruct (Hleast (mkPosition 4 4) eq_refl) as [Hreach _].
  destruct Hreach as [Hlt _]; [|lia].
  exists (mkPosition 0 0), [East; East; East; East; North; North; North; North].
  split; [by left|]. split; [done|]. split; [|done].
  simpl. unfold Along4, East, North, West, South. simpl. tauto.
Qed.
(** ** Fields that agree on every cell *)

Lemma field_ext (MAZE_SIZE : Z) (m1 m2 : StepArray) :
  0 < MAZE_SIZE <= 127 ->
  length m1 = Z.to_nat (MAZE_SIZE * MAZE_SIZE) ->
  length m2 = Z.to_nat (MAZE_SIZE * MAZE_SIZE) ->
  (forall p, isInsideOfField MAZE_SIZE p = true ->
             getStep MAZE_SIZE m1 p = getStep MAZE_SIZE m2 p) ->
  m1 = m2.
Proof.
  intros HN H1 H2 Hget. apply list_eq. intros i.
  destruct (decide (i < length m1)%nat) as [Hi|Hi].
  2:{ rewrite !lookup_ge_None_2; [done|lia|lia]. }
  set (p := mkPosition (Z.of_nat i / MAZE_SIZE) (Z.of_nat i mod MAZE_SIZE)).
  assert (Hidx : getIndex MAZE_SIZE p = Z.of_nat i).
  { unfold getIndex, p. simpl. pose proof (Z_div_mod_eq_full (Z.of_nat i) MAZE_SIZE). lia. }
  assert (Hp : isInsideOfField MAZE_SIZE p = true).
  { apply inside_bounds. unfold p. simpl.
    pose proof (Z.mod_pos_bound (Z.of_nat i) MAZE_SIZE ltac:(lia)).
    split; [|lia]. split; [apply Z.div_pos; lia|].
    apply Z.div_lt_upper_bound; lia. }
  specialize (Hget p Hp). unfold getStep, array_get in Hget.
  rewrite Hp, Hidx in Hget. destruct (Z.of_nat i <? 0) eqn:E; [lia|].
  rewrite Nat2Z.id in Hget.
  destruct (lookup_lt_is_Some_2 m1 i Hi) as [v1 Hv1].
  destruct (lookup_lt_is_Some_2 m2 i ltac:(lia)) as [v2 Hv2].
  rewrite Hv1, Hv2 in *. simpl in Hget. by subst.
Qed.

(** ** A run over cells that it improves *)

Section Fresh.

Variable MAZE_SIZE : Z.
Variable stepTable : list Z.
Hypothesis HN : 0 < MAZE_SIZE <= 127.
Variable maze : Maze.
Hypothesis Hclosed : maze_closed MAZE_SIZE maze.
Variables knownOnly simple : bool.
Hypothesis Htable : simple = false -> MAZE_SIZE <= Z.of_nat (length stepTable).
Variable brk : bool.
Variables (focus : Position) (focus_step : Z) (d : Direction).
Hypothesis Hd : In d Along4.
Hypothesis Hfocus : isInsideOfField MAZE_SIZE focus = true.

Local Abbreviation inside p := (isInsideOfField MAZE_SIZE p = true).
Local Abbreviation get st p := (array_get (fst st) (getIndex MAZE_SIZE p)).

Lemma advance_ne (i j : nat) :
  (forall i', (i' < j)%nat ->
     passable maze knownOnly (advance focus d i') d = true) ->
  (i < j)%nat -> advance focus d i <> advance focus d j.
Proof.
  intros Hopen Hij E.
  destruct (advance_room MAZE_SIZE stepTable HN maze Hclosed knownOnly focus d j Hd
              Hfocus Hopen) as [_ Hj].
  destruct (advance_room MAZE_SIZE stepTable HN maze Hclosed knownOnly focus d i Hd
              Hfocus) as [_ Hi].
  { intros i' Hi'. apply Hopen. lia. }
  rewrite E in Hi. lia.
Qed.

(** The run reaches the cell at [S j] moves with the step of the focus
    plus the cost of the run, or less, when it improves every cell before
    it. *)
Lemma update_run_reach (fuel k j : nat) st st' :
  (k <= j)%nat ->
  (forall i, (i <= j)%nat ->
     passable maze knownOnly (advance focus d i) d = true) ->
  room MAZE_SIZE (advance focus d k) d < Z.of_nat fuel ->
  state_wf MAZE_SIZE st ->
  (forall i, (k <= i < j)%nat ->
     exists c cur,
       run_cost stepTable simple (Z.of_nat i + 1) = Some c
       /\ get st (advance focus d (S i)) = Some cur
       /\ wrap16 (focus_step + c) < cur) ->
  update_run MAZE_SIZE stepTable brk fuel maze knownOnly simple focus_step d
    (advance focus d k) (Z.of_nat k + 1) st = Some st' ->
  exists c v,
    run_cost stepTable simple (Z.of_nat j + 1) = Some c
    /\ get st' (advance focus d (S j)) = Some v
    /\ v <= wrap16 (focus_step + c).
Proof.
  revert k st. induction fuel as [|fuel IH]; intros k st Hkj Hopen Hfuel Hwf Himp Hrun.
  { simpl in Hrun. done. }
  assert (Hopenk : forall i, (i < k)%nat ->
            passable maze knownOnly (advance focus d i) d = true).
  { intros i Hi. apply Hopen. lia. }
  destruct (advance_room MAZE_SIZE stepTable HN maze Hclosed knownOnly focus d k Hd
              Hfocus Hopenk) as [Hin Hroom].
  pose proof (room_range MAZE_SIZE HN focus d Hd Hfocus) as Hr0.
  assert (Hpass : passable maze knownOnly (advance focus d k) d = true)
    by (apply Hopen; lia).
  destruct (decide (k = j)) as [->|Hne].
  { destruct (update_run_spec MAZE_SIZE stepTable HN maze Hclosed knownOnly
                simple Htable brk focus focus_step d Hd (S fuel) j st)
      as (st1 & Hst1 & _ & _ & Hfirst); try done; [lia|].
    rewrite Hrun in Hst1. simplify_eq. by apply Hfirst. }
  destruct (Himp k ltac:(lia)) as (c & cur & Hc & Hcur & Hlt).
  cbn [update_run] in Hrun.
  assert (Hw : isWall maze (advance focus d k) d
               || knownOnly && negb (isKnown maze (advance focus d k) d)
               = false).
  { unfold passable in Hpass. by apply negb_true_iff in Hpass. }
  rewrite Hw, Hc in Hrun. cbn [mbind option_bind] in Hrun.
  change (Position_next (advance focus d k) d) with (advance focus d (S k))
    in Hrun.
  cbn [fst] in Hrun. rewrite Hcur in Hrun. cbn [mbind option_bind] in Hrun.
  destruct (cur <=? wrap16 (focus_step + c)) eqn:Hle; [lia|].
  replace (Z.of_nat k + 1 + 1) with (Z.of_nat (S k) + 1) in Hrun by lia.
  assert (Hopenk' : forall i, (i < S k)%nat ->
            passable maze knownOnly (advance focus d i) d = true).
  { intros i Hi. apply Hopen. lia. }
  destruct (advance_room MAZE_SIZE stepTable HN maze Hclosed knownOnly focus d (S k)
              Hd Hfocus Hopenk') as [Hin' Hroom'].
  fold (relax_cell MAZE_SIZE (advance focus d (S k))
          (wrap16 (focus_step + c)) st) in Hrun.
  eapply (IH (S k)); [| |lia| | |exact Hrun]; [lia|done| |].
  - eapply relax_cell_wf; eauto.
    pose proof (wrap16_range (focus_step + c)). lia.
  - intros i Hi. destruct (Himp i ltac:(lia)) as (c' & cur' & Hc' & Hcur' & Hlt').
    exists c', cur'. split; [done|]. split; [|done].
    assert (Hopeni : forall i', (i' < S i)%nat ->
              passable maze knownOnly (advance focus d i') d = true).
    { intros i' Hi'. apply Hopen. lia. }
    destruct (advance_room MAZE_SIZE stepTable HN maze Hclosed knownOnly focus d (S i)
                Hd Hfocus Hopeni) as [Hini _].
    rewrite (relax_cell_get MAZE_SIZE HN) by done.
    rewrite decide_False; [done|]. intros E. symmetry in E. revert E.
    apply advance_ne; [done|lia].
Qed.

End Fresh.
(** ** The first iteration and the later ones *)

Lemma pq_pop_singleton {PQ : PriorityQueue} (e : Element) :
  pq_pop [e] = Some (e, []).
Proof.
  destruct (pq_pop_cons e []) as [[e' q'] H]. rewrite H.
  apply pq_pop_perm in H. apply Permutation_singleton_l in H.
  by simplify_eq.
Qed.

Section Steps.

Variable MAZE_SIZE : Z.
Variable stepTable : list Z.
Context {PQ : PriorityQueue}.
Hypothesis HN : 0 < MAZE_SIZE <= 127.
Variable maze : Maze.
Hypothesis Hclosed : maze_closed MAZE_SIZE maze.
Variables knownOnly simple : bool.
Hypothesis Htable : simple = false -> MAZE_SIZE <= Z.of_nat (length stepTable).
Variable brk : bool.
Variable b : Box.

Local Abbreviation inside p := (isInsideOfField MAZE_SIZE p = true).
Local Abbreviation get st p := (array_get (fst st) (getIndex MAZE_SIZE p)).

(** No iteration raises a step. *)
Lemma update_step_mono st st' p v :
  state_wf MAZE_SIZE st ->
  update_step MAZE_SIZE stepTable brk maze knownOnly simple b st
  = Some (inl st') ->
  inside p -> get st p = Some v ->
  exists v', get st' p = Some v' /\ v' <= v.
Proof.
  intros Hwf Hstep Hp Hv.
  destruct (update_step_spec MAZE_SIZE stepTable HN maze Hclosed knownOnly
              simple Htable brk b st Hwf)
    as [[_ Hr]|(u & s & q & st1 & Hpop & Hr & Hwf1 & Hu & Hcase)];
    [congruence|].
  rewrite Hr in Hstep. simplify_eq.
  destruct Hcase as [[-> _]|(_ & fs & _ & _ & Hrtc & _)].
  - exists v. split; [done|lia].
  - eapply relax_from_get; eauto.
    destruct (pop_wf MAZE_SIZE stepTable _ _ _ Hwf Hpop) as (Hwfq & _).
    exact Hwfq.
Qed.

End Steps.
(** ** Further properties of the update *)

Lemma bounding_box_fold (dest : Positions) (b0 : Box) :
  let b := foldl (fun b p =>
                    mkBox (Z.min (px p) (min_x b)) (Z.max (px p) (max_x b))
                          (Z.min (py p) (min_y b)) (Z.max (py p) (max_y b)))
                 b0 dest in
  (min_x b <= min_x b0 /\ max_x b0 <= max_x b
   /\ min_y b <= min_y b0 /\ max_y b0 <= max_y b)
  /\ (forall p, In p dest ->
        min_x b <= px p <= max_x b /\ min_y b <= py p <= max_y b)
  /\ (forall lo hi,
        lo <= min_x b0 -> max_x b0 <= hi -> lo <= min_y b0 -> max_y b0 <= hi ->
        Forall (fun p => lo <= px p <= hi /\ lo <= py p <= hi) dest ->
        lo <= min_x b /\ max_x b <= hi /\ lo <= min_y b /\ max_y b <= hi).
Proof.
  revert b0. induction dest as [|q ds IH]; intros b0; cbn zeta.
  { simpl. split; [lia|]. split; [by intros p []|]. intros. lia. }
  cbn [foldl].
  set (b1 := mkBox (Z.min (px q) (min_x b0)) (Z.max (px q) (max_x b0))
                   (Z.min (py q) (min_y b0)) (Z.max (py q) (max_y b0))).
  destruct (IH b1) as (H1 & H2 & H3). cbn zeta in *.
  split; [|split].
  - simpl in H1. lia.
  - intros p [<-|Hp]; [simpl in H1; lia|by apply H2].
  - intros lo hi ? ? ? ? Hall. apply Forall_cons in Hall as [Hq Hall].
    apply H3; simpl; try lia. done.
Qed.

Lemma bounding_box_dest (maze : Maze) (dest : Positions) :
  box_fits maze dest ->
  (forall p, In p dest -> outside_box (bounding_box maze dest) p = false)
  /\ (forall p,
        getMinX maze <= px p <= getMaxX maze ->
        getMinY maze <= py p <= getMaxY maze ->
        outside_box (bounding_box maze dest) p = false).
Proof.
  intros (Hx1 & Hx2 & Hy1 & Hy2 & Hd).
  pose proof (bounding_box_fold dest
                (mkBox (getMinX maze) (getMaxX maze) (getMinY maze)
                   (getMaxY maze))) as (H1 & H2 & H3).
  cbn zeta in *. simpl in H1.
  specialize (H3 (-127) 125). simpl in H3.
  destruct H3 as (B1 & B2 & B3 & B4); try lia; [done|].
  unfold bounding_box, outside_box. cbn [min_x max_x min_y max_y].
  set (b := foldl _ _ dest) in *.
  assert (W : forall z, -128 <= z <= 127 -> wrap8 z = z).
  { intros z Hz. unfold wrap8. rewrite Z.mod_small; lia. }
  rewrite !W by lia.
  split.
  - intros p Hp. specialize (H2 p Hp). rewrite !orb_false_iff. lia.
  - intros p Hpx Hpy. rewrite !orb_false_iff. lia.
Qed.

(** The bounding box holds every destination and the whole extent of the
    maze, when its padding does not leave the range of an [int8_t]. *)
Theorem bounding_box_holds_destinations (maze : Maze) (dest : Positions) :
  box_fits maze dest ->
  (forall p, In p dest -> outside_box (bounding_box maze dest) p = false)
  /\ (forall p,
        getMinX maze <= px p <= getMaxX maze ->
        getMinY maze <= py p <= getMaxY maze ->
        outside_box (bounding_box maze dest) p = false).
Proof.
  exact (@bounding_box_dest maze dest).
Qed.

Lemma bounding_box_holds_destinations_witness :
  (forall p, In p [mkPosition 5 0] ->
     outside_box (bounding_box (open_maze 8 false 0 1) [mkPosition 5 0]) p
     = false)
  /\ (forall p,
        getMinX (open_maze 8 false 0 1) <= px p
        <= getMaxX (open_maze 8 false 0 1) ->
        getMinY (open_maze 8 false 0 1) <= py p
        <= getMaxY (open_maze 8 false 0 1) ->
        outside_box (bounding_box (open_maze 8 false 0 1) [mkPosition 5 0]) p
        = false).
Proof.
  apply (bounding_box_holds_destinations (open_maze 8 false 0 1)
           [mkPosition 5 0]).
  unfold box_fits. simpl. repeat split; try lia. repeat constructor; simpl; lia.
Defined.
Section UpdateMore.

Variable MAZE_SIZE : Z.
Variable stepTable : list Z.
Context {PQ : PriorityQueue}.
Hypothesis HN : 0 < MAZE_SIZE <= 127.
Variable maze : Maze.
Hypothesis Hclosed : maze_closed MAZE_SIZE maze.
Variables knownOnly simple : bool.
Hypothesis Htable : simple = false -> table_ok MAZE_SIZE stepTable.
Variable brk : bool.
Variable dest : Positions.

Local Abbreviation inside p := (isInsideOfField MAZE_SIZE p = true).
Local Abbreviation b := (bounding_box maze dest).

Lemma table_ok_length :
  simple = false -> MAZE_SIZE <= Z.of_nat (length stepTable).
Proof. intros H. by destruct (Htable H). Qed.

Lemma run_cost_one :
  exists c1, run_cost stepTable simple 1 = Some c1 /\ 0 <= c1.
Proof.
  unfold run_cost. destruct simple eqn:E; [exists 1; split; [done|lia]|].
  destruct (Htable eq_refl) as (_ & Hlen & Hval).
  destruct (lookup_lt_is_Some_2 stepTable (Z.to_nat 1)) as [c Hc].
  { change (Z.to_nat 1) with 1%nat. lia. }
  exists c. split; [done|]. rewrite Forall_lookup in Hval.
  by apply Hval in Hc as [? _].
Qed.

Lemma getStep_inside (m : StepArray) (p : Position) :
  length m = Z.to_nat (MAZE_SIZE * MAZE_SIZE) -> inside p ->
  array_get m (getIndex MAZE_SIZE p) = Some (getStep MAZE_SIZE m p).
Proof.
  intros Hlen Hp. unfold getStep. rewrite Hp.
  destruct (array_get_Some m (getIndex MAZE_SIZE p)) as [v Hv]; [|by rewrite Hv].
  pose proof (getIndex_range MAZE_SIZE HN p Hp). lia.
Qed.

(** The update ends, and every step below the sentinel is good for its
    cell, when the destinations are good and a run carries goodness from
    its focus to the cells it reaches. *)
Lemma update_field_good (good : Position -> Prop) :
  (forall g, In g dest -> inside g -> good g) ->
  (forall u d (k : nat),
     inside u -> outside_box b u = false -> good u -> In d Along4 ->
     (forall j, (j < S k)%nat ->
        passable maze knownOnly (advance u d j) d = true) ->
     good (advance u d (S k))) ->
  exists m,
    update_gen MAZE_SIZE stepTable brk maze dest knownOnly simple = Some m
    /\ length m = Z.to_nat (MAZE_SIZE * MAZE_SIZE)
    /\ Forall (fun v => 0 <= v <= STEP_MAX) m
    /\ (forall g, In g dest -> inside g -> getStep MAZE_SIZE m g = 0)
    /\ forall p, inside p -> getStep MAZE_SIZE m p <> STEP_MAX -> good p.
Proof.
  intros Hdest Hstep. destruct run_cost_one as (c1 & Hc1 & Hc1pos).
  destruct (update_solver_inv MAZE_SIZE stepTable HN maze Hclosed knownOnly
              simple table_ok_length brk dest c1 Hc1 Hc1pos
              (fun p _ => good p))
    as (m & Hm & Hwf & Hinv).
  - exact Hdest.
  - intros u fs d k c Hu Hbox Hg _ _ Hd Hopen _ _ _. by eapply Hstep.
  - exists m. split; [exact Hm|]. clear Hm.
    pose proof Hwf as (Hlen & Hval & _). cbn [fst] in Hlen, Hval.
    split; [done|]. split; [done|].
    destruct Hinv as (_ & _ & Hzero & Hgood). split.
    + intros g Hg Hin. pose proof (Hzero g Hg Hin) as Hz. cbn [fst] in Hz.
      rewrite (getStep_inside m g Hlen Hin) in Hz. by simplify_eq.
    + intros p Hp Hne. apply (Hgood p (getStep MAZE_SIZE m p) Hp).
      * cbn [fst]. by apply getStep_inside.
      * pose proof (getStep_inside m p Hlen Hp) as Hv.
        unfold array_get in Hv. destruct (_ <? 0); [done|].
        rewrite Forall_lookup in Hval. apply Hval in Hv. lia.
Qed.

End UpdateMore.
Lemma path_end_replicate (u : Position) (d : Direction) (k : nat) :
  path_end u (replicate k d) = advance u d k.
Proof.
  induction k as [|k IH]; [done|].
  replace (replicate (S k) d) with (replicate k d ++ [d]).
  - rewrite path_end_app, IH. done.
  - clear IH. induction k; simpl; [done|]. by f_equal.
Qed.

Lemma path_open_replicate maze knownOnly (u : Position) (d : Direction)
    (k : nat) :
  In d Along4 ->
  (forall j, (j < k)%nat -> passable maze knownOnly (advance u d j) d = true) ->
  path_open maze knownOnly u (replicate k d).
Proof.
  intros Hd. induction k as [|k IH]; intros Hopen; [done|].
  replace (replicate (S k) d) with (replicate k d ++ [d]).
  - apply path_open_app. split; [apply IH; intros j Hj; apply Hopen; lia|].
    rewrite path_end_replicate. simpl. split; [done|]. split; [|done].
    apply Hopen. lia.
  - clear. induction k; simpl; [done|]. by f_equal.
Qed.

Lemma table_ok_real (n : Z) : n <= 32 -> table_ok n realTable.
Proof.
  intros Hn. split; [|split].
  - change (Z.of_nat (length realTable)) with 32. lia.
  - change (length realTable) with 32%nat. lia.
  - unfold realTable, STEP_MAX. repeat constructor; lia.
Qed.

Lemma update_total (MAZE_SIZE : Z) (stepTable : list Z) (PQ : PriorityQueue)
    (maze : Maze) (dest : Positions) (knownOnly simple : bool) :
  0 < MAZE_SIZE <= 127 ->
  maze_closed MAZE_SIZE maze ->
  (simple = false -> table_ok MAZE_SIZE stepTable) ->
  exists m,
    update MAZE_SIZE stepTable maze dest knownOnly simple = Some m
    /\ length m = Z.to_nat (MAZE_SIZE * MAZE_SIZE)
    /\ Forall (fun v => 0 <= v <= STEP_MAX) m.
Proof.
  intros HN Hclosed Htable.
  destruct (update_field_good MAZE_SIZE stepTable HN maze Hclosed knownOnly
              simple Htable true dest (fun _ => True))
    as (m & Hm & Hlen & Hval & _); [done|done|].
  by exists m.
Qed.

(** The update ends for every maze with a walled border: no step is read
    or written outside of the array, no run leaves the table, and the
    field at the end has one [step_t] per cell. *)
Theorem update_ends (MAZE_SIZE : Z) (stepTable : list Z) (PQ : PriorityQueue)
    (maze : Maze) (dest : Positions) (knownOnly simple : bool) :
  0 < MAZE_SIZE <= 127 ->
  maze_closed MAZE_SIZE maze ->
  (simple = false -> table_ok MAZE_SIZE stepTable) ->
  exists m,
    update MAZE_SIZE stepTable maze dest knownOnly simple = Some m
    /\ length m = Z.to_nat (MAZE_SIZE * MAZE_SIZE)
    /\ Forall (fun v => 0 <= v <= STEP_MAX) m.
Proof.
  exact (@update_total MAZE_SIZE stepTable PQ maze dest knownOnly simple).
Qed.

Lemma update_ends_witness :
  exists m,
    @update 4 realTable lifo_queue (open_maze 4 true 0 3) [mkPosition 0 0]
      false false = Some m
    /\ length m = Z.to_nat (4 * 4)
    /\ Forall (fun v => 0 <= v <= STEP_MAX) m.
Proof.
  apply (update_ends 4 realTable lifo_queue).
  - lia.
  - apply open_maze_closed.
  - intros _. apply table_ok_real. lia.
Defined.

Lemma update_dest_get (MAZE_SIZE : Z) (stepTable : list Z)
    (PQ : PriorityQueue) (maze : Maze) (dest : Positions)
    (knownOnly simple : bool) (m : StepArray) (g : Position) :
  0 < MAZE_SIZE <= 127 ->
  maze_closed MAZE_SIZE maze ->
  (simple = false -> table_ok MAZE_SIZE stepTable) ->
  update MAZE_SIZE stepTable maze dest knownOnly simple = Some m ->
  In g dest -> isInsideOfField MAZE_SIZE g = true ->
  getStep MAZE_SIZE m g = 0.
Proof.
  intros HN Hclosed Htable Hm Hg Hin.
  destruct (update_field_good MAZE_SIZE stepTable HN maze Hclosed knownOnly
              simple Htable true dest (fun _ => True))
    as (m' & Hm' & _ & _ & Hzero & _); [done|done|].
  unfold update in Hm. rewrite Hm in Hm'. simplify_eq. by apply Hzero.
Qed.

(** At the end of the update every destination inside of the field has
    step 0, whatever the other destinations, the flags and the bounding
    box are. *)
Theorem update_destination_zero (MAZE_SIZE : Z) (stepTable : list Z)
    (PQ : PriorityQueue) (maze : Maze) (dest : Positions)
    (knownOnly simple : bool) (m : StepArray) (g : Position) :
  0 < MAZE_SIZE <= 127 ->
  maze_closed MAZE_SIZE maze ->
  (simple = false -> table_ok MAZE_SIZE stepTable) ->
  update MAZE_SIZE stepTable maze dest knownOnly simple = Some m ->
  In g dest -> isInsideOfField MAZE_SIZE g = true ->
  getStep MAZE_SIZE m g = 0.
Proof.
  exact (@update_dest_get MAZE_SIZE stepTable PQ maze dest knownOnly simple m
           g).
Qed.

(** At the end of the update every cell with a step below the sentinel is
    reached by a path from a destination inside of the field, through sides
    without a wall (and with a known wall state when only known walls
    count): a cell that no such path reaches holds the sentinel. *)
Theorem update_finite_reachable (MAZE_SIZE : Z) (stepTable : list Z)
    (PQ : PriorityQueue) (maze : Maze) (dest : Positions)
    (knownOnly simple : bool) (m : StepArray) (p : Position) :
  0 < MAZE_SIZE <= 127 ->
  maze_closed MAZE_SIZE maze ->
  (simple = false -> table_ok MAZE_SIZE stepTable) ->
  update MAZE_SIZE stepTable maze dest knownOnly simple = Some m ->
  isInsideOfField MAZE_SIZE p = true ->
  getStep MAZE_SIZE m p <> STEP_MAX ->
  reachable MAZE_SIZE maze knownOnly dest p.
Proof.
  intros HN Hclosed Htable Hm Hp Hne.
  destruct (update_field_good MAZE_SIZE stepTable HN maze Hclosed knownOnly
              simple Htable true dest
              (reachable MAZE_SIZE maze knownOnly dest))
    as (m' & Hm' & _ & _ & _ & Hgood).
  - intros g Hg Hin. by exists g, [].
  - intros u d k Hu _ (g & dirs & Hg & Hin & Hopen & Hend) Hd Hrun.
    exists g, (dirs ++ replicate (S k) d). split; [done|]. split; [done|].
    split.
    + apply path_open_app. split; [done|]. rewrite Hend.
      by apply path_open_replicate.
    + by rewrite path_end_app, Hend, path_end_replicate.
  - unfold update in Hm. rewrite Hm in Hm'. simplify_eq. by apply Hgood.
Qed.

Lemma open4_update :
  @update 4 realTable lifo_queue open4 [mkPosition 0 0] false false
  = Some open4_field.
Proof. vm_compute. reflexivity. Qed.

Lemma update_destination_zero_witness :
  getStep 4 open4_field (mkPosition 0 0) = 0.
Proof.
  apply (update_destination_zero 4 realTable lifo_queue open4
           [mkPosition 0 0] false false open4_field (mkPosition 0 0)).
  - lia.
  - apply open_maze_closed.
  - intros _. apply table_ok_real. lia.
  - vm_compute. reflexivity.
  - left. reflexivity.
  - reflexivity.
Defined.

Lemma update_finite_reachable_witness :
  reachable 4 open4 false [mkPosition 0 0] (mkPosition 3 3).
Proof.
  apply (update_finite_reachable 4 realTable lifo_queue open4
           [mkPosition 0 0] false false open4_field (mkPosition 3 3)).
  - lia.
  - apply open_maze_closed.
  - intros _. apply table_ok_real. lia.
  - vm_compute. reflexivity.
  - reflexivity.
  - vm_compute. discriminate.
Defined.

(** The update writes only on the rows and the columns of the bounding box:
    a cell whose column and whose row both lie outside of the box holds the
    sentinel at the end, even when a path reaches it. *)
Theorem update_off_box_sentinel (MAZE_SIZE : Z) (stepTable : list Z)
    (PQ : PriorityQueue) (maze : Maze) (dest : Positions)
    (knownOnly simple : bool) :
  0 < MAZE_SIZE <= 127 ->
  maze_closed MAZE_SIZE maze ->
  (simple = false -> table_ok MAZE_SIZE stepTable) ->
  box_fits maze dest ->
  exists m,
    update MAZE_SIZE stepTable maze dest knownOnly simple = Some m
    /\ forall p,
         isInsideOfField MAZE_SIZE p = true ->
         (px p <? min_x (bounding_box maze dest))
         || (max_x (bounding_box maze dest) <? px p) = true ->
         (py p <? min_y (bounding_box maze dest))
         || (max_y (bounding_box maze dest) <? py p) = true ->
         getStep MAZE_SIZE m p = STEP_MAX.
Proof.
  intros HN Hclosed Htable Hfits.
  set (b := bounding_box maze dest).
  destruct (update_field_good MAZE_SIZE stepTable HN maze Hclosed knownOnly
              simple Htable true dest
              (fun p => min_x b <= px p <= max_x b
                        \/ min_y b <= py p <= max_y b))
    as (m & Hm & _ & _ & _ & Hgood).
  - intros g Hg _.
    destruct (bounding_box_dest maze dest Hfits) as [Hd _].
    specialize (Hd g Hg). fold b in Hd. unfold outside_box in Hd.
    rewrite !orb_false_iff in Hd. lia.
  - intros u d k Hu Hbox _ Hd _. fold b in Hbox. unfold outside_box in Hbox.
    rewrite !orb_false_iff in Hbox.
    destruct (advance_keeps u d (S k) Hd) as [-> | ->]; lia.
  - exists m. split; [exact Hm|]. clear Hm. intros p Hp Hx Hy.
    destruct (decide (getStep MAZE_SIZE m p = STEP_MAX)) as [|Hne]; [done|].
    specialize (Hgood p Hp Hne). fold b in Hx, Hy.
    rewrite orb_true_iff in Hx, Hy. lia.
Qed.

Lemma update_off_box_sentinel_witness :
  exists m,
    @update 8 realTable fifo_queue far_maze [mkPosition 0 0] false true
    = Some m
    /\ forall p,
         isInsideOfField 8 p = true ->
         (px p <? min_x (bounding_box far_maze [mkPosition 0 0]))
         || (max_x (bounding_box far_maze [mkPosition 0 0]) <? px p) = true ->
         (py p <? min_y (bounding_box far_maze [mkPosition 0 0]))
         || (max_y (bounding_box far_maze [mkPosition 0 0]) <? py p) = true ->
         getStep 8 m p = STEP_MAX.
Proof.
  apply (update_off_box_sentinel 8 realTable fifo_queue far_maze).
  - lia.
  - apply open_maze_closed.
  - intros H. discriminate H.
  - unfold box_fits. simpl. repeat split; try lia.
    repeat constructor; simpl; lia.
Defined.
(** ** The descent *)

Section DescentSteps.

Variable MAZE_SIZE : Z.
Variable stepTable : list Z.
Variable maze : Maze.
Variables knownOnly simple : bool.
Variable m : StepArray.

Local Abbreviation get p := (array_get m (getIndex MAZE_SIZE p)).

(** What a scan along one direction finds. *)
Lemma scan_run_found (fuel k : nat) focus focus_step d next :
  scan_run MAZE_SIZE stepTable fuel maze knownOnly simple m focus_step d
    (advance focus d k) (Z.of_nat k + 1) = Some (Some next) ->
  exists j c,
    (k <= j)%nat /\ (S j <= k + fuel)%nat
    /\ next = advance focus d (S j)
    /\ (forall i, (k <= i <= j)%nat ->
          passable maze knownOnly (advance focus d i) d = true)
    /\ run_cost stepTable simple (Z.of_nat j + 1) = Some c
    /\ get next = Some (wrap16 (focus_step - c)).
Proof.
  revert k. induction fuel as [|fuel IH]; intros k Hscan; [done|].
  cbn [scan_run] in Hscan.
  destruct (isWall maze (advance focus d k) d
            || knownOnly && negb (isKnown maze (advance focus d k) d)) eqn:Hw;
    [done|].
  assert (Hpass : passable maze knownOnly (advance focus d k) d = true).
  { unfold passable. by rewrite Hw. }
  destruct (run_cost stepTable simple (Z.of_nat k + 1)) as [c|] eqn:Hc;
    [|done].
  cbn [mbind option_bind] in Hscan.
  change (Position_next (advance focus d k) d) with (advance focus d (S k))
    in Hscan.
  destruct (get (advance focus d (S k))) as [cur|] eqn:Hcur; [|done].
  cbn [mbind option_bind] in Hscan.
  destruct (cur =? wrap16 (focus_step - c)) eqn:E.
  - simplify_eq. apply Z.eqb_eq in E. subst cur. exists k, c.
    split; [lia|]. split; [lia|]. split; [done|]. split; [|by split].
    intros i Hi. by replace i with k by lia.
  - replace (Z.of_nat k + 1 + 1) with (Z.of_nat (S k) + 1) in Hscan by lia.
    destruct (IH (S k) Hscan) as (j & c' & Hj1 & Hj2 & Hn & Hopen & Hc' & Hg).
    exists j, c'. split; [lia|]. split; [lia|]. split; [done|].
    split; [|by split]. intros i Hi.
    destruct (decide (i = k)) as [->|]; [done|]. apply Hopen. lia.
Qed.

(** What the scan over the directions finds. *)
Lemma scan_dirs_found focus focus_step (ds : list Direction) min_p min_d :
  scan_dirs MAZE_SIZE stepTable maze knownOnly simple m focus focus_step ds
  = Some (min_p, min_d) ->
  (min_p = focus /\ min_d = Direction_Max)
  \/ (In min_d ds
      /\ exists j c,
           (S j <= run_fuel)%nat
           /\ min_p = advance focus min_d (S j)
           /\ (forall i, (i <= j)%nat ->
                 passable maze knownOnly (advance focus min_d i) min_d = true)
           /\ run_cost stepTable simple (Z.of_nat j + 1) = Some c
           /\ get min_p = Some (wrap16 (focus_step - c))).
Proof.
  induction ds as [|d ds IH]; intros Hscan; cbn [scan_dirs] in Hscan.
  { simplify_eq. by left. }
  destruct (scan_run MAZE_SIZE stepTable run_fuel maze knownOnly simple m
              focus_step d focus 1) as [[next|]|] eqn:Hrun; [| |done];
    cbn [mbind option_bind] in Hscan.
  - simplify_eq. right. split; [by left|].
    change (scan_run MAZE_SIZE stepTable run_fuel maze knownOnly simple m
              focus_step min_d (advance focus min_d 0) (Z.of_nat 0 + 1)
            = Some (Some min_p)) in Hrun.
    destruct (scan_run_found _ _ _ _ _ _ Hrun)
      as (j & c & _ & Hj & Hn & Hopen & Hc & Hg).
    exists j, c. split; [lia|]. split; [done|]. split; [|by split].
    intros i Hi. apply Hopen. lia.
  - destruct (IH Hscan) as [?|(Hin & Hrest)]; [by left|right].
    split; [by right|done].
Qed.

(** What the moves towards [min_p] do. *)
Lemma move_run_spec (fuel : nat) breakUnknown min_p min_d focus dirs
    focus' dirs' stop :
  move_run fuel maze breakUnknown min_p min_d focus dirs
  = Some (focus', dirs', stop) ->
  exists t : nat,
    (t <= fuel)%nat
    /\ dirs' = dirs ++ replicate t min_d
    /\ pose_p focus' = advance (pose_p focus) min_d t
    /\ (t = 0%nat -> focus' = focus)
    /\ (t <> 0%nat -> pose_d focus' = min_d)
    /\ (forall i, (i < t)%nat -> advance (pose_p focus) min_d i <> min_p)
    /\ (breakUnknown = true ->
        forall i, (i < t)%nat ->
          unknownCount maze (advance (pose_p focus) min_d i) = 0)
    /\ (if stop
        then breakUnknown = true /\ pose_p focus' <> min_p
             /\ unknownCount maze (pose_p focus') <> 0
        else pose_p focus' = min_p).
Proof.
  revert focus dirs. induction fuel as [|fuel IH]; intros focus dirs Hmove;
    cbn [move_run] in Hmove.
  - destruct (decide (pose_p focus = min_p)) as [E|E]; [|done]. simplify_eq.
    exists 0%nat. rewrite app_nil_r. repeat split; try done; intros; lia.
  - destruct (decide (pose_p focus = min_p)) as [E|E].
    { simplify_eq. exists 0%nat. rewrite app_nil_r.
      repeat split; try done; intros; lia. }
    destruct (breakUnknown && negb (unknownCount maze (pose_p focus) =? 0))
      eqn:Hb.
    { simplify_eq. exists 0%nat. rewrite app_nil_r.
      apply andb_true_iff in Hb as [-> Hu].
      apply negb_true_iff, Z.eqb_neq in Hu.
      repeat split; try done; intros; lia. }
    destruct (IH _ _ Hmove) as (t & Ht & Hd & Hp & Ht0 & Htd & Hne & Hk & Hstop).
    change (pose_p (Pose_next focus min_d))
      with (Position_next (pose_p focus) min_d) in *.
    assert (Hadv : forall i, advance (Position_next (pose_p focus) min_d) min_d i
                             = advance (pose_p focus) min_d (S i)).
    { intros i. induction i as [|i IHi]; [done|]. simpl. by rewrite IHi. }
    exists (S t). split; [lia|]. split.
    { rewrite Hd, <- app_assoc. done. }
    split; [by rewrite Hp, Hadv|]. split; [lia|]. split.
    { intros _. destruct (decide (t = 0%nat)) as [Et|Et]; [|by apply Htd].
      by rewrite (Ht0 Et). }
    split.
    { intros i Hi. destruct i as [|i]; [done|]. rewrite <- Hadv. apply Hne. lia. }
    split.
    { intros Hbu i Hi. destruct i as [|i].
      - simpl. rewrite Hbu in Hb. simpl in Hb.
        apply negb_false_iff, Z.eqb_eq in Hb. done.
      - rewrite <- Hadv. apply Hk; [done|lia]. }
    done.
Qed.

End DescentSteps.
Lemma path_cells_app (p : Position) (a b : Directions) :
  path_cells p (a ++ b) = path_cells p a ++ path_cells (path_end p a) b.
Proof.
  revert p. induction a as [|d a IH]; intros p; [done|].
  simpl. rewrite IH. done.
Qed.

Lemma path_cells_replicate (P : Position -> Prop) (u : Position)
    (d : Direction) (t : nat) :
  (forall i, (i < t)%nat -> P (advance u d i)) ->
  Forall P (path_cells u (replicate t d)).
Proof.
  revert u. induction t as [|t IH]; intros u H; [constructor|].
  simpl. constructor; [apply (H 0%nat); lia|].
  apply IH. intros i Hi.
  assert (E : forall i, advance (Position_next u d) d i = advance u d (S i)).
  { clear. intros i. induction i as [|i IHi]; [done|]. simpl. by rewrite IHi. }
  rewrite E. apply H. lia.
Qed.

Lemma last_replicate {A : Type} (x : A) (t : nat) :
  t <> 0%nat -> last (replicate t x) = Some x.
Proof.
  intros Ht. destruct t as [|t]; [done|]. clear Ht.
  induction t as [|t IH]; [done|].
  change (replicate (S (S t)) x) with (x :: x :: replicate t x).
  rewrite last_cons_cons. exact IH.
Qed.

Section DescentLoop.

Variable MAZE_SIZE : Z.
Variable stepTable : list Z.
Variable maze : Maze.
Variables knownOnly simple : bool.
Variable m : StepArray.

Local Abbreviation get p := (array_get m (getIndex MAZE_SIZE p)).
Local Abbreviation known := (fun c : Position => unknownCount maze c = 0).

(** What the loop of the descent keeps and what it returns. *)
Lemma descend_loop_spec (fuel : nat) breakUnknown focus dirs dirs' e
    (p0 : Position) :
  descend_loop MAZE_SIZE stepTable fuel maze knownOnly simple breakUnknown m
    focus dirs = Some (dirs', e) ->
  path_end p0 dirs = pose_p focus ->
  path_open maze knownOnly p0 dirs ->
  (breakUnknown = true -> Forall known (path_cells p0 dirs)) ->
  (exists rest,
     dirs' = dirs ++ rest
     /\ (rest = [] -> e = focus)
     /\ (rest <> [] -> last rest = Some (pose_d e)))
  /\ path_end p0 dirs' = pose_p e
  /\ path_open maze knownOnly p0 dirs'
  /\ (breakUnknown = true -> Forall known (path_cells p0 dirs'))
  /\ (breakUnknown = false ->
      exists v v',
        get (pose_p focus) = Some v /\ get (pose_p e) = Some v'
        /\ v' <= v /\ (dirs' <> dirs -> v' < v)).
Proof.
  revert focus dirs.
  induction fuel as [|fuel IH]; intros focus dirs Hloop Hend Hopen Hknown;
    [done|].
  cbn [descend_loop] in Hloop.
  destruct (get (pose_p focus)) as [focus_step|] eqn:Hfs; [|done].
  cbn [mbind option_bind] in Hloop.
  assert (Hstay : (exists rest : Directions,
     dirs = dirs ++ rest /\ (rest = [] -> focus = focus)
     /\ (rest <> [] -> last rest = Some (pose_d focus)))
    /\ path_end p0 dirs = pose_p focus
    /\ path_open maze knownOnly p0 dirs
    /\ (breakUnknown = true -> Forall known (path_cells p0 dirs))
    /\ (breakUnknown = false ->
        exists v v', Some focus_step = Some v
          /\ get (pose_p focus) = Some v' /\ v' <= v
          /\ (dirs <> dirs -> v' < v))).
  { split; [exists []; by rewrite app_nil_r|]. do 3 (split; [done|]).
    intros _. exists focus_step, focus_step. repeat split; try done; lia. }
  destruct (focus_step =? 0) eqn:Hz; [by simplify_eq|].
  destruct (scan_dirs MAZE_SIZE stepTable maze knownOnly simple m
              (pose_p focus) focus_step Along4) as [[min_p min_d]|] eqn:Hscan;
    [|done].
  cbn [mbind option_bind] in Hloop.
  destruct (get min_p) as [min_step|] eqn:Hms; [|done].
  cbn [mbind option_bind] in Hloop.
  destruct (focus_step <=? min_step) eqn:Hle; [by simplify_eq|].
  clear Hstay.
  destruct (move_run run_fuel maze breakUnknown min_p min_d focus dirs)
    as [[[focus1 dirs1] stop]|] eqn:Hmove; [|done].
  cbn [mbind option_bind] in Hloop.
  destruct (scan_dirs_found _ _ _ _ _ _ _ _ _ _ _ Hscan)
    as [[-> _]|(Hd & j & c & Hj & Hmin & Hrun & Hc & Hg)].
  { rewrite Hfs in Hms. simplify_eq. lia. }
  destruct (move_run_spec _ _ _ _ _ _ _ _ _ _ Hmove)
    as (t & _ & Hd1 & Hp1 & Ht0 & Htd & Hne & Hk & Hstop).
  assert (Htj : (t <= S j)%nat).
  { destruct (decide (t <= S j)%nat) as [|Hgt]; [done|].
    destruct (Hne (S j)); [lia|done]. }
  assert (Hend1 : path_end p0 dirs1 = pose_p focus1).
  { by rewrite Hd1, path_end_app, Hend, path_end_replicate. }
  assert (Hopen1 : path_open maze knownOnly p0 dirs1).
  { rewrite Hd1. apply path_open_app. split; [done|]. rewrite Hend.
    apply path_open_replicate; [done|]. intros i Hi. apply Hrun. lia. }
  assert (Hknown1 : breakUnknown = true -> Forall known (path_cells p0 dirs1)).
  { intros Hb. rewrite Hd1, path_cells_app, Hend. apply Forall_app.
    split; [by apply Hknown|]. apply path_cells_replicate. by apply Hk. }
  destruct stop.
  - simplify_eq. destruct Hstop as (Hb & _ & _).
    split; [|split; [done|split; [done|split; [done|]]]].
    + exists (replicate t min_d). split; [done|]. split.
      * intros E. apply Ht0. by destruct t.
      * intros E. assert (t <> 0%nat) by (intros ->; done).
        rewrite last_replicate by done. by rewrite Htd.
    + intros Hb'. congruence.
  - assert (Ht : t <> 0%nat).
    { intros ->. rewrite (Ht0 eq_refl) in Hstop. rewrite Hstop in Hfs.
      rewrite Hfs in Hms. simplify_eq. lia. }
    destruct (IH _ _ Hloop Hend1 Hopen1 Hknown1)
      as ((rest & Hrest & Hr0 & Hr1) & He & Ho & Hkn & Hv).
    split; [|split; [done|split; [done|split; [done|]]]].
    + exists (replicate t min_d ++ rest). split; [by rewrite Hrest, Hd1, app_assoc|].
      split.
      * intros E. apply app_eq_nil in E as [E _]. by destruct t.
      * intros _. rewrite last_app. destruct rest as [|r rest'].
        -- rewrite (Hr0 eq_refl). simpl. rewrite last_replicate by done.
           by rewrite Htd.
        -- by rewrite Hr1.
    + intros Hb. destruct (Hv Hb) as (v1 & v' & Hv1 & Hv' & Hle' & _).
      rewrite Hstop, Hms in Hv1. simplify_eq.
      exists focus_step, v'. repeat split; try done; lia.
Qed.

End DescentLoop.
Lemma getStepDownDirections_path (MAZE_SIZE : Z) (stepTable : list Z)
    (maze : Maze)
    (m : StepArray) (start : Pose) (knownOnly simple breakUnknown : bool)
    (dirs : Directions) (e : Pose) :
  getStepDownDirections MAZE_SIZE stepTable maze m start knownOnly simple
    breakUnknown = Some (dirs, e) ->
  path_end (pose_p start) dirs = pose_p e
  /\ path_open maze knownOnly (pose_p start) dirs
  /\ (dirs = [] -> e = start)
  /\ (dirs <> [] -> last dirs = Some (pose_d e)).
Proof.
  unfold getStepDownDirections.
  destruct (negb (isInsideOfField MAZE_SIZE (pose_p start))).
  { intros H. simplify_eq. by repeat split. }
  intros H.
  destruct (descend_loop_spec MAZE_SIZE stepTable maze knownOnly simple m _ _
              _ _ _ _ (pose_p start) H eq_refl I)
    as ((rest & Hrest & Hr0 & Hr1) & He & Ho & _ & _); [by constructor|].
  simpl in Hrest. subst rest. by repeat split.
Qed.

(** The directions that a descent returns lead from the start cell to the
    cell of the pose [end], every move through a side that lets the search
    through; the heading of [end] is the last direction, and without a
    direction [end] is the start pose. *)
Theorem descent_path (MAZE_SIZE : Z) (stepTable : list Z) (maze : Maze)
    (m : StepArray) (start : Pose) (knownOnly simple breakUnknown : bool)
    (dirs : Directions) (e : Pose) :
  getStepDownDirections MAZE_SIZE stepTable maze m start knownOnly simple
    breakUnknown = Some (dirs, e) ->
  path_end (pose_p start) dirs = pose_p e
  /\ path_open maze knownOnly (pose_p start) dirs
  /\ (dirs = [] -> e = start)
  /\ (dirs <> [] -> last dirs = Some (pose_d e)).
Proof.
  exact (@getStepDownDirections_path MAZE_SIZE stepTable maze m start
           knownOnly simple breakUnknown dirs e).
Qed.

Lemma descent_path_witness :
  path_end (pose_p (mkPose (mkPosition 3 3) Direction_Max))
    [West; West; West; South; South; South]
  = pose_p (mkPose (mkPosition 0 0) South)
  /\ path_open open4 false (pose_p (mkPose (mkPosition 3 3) Direction_Max))
       [West; West; West; South; South; South]
  /\ ([West; West; West; South; South; South] = [] ->
      mkPose (mkPosition 0 0) South = mkPose (mkPosition 3 3) Direction_Max)
  /\ ([West; West; West; South; South; South] <> [] ->
      last [West; West; West; South; South; South]
      = Some (pose_d (mkPose (mkPosition 0 0) South))).
Proof.
  apply (descent_path 4 realTable open4 open4_field
           (mkPose (mkPosition 3 3) Direction_Max) false false false).
  vm_compute. reflexivity.
Defined.

Lemma getStepDownDirections_known (MAZE_SIZE : Z) (stepTable : list Z)
    (maze : Maze) (m : StepArray) (start : Pose) (knownOnly simple : bool)
    (dirs : Directions) (e : Pose) :
  getStepDownDirections MAZE_SIZE stepTable maze m start knownOnly simple
    true = Some (dirs, e) ->
  Forall (fun c => unknownCount maze c = 0) (path_cells (pose_p start) dirs).
Proof.
  unfold getStepDownDirections.
  destruct (negb (isInsideOfField MAZE_SIZE (pose_p start))).
  { intros H. simplify_eq. constructor. }
  intros H.
  destruct (descend_loop_spec MAZE_SIZE stepTable maze knownOnly simple m _ _
              _ _ _ _ (pose_p start) H eq_refl I)
    as (_ & _ & _ & Hk & _); [by constructor|].
  by apply Hk.
Qed.

(** A descent that breaks at unknown walls never leaves a cell with a wall
    of unknown state: every cell of the returned path but its last one has
    four known walls. *)
Theorem descent_leaves_known_cells (MAZE_SIZE : Z) (stepTable : list Z)
    (maze : Maze) (m : StepArray) (start : Pose) (knownOnly simple : bool)
    (dirs : Directions) (e : Pose) :
  getStepDownDirections MAZE_SIZE stepTable maze m start knownOnly simple
    true = Some (dirs, e) ->
  Forall (fun c => unknownCount maze c = 0) (path_cells (pose_p start) dirs).
Proof.
  exact (@getStepDownDirections_known MAZE_SIZE stepTable maze m start
           knownOnly simple dirs e).
Qed.

Lemma descent_leaves_known_cells_witness :
  Forall (fun c => unknownCount partly_known c = 0)
    (path_cells (pose_p (mkPose (mkPosition 3 3) North)) [West; West]).
Proof.
  apply (descent_leaves_known_cells 4 realTable partly_known open4_field
           (mkPose (mkPosition 3 3) North) false false [West; West]
           (mkPose (mkPosition 1 3) West)).
  vm_compute. reflexivity.
Defined.

Lemma getStepDownDirections_steps (MAZE_SIZE : Z) (stepTable : list Z)
    (maze : Maze) (m : StepArray) (start : Pose) (knownOnly simple : bool)
    (dirs : Directions) (e : Pose) :
  isInsideOfField MAZE_SIZE (pose_p start) = true ->
  getStepDownDirections MAZE_SIZE stepTable maze m start knownOnly simple
    false = Some (dirs, e) ->
  exists v v',
    array_get m (getIndex MAZE_SIZE (pose_p start)) = Some v
    /\ array_get m (getIndex MAZE_SIZE (pose_p e)) = Some v'
    /\ v' <= v /\ (dirs <> [] -> v' < v).
Proof.
  unfold getStepDownDirections. intros ->. cbn [negb]. intros H.
  destruct (descend_loop_spec MAZE_SIZE stepTable maze knownOnly simple m _ _
              _ _ _ _ (pose_p start) H eq_refl I)
    as (_ & _ & _ & _ & Hv); [by constructor|].
  by apply Hv.
Qed.

(** A full descent never climbs: the step of the cell where it ends is at
    most the step of the start cell, and lower as soon as a direction is
    returned. *)
Theorem descent_lowers_step (MAZE_SIZE : Z) (stepTable : list Z)
    (maze : Maze) (m : StepArray) (start : Pose) (knownOnly simple : bool)
    (dirs : Directions) (e : Pose) :
  isInsideOfField MAZE_SIZE (pose_p start) = true ->
  getStepDownDirections MAZE_SIZE stepTable maze m start knownOnly simple
    false = Some (dirs, e) ->
  exists v v',
    array_get m (getIndex MAZE_SIZE (pose_p start)) = Some v
    /\ array_get m (getIndex MAZE_SIZE (pose_p e)) = Some v'
    /\ v' <= v /\ (dirs <> [] -> v' < v).
Proof.
  exact (@getStepDownDirections_steps MAZE_SIZE stepTable maze m start
           knownOnly simple dirs e).
Qed.

Lemma descent_lowers_step_witness :
  exists v v',
    array_get open4_field (getIndex 4 (pose_p (mkPose (mkPosition 3 1) East)))
    = Some v
    /\ array_get open4_field
         (getIndex 4 (pose_p (mkPose (mkPosition 0 0) South))) = Some v'
    /\ v' <= v /\ ([West; West; West; South] <> [] -> v' < v).
Proof.
  apply (descent_lowers_step 4 realTable open4 open4_field
           (mkPose (mkPosition 3 1) East) false false
           [West; West; West; South] (mkPose (mkPosition 0 0) South)).
  - reflexivity.
  - vm_compute. reflexivity.
Defined.
Section DescentBreak.

Variable MAZE_SIZE : Z.
Variable stepTable : list Z.
Variable maze : Maze.
Variables knownOnly simple : bool.
Variable m : StepArray.

(** The moves with and without the break at unknown walls. *)
Lemma move_run_break (fuel : nat) min_p min_d focus dirs fF dF sF :
  move_run fuel maze false min_p min_d focus dirs = Some (fF, dF, sF) ->
  sF = false
  /\ exists fT dT sT,
       move_run fuel maze true min_p min_d focus dirs = Some (fT, dT, sT)
       /\ (if sT
           then exists rest, dF = dT ++ rest /\ rest <> []
                             /\ unknownCount maze (pose_p fT) <> 0
           else fT = fF /\ dT = dF).
Proof.
  revert focus dirs. induction fuel as [|fuel IH]; intros focus dirs Hmove;
    cbn [move_run] in *.
  - destruct (decide (pose_p focus = min_p)); [|done]. simplify_eq.
    split; [done|]. by exists fF, dF, false.
  - destruct (decide (pose_p focus = min_p)).
    { simplify_eq. split; [done|]. by exists fF, dF, false. }
    cbn [andb] in Hmove.
    destruct (IH _ _ Hmove) as (-> & fT & dT & sT & HT & Hcase).
    split; [done|]. cbn [andb].
    destruct (negb (unknownCount maze (pose_p focus) =? 0)) eqn:Hu.
    + exists focus, dirs, true. split; [done|].
      destruct (move_run_spec _ _ _ _ _ _ _ _ _ _ Hmove)
        as (t & _ & Hd & _).
      exists ([min_d] ++ replicate t min_d). split.
      { by rewrite Hd, <- app_assoc. }
      split; [done|]. by apply negb_true_iff, Z.eqb_neq in Hu.
    + by exists fT, dT, sT.
Qed.

Lemma descend_loop_extends (fuel : nat) breakUnknown focus dirs dirs' e :
  descend_loop MAZE_SIZE stepTable fuel maze knownOnly simple breakUnknown m
    focus dirs = Some (dirs', e) ->
  exists rest, dirs' = dirs ++ rest.
Proof.
  revert focus dirs. induction fuel as [|fuel IH]; intros focus dirs Hloop;
    [done|].
  cbn [descend_loop] in Hloop.
  destruct (array_get m (getIndex MAZE_SIZE (pose_p focus)))
    as [focus_step|]; [|done].
  cbn [mbind option_bind] in Hloop.
  destruct (focus_step =? 0).
  { simplify_eq. exists []. by rewrite app_nil_r. }
  destruct (scan_dirs MAZE_SIZE stepTable maze knownOnly simple m
              (pose_p focus) focus_step Along4) as [[min_p min_d]|]; [|done].
  cbn [mbind option_bind] in Hloop.
  destruct (array_get m (getIndex MAZE_SIZE min_p)) as [min_step|]; [|done].
  cbn [mbind option_bind] in Hloop.
  destruct (focus_step <=? min_step).
  { simplify_eq. exists []. by rewrite app_nil_r. }
  destruct (move_run run_fuel maze breakUnknown min_p min_d focus dirs)
    as [[[focus1 dirs1] stop]|] eqn:Hmove; [|done].
  cbn [mbind option_bind] in Hloop.
  destruct (move_run_spec _ _ _ _ _ _ _ _ _ _ Hmove) as (t & _ & Hd & _).
  destruct stop.
  - simplify_eq. by eexists.
  - destruct (IH _ _ Hloop) as (rest & ->). subst dirs1.
    exists (replicate t min_d ++ rest). by rewrite app_assoc.
Qed.

(** The descent with the break follows the full descent until it stands on
    a cell with an unknown wall. *)
Lemma descend_loop_break (fuel : nat) focus dirs dF eF :
  descend_loop MAZE_SIZE stepTable fuel maze knownOnly simple false m focus
    dirs = Some (dF, eF) ->
  exists dT eT,
    descend_loop MAZE_SIZE stepTable fuel maze knownOnly simple true m focus
      dirs = Some (dT, eT)
    /\ ((dT = dF /\ eT = eF)
        \/ exists rest, dF = dT ++ rest /\ rest <> []
                        /\ unknownCount maze (pose_p eT) <> 0).
Proof.
  revert focus dirs. induction fuel as [|fuel IH]; intros focus dirs Hloop;
    [done|].
  cbn [descend_loop] in *.
  destruct (array_get m (getIndex MAZE_SIZE (pose_p focus)))
    as [focus_step|]; [|done].
  cbn [mbind option_bind] in *.
  destruct (focus_step =? 0).
  { simplify_eq. exists dF, eF. split; [done|by left]. }
  destruct (scan_dirs MAZE_SIZE stepTable maze knownOnly simple m
              (pose_p focus) focus_step Along4) as [[min_p min_d]|]; [|done].
  cbn [mbind option_bind] in *.
  destruct (array_get m (getIndex MAZE_SIZE min_p)) as [min_step|]; [|done].
  cbn [mbind option_bind] in *.
  destruct (focus_step <=? min_step).
  { simplify_eq. exists dF, eF. split; [done|by left]. }
  destruct (move_run run_fuel maze false min_p min_d focus dirs)
    as [[[fF dF1] sF]|] eqn:Hmove; [|done].
  cbn [mbind option_bind] in Hloop.
  destruct (move_run_break _ _ _ _ _ _ _ _ Hmove)
    as (-> & fT & dT & sT & HT & Hcase).
  rewrite HT. cbn [mbind option_bind]. destruct sT.
  - destruct Hcase as (rest & -> & Hrest & Hu).
    destruct (descend_loop_extends _ _ _ _ _ _ Hloop) as (rest' & ->).
    exists dT, fT. split; [done|]. right. exists (rest ++ rest').
    split; [by rewrite app_assoc|]. split; [|done].
    destruct rest; [done|]. done.
  - destruct Hcase as [-> ->]. by apply IH.
Qed.

End DescentBreak.

Lemma path_cells_middle (p : Position) (a b : Directions) :
  b <> [] -> In (path_end p a) (path_cells p (a ++ b)).
Proof.
  intros Hb. rewrite path_cells_app. apply in_or_app. right.
  destruct b as [|d b]; [done|]. by left.
Qed.

(** The descent that breaks at unknown walls returns a prefix of what the
    full descent returns: the same directions when every cell that the
    full path leaves has four known walls, fewer when one of these cells
    has a wall of unknown state. *)
Theorem descent_break_prefix (MAZE_SIZE : Z) (stepTable : list Z)
    (maze : Maze) (m : StepArray) (start : Pose) (knownOnly simple : bool)
    (dF : Directions) (eF : Pose) :
  getStepDownDirections MAZE_SIZE stepTable maze m start knownOnly simple
    false = Some (dF, eF) ->
  exists dT eT,
    getStepDownDirections MAZE_SIZE stepTable maze m start knownOnly simple
      true = Some (dT, eT)
    /\ (exists rest, dF = dT ++ rest)
    /\ (Forall (fun c => unknownCount maze c = 0)
          (path_cells (pose_p start) dF) -> dT = dF /\ eT = eF)
    /\ (Exists (fun c => unknownCount maze c <> 0)
          (path_cells (pose_p start) dF) ->
        (length dT < length dF)%nat).
Proof.
  intros HF.
  assert (HT : exists dT eT,
    getStepDownDirections MAZE_SIZE stepTable maze m start knownOnly simple
      true = Some (dT, eT)
    /\ ((dT = dF /\ eT = eF)
        \/ exists rest, dF = dT ++ rest /\ rest <> []
                        /\ unknownCount maze (pose_p eT) <> 0)).
  { unfold getStepDownDirections in *.
    destruct (negb (isInsideOfField MAZE_SIZE (pose_p start))).
    - injection HF as <- <-. exists [], start. split; [done|by left].
    - by apply descend_loop_break. }
  destruct HT as (dT & eT & HT & Hcase). exists dT, eT. split; [exact HT|].
  pose proof (getStepDownDirections_known _ _ _ _ _ _ _ _ _ HT) as Hknown.
  pose proof (getStepDownDirections_path _ _ _ _ _ _ _ _ _ _ HT) as (Hend & _).
  clear HF HT.
  destruct Hcase as [[-> ->]|(rest & -> & Hrest & Hu)].
  - split; [exists []; by rewrite app_nil_r|]. split; [done|].
    intros Hex. apply Exists_exists in Hex as (c & Hc & Hcu).
    rewrite Forall_forall in Hknown. by destruct Hcu, (Hknown c).
  - split; [by exists rest|]. split.
    + intros Hall. rewrite Forall_forall in Hall. destruct Hu.
      rewrite <- Hend. apply Hall, list_elem_of_In.
      by apply path_cells_middle.
    + intros _. rewrite length_app. destruct rest; [done|]. simpl. lia.
Qed.

Lemma descent_break_prefix_witness :
  exists dT eT,
    getStepDownDirections 4 realTable partly_known open4_field
      (mkPose (mkPosition 3 3) North) false false true = Some (dT, eT)
    /\ (exists rest, [West; West; West; South; South; South] = dT ++ rest)
    /\ (Forall (fun c => unknownCount partly_known c = 0)
          (path_cells (pose_p (mkPose (mkPosition 3 3) North))
             [West; West; West; South; South; South]) ->
        dT = [West; West; West; South; South; South]
        /\ eT = mkPose (mkPosition 0 0) South)
    /\ (Exists (fun c => unknownCount partly_known c <> 0)
          (path_cells (pose_p (mkPose (mkPosition 3 3) North))
             [West; West; West; South; South; South]) ->
        (length dT < length [West; West; West; South; South; South])%nat).
Proof.
  apply (descent_break_prefix 4 realTable partly_known open4_field
           (mkPose (mkPosition 3 3) North) false false).
  vm_compute. reflexivity.
Defined.
Section DescentTotal.

Variable MAZE_SIZE : Z.
Variable stepTable : list Z.
Hypothesis HN : 0 < MAZE_SIZE <= 127.
Variable maze : Maze.
Hypothesis Hclosed : maze_closed MAZE_SIZE maze.
Variables knownOnly simple : bool.
Hypothesis Htable : simple = false -> MAZE_SIZE <= Z.of_nat (length stepTable).
Variable m : StepArray.
Hypothesis Hlen : length m = Z.to_nat (MAZE_SIZE * MAZE_SIZE).
Hypothesis Hval : Forall (fun v => 0 <= v <= STEP_MAX) m.

Local Abbreviation inside p := (isInsideOfField MAZE_SIZE p = true).
Local Abbreviation get p := (array_get m (getIndex MAZE_SIZE p)).

Lemma get_inside p : inside p -> is_Some (get p).
Proof.
  intros Hp. apply array_get_Some.
  pose proof (getIndex_range MAZE_SIZE HN p Hp). lia.
Qed.

Lemma scan_run_total (fuel k : nat) focus focus_step d :
  In d Along4 ->
  inside (advance focus d k) ->
  room MAZE_SIZE (advance focus d k) d < Z.of_nat fuel ->
  Z.of_nat k + room MAZE_SIZE (advance focus d k) d <= MAZE_SIZE - 1 ->
  is_Some (scan_run MAZE_SIZE stepTable fuel maze knownOnly simple m
             focus_step d (advance focus d k) (Z.of_nat k + 1)).
Proof.
  intros Hd. revert k. induction fuel as [|fuel IH]; intros k Hin Hfuel Hroom.
  { pose proof (room_range MAZE_SIZE HN _ d Hd Hin). lia. }
  cbn [scan_run].
  destruct (isWall maze (advance focus d k) d
            || knownOnly && negb (isKnown maze (advance focus d k) d)) eqn:Hw;
    [by eauto|].
  assert (Hpass : passable maze knownOnly (advance focus d k) d = true).
  { unfold passable. by rewrite Hw. }
  assert (Hr : 0 < room MAZE_SIZE (advance focus d k) d)
    by (eapply passable_next_inside; eauto).
  destruct (next_inside MAZE_SIZE HN _ d Hd Hin Hr) as [Hin' Hr'].
  destruct (run_cost_Some MAZE_SIZE stepTable simple Htable (Z.of_nat k + 1))
    as [c Hc]; [lia|].
  rewrite Hc. cbn [mbind option_bind].
  change (Position_next (advance focus d k) d) with (advance focus d (S k))
    in *.
  destruct (get_inside _ Hin') as [cur Hcur]. rewrite Hcur.
  cbn [mbind option_bind].
  destruct (cur =? wrap16 (focus_step - c)); [by eauto|].
  replace (Z.of_nat k + 1 + 1) with (Z.of_nat (S k) + 1) by lia.
  apply IH; [done|lia|lia].
Qed.

Lemma scan_dirs_total focus focus_step (ds : list Direction) :
  (forall d, In d ds -> In d Along4) -> inside focus ->
  exists min_p min_d,
    scan_dirs MAZE_SIZE stepTable maze knownOnly simple m focus focus_step ds
    = Some (min_p, min_d)
    /\ inside min_p.
Proof.
  intros Hds Hfocus. induction ds as [|d ds IH]; cbn [scan_dirs].
  { by exists focus, Direction_Max. }
  assert (Hd : In d Along4) by (apply Hds; by left).
  pose proof (room_range MAZE_SIZE HN focus d Hd Hfocus) as Hroom.
  destruct (scan_run_total run_fuel 0 focus focus_step d Hd) as [r Hr];
    [done|simpl advance; unfold run_fuel; lia|simpl advance; lia|].
  change (scan_run MAZE_SIZE stepTable run_fuel maze knownOnly simple m
            focus_step d focus 1 = Some r) in Hr.
  rewrite Hr. cbn [mbind option_bind]. destruct r as [next|].
  - exists next, d. split; [done|].
    change (scan_run MAZE_SIZE stepTable run_fuel maze knownOnly simple m
              focus_step d (advance focus d 0) (Z.of_nat 0 + 1)
            = Some (Some next)) in Hr.
    destruct (scan_run_found _ _ _ _ _ _ _ _ _ _ _ _ Hr)
      as (j & c & _ & _ & -> & Hopen & _).
    eapply advance_room; eauto. intros i Hi. apply Hopen. lia.
  - apply IH. intros d' Hd'. apply Hds. by right.
Qed.

Lemma move_run_total (fuel n : nat) breakUnknown min_p min_d focus dirs :
  min_p = advance (pose_p focus) min_d n -> (n <= fuel)%nat ->
  is_Some (move_run fuel maze breakUnknown min_p min_d focus dirs).
Proof.
  revert n focus dirs. induction fuel as [|fuel IH]; intros n focus dirs Hmin Hn;
    cbn [move_run].
  - destruct (decide (pose_p focus = min_p)) as [|E]; [by eauto|].
    destruct E. replace n with 0%nat in Hmin by lia. done.
  - destruct (decide (pose_p focus = min_p)) as [|E]; [by eauto|].
    destruct (breakUnknown && negb (unknownCount maze (pose_p focus) =? 0));
      [by eauto|].
    destruct n as [|n]; [by destruct E|].
    apply (IH n); [|lia]. rewrite Hmin. clear.
    change (pose_p (Pose_next focus min_d))
      with (Position_next (pose_p focus) min_d).
    induction n as [|n IHn]; [done|]. simpl. by rewrite <- IHn.
Qed.

Lemma descend_loop_total (fuel : nat) breakUnknown focus dirs v :
  inside (pose_p focus) -> get (pose_p focus) = Some v ->
  v < Z.of_nat fuel ->
  is_Some (descend_loop MAZE_SIZE stepTable fuel maze knownOnly simple
             breakUnknown m focus dirs).
Proof.
  revert focus dirs v. induction fuel as [|fuel IH]; intros focus dirs v Hin Hv Hfuel.
  { unfold array_get in Hv. destruct (_ <? 0); [done|].
    rewrite Forall_lookup in Hval. apply Hval in Hv. lia. }
  cbn [descend_loop]. rewrite Hv. cbn [mbind option_bind].
  destruct (v =? 0); [by eauto|].
  destruct (scan_dirs_total (pose_p focus) v Along4 ltac:(auto) Hin)
    as (min_p & min_d & Hscan & Hmin).
  rewrite Hscan. cbn [mbind option_bind].
  destruct (get_inside _ Hmin) as [min_step Hms]. rewrite Hms.
  cbn [mbind option_bind].
  destruct (v <=? min_step) eqn:Hle; [by eauto|].
  destruct (scan_dirs_found _ _ _ _ _ _ _ _ _ _ _ Hscan)
    as [[-> _]|(Hd & j & c & Hj & Hminp & _)].
  { rewrite Hv in Hms. simplify_eq. lia. }
  destruct (move_run_total run_fuel (S j) breakUnknown min_p min_d focus dirs
              Hminp Hj) as [[[focus1 dirs1] stop] Hmove].
  rewrite Hmove. cbn [mbind option_bind]. destruct stop; [by eauto|].
  destruct (move_run_spec _ _ _ _ _ _ _ _ _ _ Hmove)
    as (_ & _ & _ & _ & _ & _ & _ & _ & Hstop).
  apply (IH _ _ min_step); rewrite ?Hstop; [done|done|lia].
Qed.

End DescentTotal.

Lemma getStepDownDirections_total (MAZE_SIZE : Z) (stepTable : list Z)
    (maze : Maze)
    (m : StepArray) (start : Pose) (knownOnly simple breakUnknown : bool) :
  0 < MAZE_SIZE <= 127 ->
  maze_closed MAZE_SIZE maze ->
  (simple = false -> MAZE_SIZE <= Z.of_nat (length stepTable)) ->
  length m = Z.to_nat (MAZE_SIZE * MAZE_SIZE) ->
  Forall (fun v => 0 <= v <= STEP_MAX) m ->
  exists dirs e,
    getStepDownDirections MAZE_SIZE stepTable maze m start knownOnly simple
      breakUnknown = Some (dirs, e).
Proof.
  intros HN Hclosed Htable Hlen Hval. unfold getStepDownDirections.
  destruct (isInsideOfField MAZE_SIZE (pose_p start)) eqn:Hin; cbn [negb];
    [|by eauto].
  assert (is_Some (array_get m (getIndex MAZE_SIZE (pose_p start))))
    as [v Hv] by (eapply get_inside; eauto).
  destruct (descend_loop_total MAZE_SIZE stepTable HN maze Hclosed knownOnly
              simple Htable m Hlen Hval descend_fuel breakUnknown start [] v
              Hin Hv) as [[dirs e] Hr].
  - unfold array_get in Hv. destruct (_ <? 0); [done|].
    rewrite Forall_lookup in Hval. apply Hval in Hv.
    unfold descend_fuel, STEP_MAX in *. lia.
  - by exists dirs, e.
Qed.

(** The descent ends without an undefined access, for every maze with a
    walled border and every field of one [step_t] per cell: every turn of
    its loop that goes on lowers the step of the focus. *)
Theorem descent_ends (MAZE_SIZE : Z) (stepTable : list Z) (maze : Maze)
    (m : StepArray) (start : Pose) (knownOnly simple breakUnknown : bool) :
  0 < MAZE_SIZE <= 127 ->
  maze_closed MAZE_SIZE maze ->
  (simple = false -> MAZE_SIZE <= Z.of_nat (length stepTable)) ->
  length m = Z.to_nat (MAZE_SIZE * MAZE_SIZE) ->
  Forall (fun v => 0 <= v <= STEP_MAX) m ->
  exists dirs e,
    getStepDownDirections MAZE_SIZE stepTable maze m start knownOnly simple
      breakUnknown = Some (dirs, e).
Proof.
  exact (@getStepDownDirections_total MAZE_SIZE stepTable maze m start
           knownOnly simple breakUnknown).
Qed.

Lemma descent_ends_witness :
  exists dirs e,
    getStepDownDirections 4 realTable partly_known open4_field
      (mkPose (mkPosition 3 3) North) true false true = Some (dirs, e).
Proof.
  apply (descent_ends 4 realTable partly_known open4_field).
  - lia.
  - apply (open_maze_closed 4 true 0 3).
  - intros _. change (Z.of_nat (length realTable)) with 32. lia.
  - reflexivity.
  - unfold open4_field, STEP_MAX. repeat constructor; lia.
Defined.
(** ** The shortest directions *)

Lemma descent_at_zero (MAZE_SIZE : Z) (stepTable : list Z) (maze : Maze)
    (m : StepArray) (start : Pose) (knownOnly simple breakUnknown : bool)
    (dirs : Directions) (e : Pose) :
  array_get m (getIndex MAZE_SIZE (pose_p start)) = Some 0 ->
  getStepDownDirections MAZE_SIZE stepTable maze m start knownOnly simple
    breakUnknown = Some (dirs, e) ->
  dirs = [] /\ e = start.
Proof.
  intros Hz. unfold getStepDownDirections.
  destruct (negb (isInsideOfField MAZE_SIZE (pose_p start)));
    [intros H; by simplify_eq|].
  assert (exists n, descend_fuel = S n) as [n ->].
  { exists (Z.to_nat STEP_MAX). unfold descend_fuel.
    replace (STEP_MAX + 1) with (Z.succ STEP_MAX) by lia.
    apply Z2Nat.inj_succ. unfold STEP_MAX. lia. }
  cbn [descend_loop]. rewrite Hz. cbn [mbind option_bind Z.eqb].
  intros H. by simplify_eq.
Qed.

(** What [calcShortestDirections] returns: the directions of the full
    descent from the start over the field just solved when that descent
    ends on step 0, and no direction otherwise. The result is empty when
    the descent ends on another step, and also when the start cell itself
    has step 0. *)
Lemma calcShortestDirections_spec (MAZE_SIZE : Z) (stepTable : list Z)
    (PQ : PriorityQueue) (maze : Maze) (start : Position) (dest : Positions)
    (knownOnly simple : bool) (m : StepArray) (r : Directions) :
  calcShortestDirections MAZE_SIZE stepTable maze start dest knownOnly simple
  = Some (m, r) ->
  update MAZE_SIZE stepTable maze dest knownOnly simple = Some m
  /\ exists dirs e vs ve,
       getStepDownDirections MAZE_SIZE stepTable maze m
         (mkPose start Direction_Max) knownOnly simple false = Some (dirs, e)
       /\ array_get m (getIndex MAZE_SIZE start) = Some vs
       /\ array_get m (getIndex MAZE_SIZE (pose_p e)) = Some ve
       /\ (r <> [] -> r = dirs /\ ve = 0 /\ vs <> 0)
       /\ (r = [] <-> ve <> 0 \/ vs = 0).
Proof.
  unfold calcShortestDirections. intros H.
  destruct (update MAZE_SIZE stepTable maze dest knownOnly simple)
    as [m'|] eqn:Hm; [|done].
  cbn [mbind option_bind] in H.
  destruct (getStepDownDirections MAZE_SIZE stepTable maze m'
              (mkPose start Direction_Max) knownOnly simple false)
    as [[dirs e]|] eqn:Hd; [|done].
  cbn [mbind option_bind] in H.
  destruct (array_get m' (getIndex MAZE_SIZE (pose_p e))) as [ve|] eqn:Hve;
    [|done].
  cbn [mbind option_bind] in H. injection H as <- <-.
  clear Hm. split; [done|].
  destruct (getStepDownDirections_path _ _ _ _ _ _ _ _ _ _ Hd) as (Hend & _ & He0 & _).
  assert (Hvs : exists vs, array_get m' (getIndex MAZE_SIZE start) = Some vs
                           /\ (dirs = [] -> vs = ve)
                           /\ (vs = 0 -> dirs = [])).
  { destruct (decide (dirs = [])) as [->|Hne].
    - rewrite (He0 eq_refl) in Hve. simpl in Hve. exists ve. by repeat split.
    - destruct (isInsideOfField MAZE_SIZE start) eqn:Hin.
      + destruct (getStepDownDirections_steps MAZE_SIZE stepTable maze m'
                    (mkPose start Direction_Max) knownOnly simple dirs e Hin
                    Hd)
          as (vs & v' & Hvs & Hv' & _ & _). simpl in Hvs.
        exists vs. split; [done|]. split; [done|]. intros ->.
        by destruct (descent_at_zero MAZE_SIZE stepTable maze m'
                       (mkPose start Direction_Max) knownOnly simple false
                       dirs e Hvs Hd).
      + unfold getStepDownDirections in Hd. simpl pose_p in Hd.
        rewrite Hin in Hd. simpl in Hd. by simplify_eq. }
  destruct Hvs as (vs & Hvs & H1 & H2).
  exists dirs, e, vs, ve. do 3 (split; [done|]).
  destruct (ve =? 0) eqn:Ez.
  - apply Z.eqb_eq in Ez. subst ve. split.
    + intros Hne. split; [done|]. split; [done|]. intros ->.
      by apply Hne, H2.
    + split.
      * intros ->. right. by apply H1.
      * intros [Hne|Hz]; [done|by apply H2].
  - apply Z.eqb_neq in Ez. split; [done|]. split; [by left|done].
Qed.

Lemma path_open_inside (MAZE_SIZE : Z) (maze : Maze) (knownOnly : bool)
    (p : Position) (dirs : Directions) :
  0 < MAZE_SIZE <= 127 -> maze_closed MAZE_SIZE maze ->
  isInsideOfField MAZE_SIZE p = true ->
  path_open maze knownOnly p dirs ->
  isInsideOfField MAZE_SIZE (path_end p dirs) = true.
Proof.
  intros HN Hclosed. revert p. induction dirs as [|d ds IH]; intros p Hp Hopen;
    [done|].
  destruct Hopen as (Hd & Hpass & Hopen). unfold path_end. simpl.
  apply IH; [|done].
  apply (next_inside MAZE_SIZE HN p d Hd Hp).
  eapply passable_next_inside; eauto.
Qed.

(** The directions that [calcShortestDirections] returns, when there are
    any, lead from the start through sides that let the search through to a
    cell of step 0 of the field just solved. *)
Theorem shortest_directions_lead_to_zero (MAZE_SIZE : Z) (stepTable : list Z)
    (PQ : PriorityQueue) (maze : Maze) (start : Position) (dest : Positions)
    (knownOnly simple : bool) (m : StepArray) (r : Directions) :
  calcShortestDirections MAZE_SIZE stepTable maze start dest knownOnly simple
  = Some (m, r) ->
  r <> [] ->
  path_open maze knownOnly start r
  /\ array_get m (getIndex MAZE_SIZE (path_end start r)) = Some 0.
Proof.
  intros H Hr.
  destruct (calcShortestDirections_spec _ _ _ _ _ _ _ _ _ _ H)
    as (_ & dirs & e & vs & ve & Hd & _ & Hve & Hne & _).
  destruct (Hne Hr) as (-> & -> & _).
  destruct (getStepDownDirections_path _ _ _ _ _ _ _ _ _ _ Hd) as (Hend & Hopen & _).
  simpl in Hend, Hopen. by rewrite Hend.
Qed.

Lemma shortest_directions_lead_to_zero_witness :
  path_open open4 false (mkPosition 3 3)
    [West; West; West; South; South; South]
  /\ array_get open4_field
       (getIndex 4 (path_end (mkPosition 3 3)
                      [West; West; West; South; South; South])) = Some 0.
Proof.
  apply (shortest_directions_lead_to_zero 4 realTable lifo_queue open4
           (mkPosition 3 3) [mkPosition 0 0] false false).
  - vm_compute. reflexivity.
  - discriminate.
Defined.

(** Asked for the way from a destination, [calcShortestDirections] returns
    no direction, as it does when no way is known. *)
Theorem shortest_directions_from_destination (MAZE_SIZE : Z)
    (stepTable : list Z) (PQ : PriorityQueue) (maze : Maze) (start : Position)
    (dest : Positions) (knownOnly simple : bool) (m : StepArray)
    (r : Directions) :
  0 < MAZE_SIZE <= 127 ->
  maze_closed MAZE_SIZE maze ->
  (simple = false -> table_ok MAZE_SIZE stepTable) ->
  In start dest -> isInsideOfField MAZE_SIZE start = true ->
  calcShortestDirections MAZE_SIZE stepTable maze start dest knownOnly simple
  = Some (m, r) ->
  r = [].
Proof.
  intros HN Hclosed Htable Hs Hin H.
  destruct (calcShortestDirections_spec _ _ _ _ _ _ _ _ _ _ H)
    as (Hm & dirs & e & vs & ve & _ & Hvs & _ & _ & Hiff).
  apply Hiff. right.
  pose proof (update_dest_get MAZE_SIZE stepTable PQ maze dest
                knownOnly simple m start HN Hclosed Htable Hm Hs Hin) as Hz.
  clear H Hm. unfold getStep in Hz. rewrite Hin, Hvs in Hz. done.
Qed.

Lemma shortest_directions_from_destination_witness :
  @nil Direction = [].
Proof.
  apply (shortest_directions_from_destination 4 realTable lifo_queue open4
           (mkPosition 0 0) [mkPosition 0 0] false false open4_field).
  - lia.
  - apply open_maze_closed.
  - intros _. apply table_ok_real. lia.
  - left. reflexivity.
  - reflexivity.
  - vm_compute. reflexivity.
Defined.

(** [calcShortestDirections] ends without an undefined access for every
    start cell inside of the field of a maze with a walled border. *)
Theorem shortest_directions_ends (MAZE_SIZE : Z) (stepTable : list Z)
    (PQ : PriorityQueue) (maze : Maze) (start : Position) (dest : Positions)
    (knownOnly simple : bool) :
  0 < MAZE_SIZE <= 127 ->
  maze_closed MAZE_SIZE maze ->
  (simple = false -> table_ok MAZE_SIZE stepTable) ->
  isInsideOfField MAZE_SIZE start = true ->
  exists m r,
    calcShortestDirections MAZE_SIZE stepTable maze start dest knownOnly
      simple = Some (m, r).
Proof.
  intros HN Hclosed Htable Hin.
  destruct (update_total MAZE_SIZE stepTable PQ maze dest knownOnly simple HN
              Hclosed Htable) as (m & Hm & Hlen & Hval).
  assert (Htable' : simple = false -> MAZE_SIZE <= Z.of_nat (length stepTable)).
  { intros E. by destruct (Htable E). }
  destruct (getStepDownDirections_total MAZE_SIZE stepTable maze m
              (mkPose start Direction_Max) knownOnly simple false HN Hclosed
              Htable' Hlen Hval) as (dirs & e & Hd).
  unfold calcShortestDirections. rewrite Hm. clear Hm.
  cbn [mbind option_bind]. rewrite Hd. cbn [mbind option_bind].
  destruct (getStepDownDirections_path _ _ _ _ _ _ _ _ _ _ Hd) as (Hend & Hopen & _).
  simpl in Hend, Hopen.
  pose proof (path_open_inside MAZE_SIZE maze knownOnly start dirs HN Hclosed
                Hin Hopen) as Hine.
  rewrite Hend in Hine.
  destruct (array_get_Some m (getIndex MAZE_SIZE (pose_p e))) as [ve Hve].
  { pose proof (getIndex_range MAZE_SIZE HN _ Hine). lia. }
  rewrite Hve. cbn [mbind option_bind]. by eauto.
Qed.

Lemma shortest_directions_ends_witness :
  exists m r,
    @calcShortestDirections 4 realTable fifo_queue partly_known
      (mkPosition 3 3) [mkPosition 0 0] true false = Some (m, r).
Proof.
  apply (shortest_directions_ends 4 realTable fifo_queue partly_known).
  - lia.
  - apply (open_maze_closed 4 true 0 3).
  - intros _. apply table_ok_real. lia.
  - reflexivity.
Defined.
(** ** The candidates of the next move *)

Section SortKey.

Context {A : Type}.
Variable key : A -> Z.

Local Abbreviation desc := (StronglySorted (fun a b : A => key b <= key a)).

Lemma linear_insert_desc (x : A) (r : list A) :
  desc r -> desc (linear_insert (fun a b => key a <? key b) x r).
Proof.
  induction 1 as [|y r Hr IH Hy]; simpl; [by repeat constructor|].
  destruct (key x <? key y) eqn:E.
  - apply Z.ltb_lt in E. constructor; [done|].
    apply Forall_forall. intros z Hz.
    rewrite (linear_insert_perm (fun a b => key a <? key b) x r) in Hz.
    apply list_elem_of_In in Hz.
    destruct Hz as [<-|Hz]; [lia|].
    rewrite Forall_forall in Hy. apply Hy. by apply list_elem_of_In.
  - apply Z.ltb_ge in E. constructor; [by constructor|].
    constructor; [done|]. eapply Forall_impl; [exact Hy|].
    intros z Hz. simpl in Hz. lia.
Qed.

Lemma desc_before (a b : A) (l : list A) :
  desc l -> before b a l -> key a <= key b.
Proof.
  intros Hl (l1 & l2 & l3 & ->). induction l1 as [|x l1 IH]; simpl in Hl.
  - apply StronglySorted_inv in Hl as [_ Hl]. rewrite Forall_forall in Hl.
    apply Hl. apply list_elem_of_In, in_or_app. right. by left.
  - apply StronglySorted_inv in Hl as [Hl _]. by apply IH.
Qed.

Lemma before_rev (a b : A) (l : list A) : before a b (rev l) -> before b a l.
Proof.
  intros (l1 & l2 & l3 & E). exists (rev l3), (rev l2), (rev l1).
  rewrite <- (rev_involutive l), E.
  rewrite rev_app_distr. simpl. rewrite rev_app_distr. simpl.
  by rewrite <- !app_assoc.
Qed.

(** The first pass of the candidates orders by the key: an element that
    comes before another one has at most its key. *)
Lemma std_sort_key (a b : A) (l : list A) :
  before a b (std_sort (fun a b => key a <? key b) l) -> key a <= key b.
Proof.
  unfold std_sort. intros H%before_rev. revert H. apply desc_before.
  assert (Hacc : forall acc, desc acc ->
            desc (foldl (fun racc x =>
                           linear_insert (fun a b => key a <? key b) x racc)
                    acc l)).
  { induction l as [|x l IH]; intros acc Hacc; simpl; [done|].
    by apply IH, linear_insert_desc. }
  apply Hacc. constructor.
Qed.

End SortKey.

Section BeforeMore.

Context {A : Type}.

Lemma before_cons (a b x : A) (l : list A) :
  before a b l -> before a b (x :: l).
Proof. intros (l1 & l2 & l3 & ->). by exists (x :: l1), l2, l3. Qed.

Lemma before_filter_inv (k : A -> bool) (a b : A) (l : list A) :
  before a b (List.filter k l) -> before a b l.
Proof.
  intros (l1 & l2 & l3 & E). revert l1 E.
  induction l as [|x l IH]; intros l1 E; simpl in E.
  { by destruct l1. }
  destruct (k x) eqn:Ex.
  - destruct l1 as [|y l1]; simpl in E.
    + injection E as -> E.
      assert (In b l) as Hb.
      { assert (In b (List.filter k l)) as Hb.
        { rewrite E. apply in_or_app. right. by left. }
        by apply filter_In in Hb as [? _]. }
      apply in_split in Hb as (u & v & ->). by exists [], u, v.
    + injection E as -> E. apply before_cons. by eapply IH.
  - apply before_cons. by eapply IH.
Qed.

Lemma before_app_inv (a b : A) (u v : list A) :
  before a b (u ++ v) -> ~ In a u -> before a b v.
Proof.
  intros (l1 & l2 & l3 & E) Ha. revert l1 E Ha.
  induction u as [|x u IH]; intros l1 E Ha; simpl in E.
  { by exists l1, l2, l3. }
  destruct l1 as [|y l1]; simpl in E.
  - injection E as -> E. destruct Ha. by left.
  - injection E as -> E. apply (IH l1 E). intros H. apply Ha. by right.
Qed.

Lemma before_rev_inv (a b : A) (l : list A) :
  before a b l -> before b a (rev l).
Proof.
  intros (l1 & l2 & l3 & ->). exists (rev l3), (rev l2), (rev l1).
  rewrite rev_app_distr. simpl. rewrite rev_app_distr. simpl.
  by rewrite <- !app_assoc.
Qed.

Lemma before_app_l (a b : A) (u v : list A) :
  before a b (u ++ v) -> ~ In b v -> before a b u.
Proof.
  intros H Hb. apply before_rev_inv in H. rewrite rev_app_distr in H.
  apply before_app_inv in H; [|by rewrite <- in_rev].
  apply before_rev_inv in H. by rewrite rev_involutive in H.
Qed.

End BeforeMore.

Section CandidateOrder.

Variable MAZE_SIZE : Z.
Variable maze : Maze.
Variable m : StepArray.
Variable focus : Pose.

Local Abbreviation step_of d :=
  (getStep MAZE_SIZE m (Position_next (pose_p focus) d)).
Local Abbreviation turns :=
  (map (fun r => Direction_of_int (pose_d focus + r))
     [Front; Left; Right; Back]).

Lemma turns_NoDup : NoDup turns.
Proof.
  unfold Direction_of_int, Front, Left, Right, Back. cbn [map].
  change 7 with (Z.ones 3). rewrite !Z.land_ones by lia.
  change (2 ^ 3) with 8.
  repeat (apply NoDup_cons; split;
            [rewrite ?elem_of_cons, elem_of_nil; Z.div_mod_to_equations; lia|]).
  constructor.
Qed.

Lemma candidates_perm :
  getNextDirectionCandidates MAZE_SIZE maze m focus
  ≡ₚ filter (fun d => negb (isWall maze (pose_p focus) d)
                       && negb (step_of d =? STEP_MAX) = true) turns.
Proof.
  unfold getNextDirectionCandidates. by rewrite !std_sort_perm.
Qed.

End CandidateOrder.

Lemma candidates_In (MAZE_SIZE : Z) (maze : Maze) (m : StepArray)
    (focus : Pose) (d : Direction) :
  In d (getNextDirectionCandidates MAZE_SIZE maze m focus)
  <-> open_candidate MAZE_SIZE maze m focus d.
Proof.
  rewrite <- list_elem_of_In, candidates_perm.
  rewrite list_elem_of_filter, list_elem_of_In. unfold open_candidate.
  rewrite andb_true_iff, !negb_true_iff, Z.eqb_neq. tauto.
Qed.

(** The candidates that [getNextDirectionCandidates] returns are the sides of
    the cell of the pose without a wall whose neighbour has a step below the
    sentinel, each of them once: the three passes only reorder them. *)
Theorem candidates_are_open_sides (MAZE_SIZE : Z) (maze : Maze)
    (m : StepArray) (focus : Pose) :
  NoDup (getNextDirectionCandidates MAZE_SIZE maze m focus)
  /\ forall d,
       In d (getNextDirectionCandidates MAZE_SIZE maze m focus)
       <-> open_candidate MAZE_SIZE maze m focus d.
Proof.
  split.
  - rewrite candidates_perm. apply NoDup_filter, turns_NoDup.
  - intros d. apply candidates_In.
Qed.

(** The last pass of [getNextDirectionCandidates] puts straight on first:
    when the heading of the pose is a candidate, it is the first one. *)
Theorem candidates_heading_first (MAZE_SIZE : Z) (maze : Maze)
    (m : StepArray) (focus : Pose) :
  In (pose_d focus) (getNextDirectionCandidates MAZE_SIZE maze m focus) ->
  head (getNextDirectionCandidates MAZE_SIZE maze m focus)
  = Some (pose_d focus).
Proof.
  unfold getNextDirectionCandidates. rewrite std_sort_first.
  set (s2 := std_sort _ (std_sort _ _)). intros H.
  assert (In (pose_d focus) (List.filter (fun d => d =? pose_d focus) s2))
    as Hin.
  { apply in_app_or in H as [H|H]; [by apply in_rev in H|].
    apply filter_In in H as [_ H]. by rewrite Z.eqb_refl in H. }
  assert (Forall (fun d => d = pose_d focus)
            (rev (List.filter (fun d => d =? pose_d focus) s2))) as Hall.
  { apply Forall_forall. intros d Hd%list_elem_of_In.
    apply in_rev in Hd.
    apply filter_In in Hd as [_ Hd]. by apply Z.eqb_eq in Hd. }
  apply in_rev in Hin.
  destruct (rev _) as [|x r]; [done|]. simpl.
  by apply Forall_cons in Hall as [-> _].
Qed.

Lemma candidates_heading_first_witness :
  head (getNextDirectionCandidates 4 candidates_maze candidates_field
          candidates_pose)
  = Some (pose_d candidates_pose).
Proof.
  apply (candidates_heading_first 4 candidates_maze candidates_field
           candidates_pose).
  vm_compute. tauto.
Defined.

(** The first pass of [getNextDirectionCandidates] survives the other two
    among the candidates that they do not tell apart: of two candidates,
    neither of them the heading, whose cells both have or both have not a
    wall of unknown state, the one that comes first has at most the step of
    the other. *)
Theorem candidates_cost_order (MAZE_SIZE : Z) (maze : Maze) (m : StepArray)
    (focus : Pose) (d1 d2 : Direction) :
  before d1 d2 (getNextDirectionCandidates MAZE_SIZE maze m focus) ->
  d1 <> pose_d focus -> d2 <> pose_d focus ->
  (unknownCount maze (Position_next (pose_p focus) d1) = 0
   <-> unknownCount maze (Position_next (pose_p focus) d2) = 0) ->
  getStep MAZE_SIZE m (Position_next (pose_p focus) d1)
  <= getStep MAZE_SIZE m (Position_next (pose_p focus) d2).
Proof.
  unfold getNextDirectionCandidates.
  rewrite std_sort_first, std_sort_class.
  set (u := fun d =>
              negb (unknownCount maze (Position_next (pose_p focus) d) =? 0)).
  set (s1 := std_sort _ _). intros Hb H1 H2 Hu.
  assert (u d1 = u d2) as Hu'.
  { unfold u. destruct (Z.eqb_spec (unknownCount maze
                          (Position_next (pose_p focus) d1)) 0) as [E|E],
      (Z.eqb_spec (unknownCount maze
                          (Position_next (pose_p focus) d2)) 0) as [E'|E'];
      tauto. }
  apply before_app_inv in Hb.
  2:{ intros Hin%in_rev. apply filter_In in Hin as [_ Hin].
      by apply Z.eqb_eq in Hin. }
  apply before_filter_inv in Hb.
  apply (std_sort_key (fun d => getStep MAZE_SIZE m
                                  (Position_next (pose_p focus) d)) d1 d2
           (filter (fun d => negb (isWall maze (pose_p focus) d)
                    && negb (getStep MAZE_SIZE m
                               (Position_next (pose_p focus) d) =? STEP_MAX)
                    = true)
             (map (fun r => Direction_of_int (pose_d focus + r))
                [Front; Left; Right; Back]))).
  fold s1. destruct (u d2) eqn:E2.
  - apply before_app_l in Hb.
    + by apply before_filter_inv in Hb.
    + intros Hin. apply filter_In in Hin as [_ Hin]. change (negb (u d2) = true) in Hin. by rewrite E2 in Hin.
  - apply before_app_inv in Hb.
    + by apply before_filter_inv in Hb.
    + intros Hin. apply filter_In in Hin as [_ Hin]. congruence.
Qed.

Lemma candidates_cost_order_witness :
  getStep 4 open4_field (Position_next (pose_p (mkPose (mkPosition 1 1) East)) South)
  <= getStep 4 open4_field
       (Position_next (pose_p (mkPose (mkPosition 1 1) East)) North).
Proof.
  apply (candidates_cost_order 4 open4 open4_field
           (mkPose (mkPosition 1 1) East) South North).
  - exists [East], [West], []. vm_compute. reflexivity.
  - discriminate.
  - discriminate.
  - vm_compute. tauto.
Defined.
(** ** The straight extension *)

Section Append.

Variable maze : Maze.
Variables knownOnly diagEnabled : bool.

Lemma append_cond_passable (p : Position) (d : Direction) :
  negb (isWall maze p d) && (negb knownOnly || isKnown maze p d)
  = passable maze knownOnly p d.
Proof.
  unfold passable. by destruct (isWall _ _ _), knownOnly, (isKnown _ _ _).
Qed.

Lemma straight_candidates_dir (prev dir : Direction) :
  In dir (straight_candidates diagEnabled prev dir).
Proof.
  unfold straight_candidates.
  destruct (diagEnabled && _); [right; by left|].
  destruct (diagEnabled && _); [right; by left|by left].
Qed.

Lemma straight_candidates_off (prev dir : Direction) :
  diagEnabled = false -> straight_candidates diagEnabled prev dir = [dir].
Proof. intros ->. done. Qed.

Lemma straight_candidates_cases (prev dir : Direction) :
  0 <= prev < 8 -> 0 <= dir < 8 ->
  straight_candidates diagEnabled prev dir = [dir]
  \/ (straight_candidates diagEnabled prev dir = [prev; dir]
      /\ (dir = Direction_of_int (prev + Left)
          \/ dir = Direction_of_int (prev + Right))).
Proof.
  intros Hp Hd. unfold straight_candidates, Direction_of_int, Left, Right.
  change 7 with (Z.ones 3). rewrite !Z.land_ones by lia.
  change (2 ^ 3) with 8.
  destruct diagEnabled; [|by left]. cbn [andb].
  destruct (Z.eqb_spec ((dir - prev) mod 8) 2) as [E|E].
  - right. split; [|left]; [f_equal|]; Z.div_mod_to_equations; lia.
  - destruct (Z.eqb_spec ((dir - prev) mod 8) 6) as [E'|E']; [|by left].
    right. split; [|right]; [f_equal|]; Z.div_mod_to_equations; lia.
Qed.

Lemma path_passable_app (p : Position) (ds1 ds2 : Directions) :
  path_passable maze knownOnly p (ds1 ++ ds2)
  <-> path_passable maze knownOnly p ds1
      /\ path_passable maze knownOnly (path_end p ds1) ds2.
Proof.
  revert p. induction ds1 as [|d ds IH]; intros p; simpl; [tauto|].
  rewrite IH. unfold path_end. simpl. tauto.
Qed.

Lemma path_passable_replicate (p : Position) (d : Direction) (k : nat) :
  path_passable maze knownOnly p (replicate k d)
  <-> forall j, (j < k)%nat ->
        passable maze knownOnly (advance p d j) d = true.
Proof.
  induction k as [|k IH].
  { simpl. split; [intros _ j Hj; lia|done]. }
  replace (replicate (S k) d) with (replicate k d ++ [d]).
  2:{ clear IH. induction k; simpl; [done|]. by f_equal. }
  rewrite path_passable_app, IH, path_end_replicate. simpl. split.
  - intros (H1 & H2 & _) j Hj.
    destruct (decide (j = k)) as [->|Hne]; [done|]. apply H1. lia.
  - intros H. split; [|split; [|done]].
    + intros j Hj. apply H. lia.
    + apply H. lia.
Qed.

(** What the loop leaves: the directions it was given and then moves through
    passable sides, up to a cell where the way straight on is blocked. *)
Lemma append_loop_spec (fuel : nat) :
  forall (p : Position) (prev dir : Direction) (dirs r : Directions),
    append_loop fuel maze knownOnly diagEnabled p prev dir dirs = Some r ->
    exists ext,
      r = dirs ++ ext
      /\ path_passable maze knownOnly p ext
      /\ passable maze knownOnly (path_end p ext) (default dir (last ext))
         = false
      /\ (diagEnabled = false -> ext = replicate (length ext) dir).
Proof.
  induction fuel as [|fuel IH]; intros p prev dir dirs r H; [done|].
  cbn [append_loop] in H.
  destruct (find _ _) as [d|] eqn:Hfind.
  - apply find_some in Hfind as [Hin Hcond].
    rewrite append_cond_passable in Hcond.
    destruct (IH _ _ _ _ _ H) as (ext & -> & Hpass & Hblock & Hoff).
    exists (d :: ext). split; [by rewrite <- app_assoc|].
    split; [done|]. split.
    + replace (default dir (last (d :: ext))) with (default d (last ext)).
      * exact Hblock.
      * destruct ext as [|x ext]; [done|]. rewrite last_cons_cons.
        destruct (last (x :: ext)) eqn:E; [done|]. by apply last_None in E.
    + intros Hd. rewrite (straight_candidates_off _ _ Hd) in Hin.
      destruct Hin as [<-|[]]. simpl. f_equal. by apply Hoff.
  - simplify_eq. exists []. split; [by rewrite app_nil_r|].
    split; [done|]. split; [|done].
    rewrite <- append_cond_passable.
    exact (find_none _ _ Hfind _ (straight_candidates_dir prev dir)).
Qed.

(** Between two directions of the field the loop appends no third one. *)
Lemma append_loop_dirs (fuel : nat) :
  forall (p : Position) (prev dir : Direction) (dirs r : Directions),
    0 <= prev < 8 -> 0 <= dir < 8 ->
    append_loop fuel maze knownOnly diagEnabled p prev dir dirs = Some r ->
    Forall (fun d => d = prev \/ d = dir) (drop (length dirs) r).
Proof.
  induction fuel as [|fuel IH]; intros p prev dir dirs r Hp Hd H; [done|].
  cbn [append_loop] in H.
  destruct (find _ _) as [d|] eqn:Hfind.
  - apply find_some in Hfind as [Hin _].
    assert (d = prev \/ d = dir) as Hcase.
    { destruct (straight_candidates_cases prev dir Hp Hd) as [E|[E _]];
        rewrite E in Hin; simpl in Hin; intuition congruence. }
    assert (0 <= d < 8) as Hd' by (by destruct Hcase as [->| ->]).
    pose proof (IH _ _ _ _ _ Hd Hd' H) as Hall.
    destruct (append_loop_spec _ _ _ _ _ _ H) as (ext & -> & _).
    rewrite <- app_assoc in Hall |- *. rewrite length_app in Hall.
    rewrite drop_app_length. 
    replace (dirs ++ [d] ++ ext) with ((dirs ++ [d]) ++ ext) in Hall
      by (by rewrite <- app_assoc).
    replace (length dirs + length [d])%nat with (length (dirs ++ [d])) in Hall
      by (by rewrite length_app).
    rewrite drop_app_length in Hall. constructor; [done|].
    eapply Forall_impl; [exact Hall|]. simpl. intros x [->| ->]; intuition congruence.
  - simplify_eq. rewrite drop_all. constructor.
Qed.

Lemma append_loop_fuel (fuel : nat) :
  forall (p : Position) (prev dir : Direction) (dirs r : Directions)
         (fuel' : nat),
    append_loop fuel maze knownOnly diagEnabled p prev dir dirs = Some r ->
    (fuel <= fuel')%nat ->
    append_loop fuel' maze knownOnly diagEnabled p prev dir dirs = Some r.
Proof.
  induction fuel as [|fuel IH]; intros p prev dir dirs r fuel' H Hle; [done|].
  destruct fuel' as [|fuel']; [lia|]. cbn [append_loop] in H |- *.
  destruct (find _ _) as [d|]; [|done]. apply (IH _ _ _ _ _ _ H). lia.
Qed.

End Append.

Lemma Along4_four (d : Direction) :
  In d Along4 -> d = 0 \/ d = 2 \/ d = 4 \/ d = 6.
Proof. unfold Along4, East, North, West, South. simpl. intuition. Qed.

Lemma perp_Along4 (d d' : Direction) :
  In d Along4 ->
  d' = Direction_of_int (d + Left) \/ d' = Direction_of_int (d + Right) ->
  In d' Along4 /\ d' <> d
  /\ (d = Direction_of_int (d' + Left) \/ d = Direction_of_int (d' + Right)).
Proof.
  intros Hd Hd'.
  destruct (Along4_four d Hd) as [-> | [-> | [-> | ->]]];
    destruct Hd' as [-> | ->]; vm_compute; intuition congruence.
Qed.

Lemma Along4_valid (d : Direction) : In d Along4 -> 0 <= d < 8.
Proof. intros Hd. destruct (Along4_four d Hd) as [-> | [-> | [-> | ->]]]; lia. Qed.

Section AppendTotal.

Variable MAZE_SIZE : Z.
Hypothesis HN : 0 < MAZE_SIZE <= 127.
Variable maze : Maze.
Hypothesis Hclosed : maze_closed MAZE_SIZE maze.
Variables knownOnly diagEnabled : bool.

Local Abbreviation inside p := (isInsideOfField MAZE_SIZE p = true).

Lemma room_next_perp (p : Position) (d d' : Direction) :
  In d Along4 -> inside p -> 0 < room MAZE_SIZE p d ->
  d' = Direction_of_int (d + Left) \/ d' = Direction_of_int (d + Right) ->
  room MAZE_SIZE (Position_next p d) d' = room MAZE_SIZE p d'.
Proof.
  intros Hd Hp Hr Hd'. apply inside_bounds in Hp.
  destruct (Along4_four d Hd) as [-> | [-> | [-> | ->]]];
    destruct Hd' as [-> | ->]; simpl in *; rewrite ?wrap8_small by lia; lia.
Qed.

(** The loop ends: every turn that goes on uses up room towards the border
    in one of the two directions between which it moves. *)
Lemma append_loop_total (fuel : nat) :
  forall (p : Position) (prev dir : Direction) (dirs : Directions),
    inside p -> In prev Along4 -> In dir Along4 ->
    room MAZE_SIZE p dir
    + (if decide (prev = dir) then 0 else room MAZE_SIZE p prev)
    < Z.of_nat fuel ->
    is_Some (append_loop fuel maze knownOnly diagEnabled p prev dir dirs).
Proof.
  induction fuel as [|fuel IH]; intros p prev dir dirs Hp Hprev Hdir Hm.
  { pose proof (room_range MAZE_SIZE HN p dir Hdir Hp).
    pose proof (room_range MAZE_SIZE HN p prev Hprev Hp).
    destruct (decide (prev = dir)); lia. }
  cbn [append_loop]. destruct (find _ _) as [d|] eqn:Hfind; [|by eauto].
  apply find_some in Hfind as [Hin Hcond].
  rewrite append_cond_passable in Hcond.
  pose proof (room_range MAZE_SIZE HN p dir Hdir Hp) as Hrd.
  pose proof (room_range MAZE_SIZE HN p prev Hprev Hp) as Hrp.
  assert (Hgo : forall d, In d Along4 ->
            passable maze knownOnly p d = true ->
            inside (Position_next p d)
            /\ room MAZE_SIZE (Position_next p d) d = room MAZE_SIZE p d - 1
            /\ 0 < room MAZE_SIZE p d).
  { intros d0 Hd0 Hpass.
    assert (0 < room MAZE_SIZE p d0) as Hr
      by (eapply passable_next_inside; eauto).
    destruct (next_inside MAZE_SIZE HN p d0 Hd0 Hp Hr). done. }
  destruct (straight_candidates_cases diagEnabled prev dir
              (Along4_valid _ Hprev) (Along4_valid _ Hdir)) as [E|[E Hperp]];
    rewrite E in Hin.
  - destruct Hin as [<-|[]].
    destruct (Hgo dir Hdir Hcond) as (Hin' & Hr' & _).
    apply IH; try done. rewrite decide_True by done.
    destruct (decide (prev = dir)); lia.
  - destruct (perp_Along4 prev dir Hprev Hperp) as (_ & Hne & Hperp').
    destruct Hin as [<-|[<-|[]]].
    + destruct (Hgo prev Hprev Hcond) as (Hin' & Hr' & Hpos).
      apply IH; try done. rewrite decide_False by done.
      rewrite (room_next_perp p prev dir Hprev Hp Hpos Hperp).
      rewrite decide_False in Hm by done. lia.
    + destruct (Hgo dir Hdir Hcond) as (Hin' & Hr' & _).
      apply IH; try done. rewrite decide_True by done.
      destruct (decide (prev = dir)); lia.
Qed.

End AppendTotal.

Lemma append_last_two (dirs : Directions) (prev dir : Direction) :
  dirs !! (length dirs - 1 - 1)%nat = Some prev ->
  dirs !! (length dirs - 1)%nat = Some dir ->
  (2 <= length dirs)%nat ->
  last dirs = Some dir
  /\ In prev (drop (length dirs - 2) dirs)
  /\ In dir (drop (length dirs - 2) dirs).
Proof.
  intros Hp Hd Hlen. split; [|split].
  - rewrite last_lookup. by replace (pred (length dirs)) with
      (length dirs - 1)%nat by lia.
  - apply list_elem_of_In, list_elem_of_lookup. exists 0%nat.
    rewrite lookup_drop. by replace (length dirs - 2 + 0)%nat with
      (length dirs - 1 - 1)%nat by lia.
  - apply list_elem_of_In, list_elem_of_lookup. exists 1%nat.
    rewrite lookup_drop. by replace (length dirs - 2 + 1)%nat with
      (length dirs - 1)%nat by lia.
Qed.

Lemma appendStraightDirections_loop (fuel : nat) (maze : Maze)
    (start : Position) (dirs : Directions) (knownOnly diagEnabled : bool)
    (r : Directions) :
  (2 <= length dirs)%nat ->
  appendStraightDirections fuel maze start dirs knownOnly diagEnabled
  = Some r ->
  exists prev dir,
    dirs !! (length dirs - 1 - 1)%nat = Some prev
    /\ dirs !! (length dirs - 1)%nat = Some dir
    /\ append_loop fuel maze knownOnly diagEnabled (path_end start dirs)
         prev dir dirs = Some r.
Proof.
  intros Hlen. unfold appendStraightDirections.
  destruct (Nat.ltb_spec (length dirs) 2) as [Hlt|_]; [lia|].
  destruct (lookup_lt_is_Some_2 dirs (length dirs - 1 - 1)) as [prev Hprev];
    [lia|].
  destruct (lookup_lt_is_Some_2 dirs (length dirs - 1)) as [dir Hdir]; [lia|].
  rewrite Hprev, Hdir. cbn [mbind option_bind]. intros H. by exists prev, dir.
Qed.

(** [appendStraightDirections] keeps the directions it is given and appends
    moves through sides that let the search through, each of them in one of
    the last two directions given; fewer than two directions are returned
    as they are. *)
Theorem append_extends (fuel : nat) (maze : Maze) (start : Position)
    (dirs : Directions) (knownOnly diagEnabled : bool) (r : Directions) :
  Forall (fun d => 0 <= d < 8) dirs ->
  appendStraightDirections fuel maze start dirs knownOnly diagEnabled
  = Some r ->
  exists ext,
    r = dirs ++ ext
    /\ path_passable maze knownOnly (path_end start dirs) ext
    /\ Forall (fun d => In d (drop (length dirs - 2) dirs)) ext
    /\ ((length dirs < 2)%nat -> ext = []).
Proof.
  intros Hvalid H0.
  destruct (Nat.ltb_spec (length dirs) 2) as [Hlen|Hlen].
  { unfold appendStraightDirections in H0.
    destruct (Nat.ltb_spec (length dirs) 2) as [_|?]; [|lia].
    simplify_eq. exists []. by rewrite app_nil_r. }
  destruct (appendStraightDirections_loop _ _ _ _ _ _ _ Hlen H0)
    as (prev & dir & Hprev & Hdir & H).
  destruct (append_last_two dirs prev dir Hprev Hdir Hlen)
    as (_ & Hinp & Hind).
  rewrite Forall_lookup in Hvalid.
  pose proof (append_loop_dirs maze knownOnly diagEnabled fuel _ _ _ _ _
                (Hvalid _ _ Hprev) (Hvalid _ _ Hdir) H) as Hall.
  destruct (append_loop_spec maze knownOnly diagEnabled fuel _ _ _ _ _ H)
    as (ext & -> & Hpass & _).
  rewrite drop_app_length in Hall.
  exists ext. split; [done|]. split; [done|]. split; [|lia].
  eapply Forall_impl; [exact Hall|]. by intros x [->| ->].
Qed.

Lemma append_extends_witness :
  exists ext,
    [North; East; North; East; North; East] = [North; East] ++ ext
    /\ path_passable open4 false (path_end (mkPosition 0 0) [North; East]) ext
    /\ Forall (fun d => In d (drop (length [North; East] - 2) [North; East]))
         ext
    /\ ((length [North; East] < 2)%nat -> ext = []).
Proof.
  apply (append_extends 8 open4 (mkPosition 0 0) [North; East] false true).
  - repeat constructor; done.
  - vm_compute. reflexivity.
Defined.

(** [appendStraightDirections] goes on as far as it can: at the end of the
    directions it returns, the side straight on does not let through. *)
Theorem append_stops_blocked (fuel : nat) (maze : Maze) (start : Position)
    (dirs : Directions) (knownOnly diagEnabled : bool) (r : Directions) :
  (2 <= length dirs)%nat ->
  appendStraightDirections fuel maze start dirs knownOnly diagEnabled
  = Some r ->
  exists d,
    last r = Some d
    /\ passable maze knownOnly (path_end start r) d = false.
Proof.
  intros Hlen H0.
  destruct (appendStraightDirections_loop _ _ _ _ _ _ _ Hlen H0)
    as (prev & dir & Hprev & Hdir & H).
  destruct (append_last_two dirs prev dir Hprev Hdir Hlen) as (Hlast & _).
  destruct (append_loop_spec maze knownOnly diagEnabled fuel _ _ _ _ _ H)
    as (ext & -> & _ & Hblock & _).
  exists (default dir (last ext)). split.
  - destruct ext as [|x ext] using rev_ind; [by rewrite app_nil_r|].
    by rewrite app_assoc, !last_snoc.
  - by rewrite path_end_app.
Qed.

Lemma append_stops_blocked_witness :
  exists d,
    last [East; East] = Some d
    /\ passable walled4 true (path_end (mkPosition 0 2) [East; East]) d
       = false.
Proof.
  apply (append_stops_blocked 8 walled4 (mkPosition 0 2) [East; East] true
           true).
  - simpl. lia.
  - vm_compute. reflexivity.
Defined.

(** Without the diagonals [appendStraightDirections] appends the straight
    run in the last direction, from the end of the directions it is given up
    to the first side that does not let through. *)
Theorem append_straight_run (fuel : nat) (maze : Maze) (start : Position)
    (dirs : Directions) (knownOnly : bool) (r : Directions) :
  (2 <= length dirs)%nat ->
  appendStraightDirections fuel maze start dirs knownOnly false = Some r ->
  exists d k,
    last dirs = Some d
    /\ r = dirs ++ replicate k d
    /\ (forall j, (j < k)%nat ->
          passable maze knownOnly (advance (path_end start dirs) d j) d
          = true)
    /\ passable maze knownOnly (advance (path_end start dirs) d k) d = false.
Proof.
  intros Hlen H0.
  destruct (appendStraightDirections_loop _ _ _ _ _ _ _ Hlen H0)
    as (prev & dir & Hprev & Hdir & H).
  destruct (append_last_two dirs prev dir Hprev Hdir Hlen) as (Hlast & _).
  destruct (append_loop_spec maze knownOnly false fuel _ _ _ _ _ H)
    as (ext & -> & Hpass & Hblock & Hoff).
  specialize (Hoff eq_refl). exists dir, (length ext).
  split; [done|]. split; [by rewrite <- Hoff|]. rewrite Hoff in Hpass, Hblock.
  split.
  - by apply path_passable_replicate.
  - rewrite path_end_replicate in Hblock.
    destruct (length ext) as [|k]; [done|].
    replace (replicate (S k) dir) with (replicate k dir ++ [dir]) in Hblock.
    + by rewrite last_snoc in Hblock.
    + clear. induction k; simpl; [done|]. by f_equal.
Qed.

Lemma append_straight_run_witness :
  exists d k,
    last [East; North] = Some d
    /\ [East; North; North; North] = [East; North] ++ replicate k d
    /\ (forall j, (j < k)%nat ->
          passable open4 false
            (advance (path_end (mkPosition 0 0) [East; North]) d j) d = true)
    /\ passable open4 false
         (advance (path_end (mkPosition 0 0) [East; North]) d k) d = false.
Proof.
  apply (append_straight_run 8 open4 (mkPosition 0 0) [East; North] false).
  - simpl. lia.
  - vm_compute. reflexivity.
Defined.

(** In a maze with a walled border [appendStraightDirections] ends, after at
    most two turns of its loop per cell of a side of the field, when the
    directions it is given are along the four sides and end inside of the
    field. *)
Theorem append_ends (MAZE_SIZE : Z) (maze : Maze) (start : Position)
    (dirs : Directions) (knownOnly diagEnabled : bool) :
  0 < MAZE_SIZE <= 127 ->
  maze_closed MAZE_SIZE maze ->
  Forall (fun d => In d Along4) dirs ->
  isInsideOfField MAZE_SIZE (path_end start dirs) = true ->
  exists r, forall fuel,
    (2 * Z.to_nat MAZE_SIZE <= fuel)%nat ->
    appendStraightDirections fuel maze start dirs knownOnly diagEnabled
    = Some r.
Proof.
  intros HN Hclosed Hdirs Hin. unfold appendStraightDirections.
  destruct (Nat.ltb_spec (length dirs) 2) as [Hlt|Hlen]; [by eauto|].
  destruct (lookup_lt_is_Some_2 dirs (length dirs - 1 - 1)) as [prev Hprev];
    [lia|].
  destruct (lookup_lt_is_Some_2 dirs (length dirs - 1)) as [dir Hdir]; [lia|].
  rewrite Hprev, Hdir. cbn [mbind option_bind].
  rewrite Forall_lookup in Hdirs.
  pose proof (Hdirs _ _ Hprev) as Hp4. pose proof (Hdirs _ _ Hdir) as Hd4.
  cbv beta in Hp4, Hd4.
  pose proof (room_range MAZE_SIZE HN (path_end start dirs) dir Hd4 Hin) as Hrd.
  pose proof (room_range MAZE_SIZE HN (path_end start dirs) prev Hp4 Hin) as Hrp.
  destruct (append_loop_total MAZE_SIZE HN maze Hclosed knownOnly diagEnabled
              (2 * Z.to_nat MAZE_SIZE) (path_end start dirs) prev dir dirs
              Hin Hp4 Hd4) as [r Hr].
  { destruct (decide (prev = dir)); lia. }
  exists r. intros fuel Hfuel.
  by apply (append_loop_fuel maze knownOnly diagEnabled _ _ _ _ _ _ fuel Hr).
Qed.

Lemma append_ends_witness :
  exists r, forall fuel,
    (2 * Z.to_nat 4 <= fuel)%nat ->
    appendStraightDirections fuel walled4 (mkPosition 0 0) [North; East] true
      true = Some r.
Proof.
  apply (append_ends 4 walled4 (mkPosition 0 0) [North; East] true true).
  - lia.
  - intros p d Hd Hp Hout. simpl. rewrite Hout. simpl.
    by rewrite orb_true_r.
  - repeat constructor; simpl; tauto.
  - reflexivity.
Defined.
(** ** The next directions *)

Lemma unknownCount_zero (maze : Maze) (p : Position) (d : Direction) :
  unknownCount maze p = 0 -> In d Along4 -> isKnown maze p d = true.
Proof.
  unfold unknownCount. intros H Hd.
  destruct (isKnown maze p d) eqn:E; [done|].
  assert (d ∈ filter (fun d => isKnown maze p d = false) Along4) as Hin.
  { apply list_elem_of_filter. split; [done|]. by apply list_elem_of_In. }
  destruct (filter _ _); [by apply elem_of_nil in Hin|]. simpl in H. lia.
Qed.

Lemma path_open_known (maze : Maze) (p : Position) (dirs : Directions) :
  path_open maze false p dirs ->
  Forall (fun c => unknownCount maze c = 0) (path_cells p dirs) ->
  path_open maze true p dirs.
Proof.
  revert p. induction dirs as [|d ds IH]; intros p Hopen Hknown; [done|].
  destruct Hopen as (Hd & Hpass & Hopen). simpl in Hknown.
  apply Forall_cons in Hknown as [Hk Hknown].
  split; [done|]. split; [|by apply IH].
  unfold passable in *. rewrite (unknownCount_zero maze p d Hk Hd).
  by destruct (isWall maze p d).
Qed.

(** The known directions of [calcNextDirections] lead from the start cell
    to the cell of the pose that it returns through sides that are known to
    have no wall, and the candidates are the sides of that cell without a
    wall whose neighbour has a step below the sentinel. *)
Theorem next_directions_through_known (MAZE_SIZE : Z) (stepTable : list Z)
    (maze : Maze) (m : StepArray) (start e : Pose)
    (known candidates : Directions) :
  calcNextDirections MAZE_SIZE stepTable maze m start
  = Some (e, known, candidates) ->
  path_end (pose_p start) known = pose_p e
  /\ path_open maze true (pose_p start) known
  /\ forall d, In d candidates <-> open_candidate MAZE_SIZE maze m e d.
Proof.
  unfold calcNextDirections. intros H.
  destruct (getStepDownDirections _ _ _ _ _ _ _ _) as [[dirs e']|] eqn:Hd;
    [|done].
  cbn [mbind option_bind] in H. injection H as <- <- <-.
  destruct (getStepDownDirections_path _ _ _ _ _ _ _ _ _ _ Hd)
    as (Hend & Hopen & _).
  pose proof (getStepDownDirections_known _ _ _ _ _ _ _ _ _ Hd) as Hknown.
  split; [done|]. split; [by apply path_open_known|].
  intros d. apply candidates_In.
Qed.

Lemma next_directions_through_known_witness :
  path_end (pose_p (mkPose (mkPosition 3 3) North)) [West; West]
  = pose_p (mkPose (mkPosition 1 3) West)
  /\ path_open partly_known true (pose_p (mkPose (mkPosition 3 3) North))
       [West; West]
  /\ forall d,
       In d [West; South; East]
       <-> open_candidate 4 partly_known open4_field
             (mkPose (mkPosition 1 3) West) d.
Proof.
  apply (next_directions_through_known 4 realTable partly_known open4_field
           (mkPose (mkPosition 3 3) North)).
  vm_compute. reflexivity.
Defined.

(** [calcNextDirections] ends without an undefined access on every field of
    [MAZE_SIZE * MAZE_SIZE] steps of a maze with a walled border, from every
    start pose. *)
Theorem next_directions_ends (MAZE_SIZE : Z) (stepTable : list Z)
    (maze : Maze) (m : StepArray) (start : Pose) :
  0 < MAZE_SIZE <= 127 ->
  maze_closed MAZE_SIZE maze ->
  MAZE_SIZE <= Z.of_nat (length stepTable) ->
  length m = Z.to_nat (MAZE_SIZE * MAZE_SIZE) ->
  Forall (fun v => 0 <= v <= STEP_MAX) m ->
  exists e known candidates,
    calcNextDirections MAZE_SIZE stepTable maze m start
    = Some (e, known, candidates).
Proof.
  intros HN Hclosed Htable Hlen Hval.
  destruct (getStepDownDirections_total MAZE_SIZE stepTable maze m start
              false false true HN Hclosed (fun _ => Htable) Hlen Hval)
    as (dirs & e & Hd).
  unfold calcNextDirections. rewrite Hd. cbn [mbind option_bind]. by eauto.
Qed.

Lemma next_directions_ends_witness :
  exists e known candidates,
    calcNextDirections 4 realTable partly_known open4_field
      (mkPose (mkPosition 3 3) North)
    = Some (e, known, candidates).
Proof.
  apply (next_directions_ends 4 realTable partly_known open4_field).
  - lia.
  - apply (open_maze_closed 4 true 0 3).
  - vm_compute. discriminate.
  - reflexivity.
  - by vm_compute; repeat constructor.
Defined.
(** ** The steps of the field as costs of routes *)

Lemma route_dirs_snoc (runs : list (Direction * nat)) (d : Direction)
    (k : nat) :
  route_dirs (runs ++ [(d, k)]) = route_dirs runs ++ replicate k d.
Proof.
  unfold route_dirs. rewrite map_app, concat_app. simpl.
  by rewrite app_nil_r.
Qed.

Lemma route_cost_snoc (stepTable : list Z) (simple : bool)
    (runs : list (Direction * nat)) (d : Direction) (k : nat) (c c' : Z) :
  route_cost stepTable simple runs = Some c ->
  run_cost stepTable simple (Z.of_nat k) = Some c' ->
  route_cost stepTable simple (runs ++ [(d, k)]) = Some (c + c').
Proof.
  revert c. induction runs as [|r rs IH]; intros c Hc Hc'; simpl in *.
  - simplify_eq. rewrite Hc'. simpl. f_equal. lia.
  - destruct (run_cost stepTable simple (Z.of_nat r.2)) as [c0|]; [|done].
    simpl in *. destruct (route_cost stepTable simple rs) as [cs|]; [|done].
    simpl in *. simplify_eq. rewrite (IH cs eq_refl Hc'). simpl. f_equal. lia.
Qed.

Lemma wrap16_add (a b : Z) : wrap16 (wrap16 a + b) = wrap16 (a + b).
Proof. unfold wrap16. by rewrite Zplus_mod_idemp_l. Qed.

Section UpdateRoutes.

Variable MAZE_SIZE : Z.
Variable stepTable : list Z.
Context {PQ : PriorityQueue}.
Hypothesis HN : 0 < MAZE_SIZE <= 127.
Variable maze : Maze.
Hypothesis Hclosed : maze_closed MAZE_SIZE maze.
Variables knownOnly simple : bool.
Hypothesis Htable : simple = false -> table_ok MAZE_SIZE stepTable.
Variable brk : bool.
Variable dest : Positions.

Local Abbreviation inside p := (isInsideOfField MAZE_SIZE p = true).
Local Abbreviation b := (bounding_box maze dest).

(** The field at the end of the update: every step below the sentinel is
    the cost of a route, and no neighbour behind a passable side of a cell
    of the box is more than one move above the cell. *)
Lemma update_field_routes :
  exists m,
    update_gen MAZE_SIZE stepTable brk maze dest knownOnly simple = Some m
    /\ (forall p, inside p -> getStep MAZE_SIZE m p <> STEP_MAX ->
          route_to MAZE_SIZE stepTable maze knownOnly simple dest p
            (getStep MAZE_SIZE m p))
    /\ (forall p d,
          inside p -> outside_box b p = false ->
          getStep MAZE_SIZE m p <> STEP_MAX ->
          In d Along4 -> passable maze knownOnly p d = true ->
          exists c,
            run_cost stepTable simple 1 = Some c
            /\ getStep MAZE_SIZE m (Position_next p d)
               <= wrap16 (getStep MAZE_SIZE m p + c)).
Proof.
  destruct (run_cost_one MAZE_SIZE stepTable simple Htable)
    as (c1 & Hc1 & Hc1pos).
  destruct (update_solver_inv MAZE_SIZE stepTable HN maze Hclosed knownOnly
              simple (table_ok_length MAZE_SIZE stepTable simple Htable)
              brk dest c1 Hc1 Hc1pos
              (route_to MAZE_SIZE stepTable maze knownOnly simple dest))
    as (m & Hm & Hwf & Hinv).
  - intros g Hg Hin. exists g, [], 0. by repeat split.
  - intros u fs d k c Hu Hbox (g & runs & c0 & Hg & Hin & Hruns & Hopen & Hend
                               & Hcost & ->) _ _ Hd Hrun _ Hc _.
    exists g, (runs ++ [(d, S k)]), (c0 + c).
    split; [done|]. split; [done|]. split.
    { apply Forall_app. split; [done|]. constructor; [|done].
      simpl. split; [done|lia]. }
    rewrite route_dirs_snoc. split.
    { apply path_open_app. split; [done|]. rewrite Hend.
      by apply path_open_replicate. }
    split.
    { by rewrite path_end_app, Hend, path_end_replicate. }
    split; [by apply route_cost_snoc|]. apply wrap16_add.
  - exists m. split; [exact Hm|]. clear Hm.
    pose proof Hwf as (Hlen & Hval & _). cbn [fst] in Hlen, Hval.
    assert (Hget : forall p, inside p ->
              array_get m (getIndex MAZE_SIZE p)
              = Some (getStep MAZE_SIZE m p)
              /\ 0 <= getStep MAZE_SIZE m p <= STEP_MAX).
    { intros p Hp.
      pose proof (getStep_inside MAZE_SIZE HN m p Hlen Hp) as Hv.
      split; [done|]. unfold array_get in Hv. destruct (_ <? 0); [done|].
      rewrite Forall_lookup in Hval. by apply Hval in Hv. }
    destruct Hinv as (_ & Hsettled & _ & Hgood). split.
    + intros p Hp Hne. destruct (Hget p Hp) as [Hv Hr].
      apply (Hgood p (getStep MAZE_SIZE m p) Hp Hv). lia.
    + intros p d Hp Hbox Hne Hd Hpass. destruct (Hget p Hp) as [Hv Hr].
      destruct (Hsettled p (getStep MAZE_SIZE m p)) as [[]|Hs]; try done.
      { lia. }
      destruct (Hs d Hd Hpass) as (c & v & Hc & Hnext & Hle).
      exists c. split; [done|]. cbn [fst] in Hnext.
      assert (inside (Position_next p d)) as Hin'.
      { apply (next_inside MAZE_SIZE HN p d Hd Hp).
        eapply passable_next_inside; eauto. }
      destruct (Hget _ Hin') as [Hv' _]. rewrite Hv' in Hnext.
      by simplify_eq.
Qed.

End UpdateRoutes.

(** After the update every step below the sentinel is, as a [step_t], the
    cost of a route from a destination inside of the field to the cell:
    straight runs through sides that let the search through, each at the
    cost that the table (or, with unit costs, the number of its moves)
    gives for its length. *)
Theorem update_step_is_route_cost (MAZE_SIZE : Z) (stepTable : list Z)
    (PQ : PriorityQueue) (maze : Maze) (dest : Positions)
    (knownOnly simple : bool) (m : StepArray) (p : Position) :
  0 < MAZE_SIZE <= 127 ->
  maze_closed MAZE_SIZE maze ->
  (simple = false -> table_ok MAZE_SIZE stepTable) ->
  update MAZE_SIZE stepTable maze dest knownOnly simple = Some m ->
  isInsideOfField MAZE_SIZE p = true ->
  getStep MAZE_SIZE m p <> STEP_MAX ->
  route_to MAZE_SIZE stepTable maze knownOnly simple dest p
    (getStep MAZE_SIZE m p).
Proof.
  intros HN Hclosed Htable Hm Hp Hne.
  destruct (update_field_routes MAZE_SIZE stepTable HN maze Hclosed knownOnly
              simple Htable true dest) as (m' & Hm' & Hroute & _).
  unfold update in Hm. rewrite Hm in Hm'. simplify_eq. by apply Hroute.
Qed.

Lemma update_step_is_route_cost_witness :
  route_to 4 realTable open4 false false [mkPosition 0 0] (mkPosition 3 3)
    (getStep 4 open4_field (mkPosition 3 3)).
Proof.
  apply (update_step_is_route_cost 4 realTable lifo_queue open4
           [mkPosition 0 0] false false open4_field (mkPosition 3 3)).
  - lia.
  - apply open_maze_closed.
  - intros _. apply table_ok_real. lia.
  - exact open4_update.
  - reflexivity.
  - vm_compute. discriminate.
Defined.

(** After the update the field has no cliff inside of the bounding box:
    behind every passable side of a cell of the box with a step below the
    sentinel, the neighbour has at most the step of the cell plus the cost
    of one move (as a [step_t]). *)
Theorem update_neighbour_bound (MAZE_SIZE : Z) (stepTable : list Z)
    (PQ : PriorityQueue) (maze : Maze) (dest : Positions)
    (knownOnly simple : bool) (m : StepArray) (p : Position)
    (d : Direction) :
  0 < MAZE_SIZE <= 127 ->
  maze_closed MAZE_SIZE maze ->
  (simple = false -> table_ok MAZE_SIZE stepTable) ->
  update MAZE_SIZE stepTable maze dest knownOnly simple = Some m ->
  isInsideOfField MAZE_SIZE p = true ->
  outside_box (bounding_box maze dest) p = false ->
  getStep MAZE_SIZE m p <> STEP_MAX ->
  In d Along4 -> passable maze knownOnly p d = true ->
  exists c,
    run_cost stepTable simple 1 = Some c
    /\ getStep MAZE_SIZE m (Position_next p d)
       <= wrap16 (getStep MAZE_SIZE m p + c).
Proof.
  intros HN Hclosed Htable Hm Hp Hbox Hne Hd Hpass.
  destruct (update_field_routes MAZE_SIZE stepTable HN maze Hclosed knownOnly
              simple Htable true dest) as (m' & Hm' & _ & Hbound).
  unfold update in Hm. rewrite Hm in Hm'. simplify_eq. by apply Hbound.
Qed.

Lemma update_neighbour_bound_witness :
  exists c,
    run_cost realTable false 1 = Some c
    /\ getStep 4 open4_field (Position_next (mkPosition 1 1) East)
       <= wrap16 (getStep 4 open4_field (mkPosition 1 1) + c).
Proof.
  apply (update_neighbour_bound 4 realTable lifo_queue open4
           [mkPosition 0 0] false false open4_field (mkPosition 1 1) East).
  - lia.
  - apply open_maze_closed.
  - intros _. apply table_ok_real. lia.
  - exact open4_update.
  - reflexivity.
  - reflexivity.
  - vm_compute. discriminate.
  - left. reflexivity.
  - reflexivity.
Defined.
(** ** The descent over a field of least costs *)

Section DescentStop.

Variable MAZE_SIZE : Z.
Variable stepTable : list Z.
Variable maze : Maze.
Variables knownOnly simple : bool.
Variable m : StepArray.
Hypothesis Hval : Forall (fun v => 0 <= v <= STEP_MAX) m.

Local Abbreviation get p := (array_get m (getIndex MAZE_SIZE p)).

Lemma get_step_range (p : Position) (v : Z) :
  get p = Some v -> 0 <= v <= STEP_MAX.
Proof.
  unfold array_get. destruct (_ <? 0); [done|]. intros Hv.
  rewrite Forall_lookup in Hval. by apply Hval in Hv.
Qed.

(** Where a full descent stops: at step 0, or at a cell where the scan finds
    no cell of a lower step. With unit costs it has made at most as many
    moves as the step has dropped. *)
Lemma descend_loop_stop (fuel : nat) focus dirs dirs' e :
  descend_loop MAZE_SIZE stepTable fuel maze knownOnly simple false m focus
    dirs = Some (dirs', e) ->
  exists v ve,
    get (pose_p focus) = Some v /\ get (pose_p e) = Some ve
    /\ (simple = true ->
        Z.of_nat (length dirs') + ve <= Z.of_nat (length dirs) + v)
    /\ (ve = 0
        \/ exists min_p min_d min_step,
             scan_dirs MAZE_SIZE stepTable maze knownOnly simple m (pose_p e)
               ve Along4 = Some (min_p, min_d)
             /\ get min_p = Some min_step /\ ve <= min_step).
Proof.
  revert focus dirs.
  induction fuel as [|fuel IH]; intros focus dirs Hloop; [done|].
  cbn [descend_loop] in Hloop.
  destruct (get (pose_p focus)) as [focus_step|] eqn:Hfs; [|done].
  cbn [mbind option_bind] in Hloop.
  destruct (focus_step =? 0) eqn:Hz.
  { simplify_eq. apply Z.eqb_eq in Hz. exists focus_step, focus_step.
    split; [done|]. split; [done|]. split; [lia|by left]. }
  destruct (scan_dirs MAZE_SIZE stepTable maze knownOnly simple m
              (pose_p focus) focus_step Along4) as [[min_p min_d]|] eqn:Hscan;
    [|done].
  cbn [mbind option_bind] in Hloop.
  destruct (get min_p) as [min_step|] eqn:Hms; [|done].
  cbn [mbind option_bind] in Hloop.
  destruct (focus_step <=? min_step) eqn:Hle.
  { simplify_eq. apply Z.leb_le in Hle. exists focus_step, focus_step.
    split; [done|]. split; [done|]. split; [lia|]. right.
    by exists min_p, min_d, min_step. }
  apply Z.leb_gt in Hle.
  destruct (move_run run_fuel maze false min_p min_d focus dirs)
    as [[[focus1 dirs1] stop]|] eqn:Hmove; [|done].
  cbn [mbind option_bind] in Hloop.
  destruct (scan_dirs_found _ _ _ _ _ _ _ _ _ _ _ Hscan)
    as [[-> _]|(Hd & j & c & Hj & Hmin & Hrun & Hc & Hg)].
  { rewrite Hfs in Hms. simplify_eq. lia. }
  destruct (move_run_spec _ _ _ _ _ _ _ _ _ _ Hmove)
    as (t & _ & Hd1 & Hp1 & _ & _ & Hne & _ & Hstop).
  destruct stop; [by destruct Hstop|].
  assert (Htj : (t <= S j)%nat).
  { destruct (decide (t <= S j)%nat) as [|Hgt]; [done|].
    destruct (Hne (S j)); [lia|done]. }
  destruct (IH _ _ Hloop) as (v1 & ve & Hv1 & Hve & Hlen & Hstuck).
  rewrite Hstop, Hms in Hv1. simplify_eq.
  exists focus_step, ve. split; [done|]. split; [done|]. split; [|done].
  intros Hs. specialize (Hlen Hs). rewrite Hs in Hc. simpl in Hc.
  simplify_eq.
  pose proof (get_step_range _ _ Hfs) as Hr.
  rewrite length_app, length_replicate in Hlen.
  unfold run_fuel in Hj. unfold wrap16, STEP_MAX in *.
  Z.div_mod_to_equations. lia.
Qed.

(** A scan over the four directions that finds nothing has found nothing
    in any of them. *)
Lemma scan_dirs_none focus focus_step (ds : list Direction) min_p :
  scan_dirs MAZE_SIZE stepTable maze knownOnly simple m focus focus_step ds
  = Some (min_p, Direction_Max) ->
  ~ In Direction_Max ds ->
  forall d, In d ds ->
    scan_run MAZE_SIZE stepTable run_fuel maze knownOnly simple m focus_step
      d focus 1 = Some None.
Proof.
  induction ds as [|d0 ds IH]; intros Hscan Hmax d Hd; [done|].
  cbn [scan_dirs] in Hscan.
  destruct (scan_run MAZE_SIZE stepTable run_fuel maze knownOnly simple m
              focus_step d0 focus 1) as [[next|]|] eqn:Hrun; [| |done];
    cbn [mbind option_bind] in Hscan.
  - simplify_eq. destruct Hmax. by left.
  - destruct Hd as [<-|Hd]; [done|]. apply IH; [done| |done].
    intros H. apply Hmax. by right.
Qed.

(** A neighbour behind a passable side whose step is one move below the step
    of the focus ends the scan of its direction at once. *)
Lemma scan_run_first focus focus_step d c :
  passable maze knownOnly focus d = true ->
  run_cost stepTable simple 1 = Some c ->
  get (Position_next focus d) = Some (wrap16 (focus_step - c)) ->
  scan_run MAZE_SIZE stepTable run_fuel maze knownOnly simple m focus_step
    d focus 1 = Some (Some (Position_next focus d)).
Proof.
  intros Hpass Hc Hg. change run_fuel with (S 126). cbn [scan_run].
  unfold passable in Hpass. apply negb_true_iff in Hpass. rewrite Hpass.
  rewrite Hc. cbn [mbind option_bind]. rewrite Hg. cbn [mbind option_bind].
  by rewrite Z.eqb_refl.
Qed.

End DescentStop.

Lemma opposite_back (MAZE_SIZE : Z) (p : Position) (d : Direction) :
  0 < MAZE_SIZE <= 127 ->
  In d Along4 -> isInsideOfField MAZE_SIZE p = true ->
  isInsideOfField MAZE_SIZE (Position_next p d) = true ->
  In (Direction_of_int (d + Back)) Along4
  /\ Position_next (Position_next p d) (Direction_of_int (d + Back)) = p.
Proof.
  intros HN Hd Hp Hn. apply inside_bounds in Hp. apply inside_bounds in Hn.
  destruct p as [x y].
  destruct (Along4_four d Hd) as [-> | [-> | [-> | ->]]]; simpl in *;
    (split; [unfold Along4, East, North, West, South; simpl; tauto|]);
    rewrite ?wrap8_small in * by lia;
    rewrite ?wrap8_small by lia; f_equal; lia.
Qed.

Section FieldDescent.

Variable MAZE_SIZE : Z.
Variable stepTable : list Z.
Hypothesis HN : 0 < MAZE_SIZE <= 127.
Variable maze : Maze.
Hypothesis Hclosed : maze_closed MAZE_SIZE maze.
Hypothesis Hsym : maze_symmetric MAZE_SIZE maze.
Variable knownOnly : bool.
Variable dest : Positions.
Variable m : StepArray.
Hypothesis Hlen : length m = Z.to_nat (MAZE_SIZE * MAZE_SIZE).
Hypothesis Hval : Forall (fun v => 0 <= v <= STEP_MAX) m.

Local Abbreviation inside p := (isInsideOfField MAZE_SIZE p = true).
Local Abbreviation step p := (getStep MAZE_SIZE m p).
Local Abbreviation get p := (array_get m (getIndex MAZE_SIZE p)).

Hypothesis Hupper : forall p g dirs,
  inside p -> In g dest -> inside g ->
  path_open maze knownOnly g dirs -> path_end g dirs = p ->
  step p <= Z.of_nat (length dirs).
Hypothesis Hpath : forall p,
  inside p -> step p <> STEP_MAX ->
  exists g dirs,
    In g dest /\ inside g /\ path_open maze knownOnly g dirs
    /\ path_end g dirs = p /\ Z.of_nat (length dirs) = step p.

Lemma get_step (p : Position) : inside p -> get p = Some (step p).
Proof. intros Hp. by apply (getStep_inside MAZE_SIZE HN). Qed.

Lemma step_range (p : Position) : inside p -> 0 <= step p <= STEP_MAX.
Proof.
  intros Hp. apply (get_step_range MAZE_SIZE m Hval p). by apply get_step.
Qed.

(** A cell with a step between 0 and the sentinel has a neighbour, behind a
    side that lets through, whose step is one less. *)
Lemma field_lower_neighbour (p : Position) :
  inside p -> 0 < step p < STEP_MAX ->
  exists d,
    In d Along4 /\ passable maze knownOnly p d = true
    /\ inside (Position_next p d)
    /\ step (Position_next p d) = step p - 1.
Proof.
  intros Hp Hv.
  destruct (Hpath p Hp ltac:(lia)) as (g & dirs & Hg & Hing & Hopen & Hend & Hl).
  destruct dirs as [|d ds _] using rev_ind; [simpl in Hl; lia|].
  apply path_open_app in Hopen as [Hopen1 (Hd & Hpass & _)].
  assert (Hqd : Position_next (path_end g ds) d = p)
    by (by rewrite <- Hend, path_end_app).
  clear Hend. set (q := path_end g ds) in *.
  assert (inside q) as Hq
    by exact (path_open_inside MAZE_SIZE maze knownOnly g ds HN Hclosed Hing
                Hopen1).
  rewrite length_app in Hl. simpl in Hl.
  pose proof (Hupper q g ds Hq Hg Hing Hopen1 eq_refl) as Hle.
  pose proof (step_range q Hq) as Hrq.
  destruct (Hpath q Hq ltac:(unfold STEP_MAX in *; lia))
    as (g' & ds' & Hg' & Hing' & Hopen' & Hend' & Hl').
  assert (step p <= Z.of_nat (length (ds' ++ [d]))) as Hle'.
  { apply (Hupper p g' (ds' ++ [d]) Hp Hg' Hing').
    - apply path_open_app. split; [done|]. rewrite Hend'. by repeat split.
    - by rewrite path_end_app, Hend'. }
  rewrite length_app in Hle'. simpl in Hle'.
  assert (inside (Position_next q d)) as Hn by (by rewrite Hqd).
  destruct (opposite_back MAZE_SIZE q d HN Hd Hq Hn) as [Hd' Hback].
  destruct (Hsym q d Hd Hq Hn) as [Hw Hk].
  rewrite Hqd in Hback, Hw, Hk.
  exists (Direction_of_int (d + Back)). split; [done|]. split.
  { unfold passable in *. by rewrite Hw, Hk. }
  rewrite Hback. split; [done|]. lia.
Qed.

(** At a cell with a step between 0 and the sentinel the scan of the
    descent finds a cell of a lower step. *)
Lemma descent_not_stuck (e : Position) (min_p : Position)
    (min_d : Direction) (min_step : Z) :
  inside e -> 0 < step e < STEP_MAX ->
  scan_dirs MAZE_SIZE stepTable maze knownOnly true m e (step e) Along4
  = Some (min_p, min_d) ->
  get min_p = Some min_step ->
  min_step < step e.
Proof.
  intros He Hv Hscan Hms.
  destruct (scan_dirs_found _ _ _ _ _ _ _ _ _ _ _ Hscan)
    as [[-> ->]|(Hd & j & c & Hj & Hmin & Hrun & Hc & Hg)].
  - destruct (field_lower_neighbour e He Hv) as (d & Hd & Hpass & Hn & Hs).
    assert (Hnone : scan_run MAZE_SIZE stepTable run_fuel maze knownOnly true
                      m (step e) d e 1 = Some None).
    { apply (scan_dirs_none MAZE_SIZE stepTable maze knownOnly true m e _
               Along4 e Hscan); [|done].
      unfold Along4, Direction_Max, East, North, West, South. simpl.
      intuition discriminate. }
    rewrite (scan_run_first MAZE_SIZE stepTable maze knownOnly true m e
               (step e) d 1 Hpass eq_refl) in Hnone; [done|].
    rewrite (get_step _ Hn), Hs. f_equal. unfold wrap16.
    rewrite Z.mod_small; [done|]. unfold STEP_MAX in Hv. lia.
  - simpl in Hc. injection Hc as <-. subst min_p.
    rewrite Hg in Hms. injection Hms as <-.
    destruct (advance_room MAZE_SIZE stepTable HN maze Hclosed knownOnly e
                min_d (S j) Hd He) as [Hin _].
    { intros i Hi. apply Hrun. lia. }
    destruct (Hpath e He ltac:(lia))
      as (g & dirs & Hg' & Hing & Hopen & Hend & Hl).
    assert (step (advance e min_d (S j))
            <= Z.of_nat (length (dirs ++ replicate (S j) min_d))) as Hle.
    { apply (Hupper _ g _ Hin Hg' Hing).
      - apply path_open_app. split; [done|]. rewrite Hend.
        apply path_open_replicate; [done|]. intros i Hi. apply Hrun. lia.
      - by rewrite path_end_app, Hend, path_end_replicate. }
    rewrite length_app, length_replicate in Hle.
    rewrite (get_step _ Hin) in Hg. injection Hg as Hg.
    cbn [advance] in Hg, Hle. rewrite Hg in Hle.
    unfold run_fuel in Hj. unfold wrap16, STEP_MAX in *.
    Z.div_mod_to_equations. lia.
Qed.

(** Over such a field the descent with unit costs from a cell with a step
    below the sentinel ends on step 0, after at most as many moves as the
    step of the start. *)
Lemma descent_reaches_zero (start : Pose) (dirs : Directions) (e : Pose) :
  inside (pose_p start) -> step (pose_p start) <> STEP_MAX ->
  getStepDownDirections MAZE_SIZE stepTable maze m start knownOnly true false
  = Some (dirs, e) ->
  inside (pose_p e) /\ step (pose_p e) = 0
  /\ Z.of_nat (length dirs) <= step (pose_p start).
Proof.
  intros Hs Hfin Hd.
  destruct (getStepDownDirections_path _ _ _ _ _ _ _ _ _ _ Hd)
    as (Hend & Hopen & _).
  assert (inside (pose_p e)) as He.
  { rewrite <- Hend.
    exact (path_open_inside MAZE_SIZE maze knownOnly _ dirs HN Hclosed Hs
             Hopen). }
  revert Hd. unfold getStepDownDirections. rewrite Hs. cbn [negb]. intros Hd.
  destruct (descend_loop_stop MAZE_SIZE stepTable maze knownOnly true m Hval
              _ _ _ _ _ Hd) as (v & ve & Hv & Hve & Hlen' & Hstuck).
  clear Hd. specialize (Hlen' eq_refl). simpl in Hlen'.
  rewrite (get_step _ Hs) in Hv. rewrite (get_step _ He) in Hve.
  injection Hv as <-. injection Hve as <-.
  pose proof (step_range _ Hs) as Hrs. pose proof (step_range _ He) as Hre.
  split; [exact He|].
  assert (step (pose_p e) = 0) as Hz.
  { destruct Hstuck as [Hz|(min_p & min_d & min_step & Hscan & Hms & Hle)];
      [exact Hz|].
    destruct (Z.eq_dec (step (pose_p e)) 0) as [Hz|Hnz]; [exact Hz|].
    pose proof (descent_not_stuck (pose_p e) min_p min_d min_step He
                  ltac:(lia) Hscan Hms). lia. }
  split; [exact Hz|]. lia.
Qed.

End FieldDescent.

Lemma open_maze_symmetric (n : Z) (known : bool) (lo hi : Z) :
  0 < n <= 127 -> maze_symmetric n (open_maze n known lo hi).
Proof.
  intros HN p d Hd Hp Hn.
  destruct (opposite_back n p d HN Hd Hp Hn) as [_ Hback].
  simpl. rewrite Hback, Hp, Hn. done.
Qed.

(** With unit costs a full descent makes at most as many moves as the step
    drops from the start cell to the cell where it ends. *)
Theorem descent_unit_moves (MAZE_SIZE : Z) (stepTable : list Z)
    (maze : Maze) (m : StepArray) (start : Pose) (knownOnly : bool)
    (dirs : Directions) (e : Pose) :
  isInsideOfField MAZE_SIZE (pose_p start) = true ->
  Forall (fun v => 0 <= v <= STEP_MAX) m ->
  getStepDownDirections MAZE_SIZE stepTable maze m start knownOnly true false
  = Some (dirs, e) ->
  exists v ve,
    array_get m (getIndex MAZE_SIZE (pose_p start)) = Some v
    /\ array_get m (getIndex MAZE_SIZE (pose_p e)) = Some ve
    /\ Z.of_nat (length dirs) <= v - ve.
Proof.
  intros Hs Hval. unfold getStepDownDirections. rewrite Hs. cbn [negb].
  intros Hd.
  destruct (descend_loop_stop MAZE_SIZE stepTable maze knownOnly true m Hval
              _ _ _ _ _ Hd) as (v & ve & Hv & Hve & Hlen & _).
  clear Hd. specialize (Hlen eq_refl). simpl in Hlen.
  exists v, ve. split; [exact Hv|]. split; [exact Hve|]. lia.
Qed.

Lemma descent_unit_moves_witness :
  exists v ve,
    array_get (<[14%nat := 5]> (<[15%nat := 6]> (replicate 16 0)))
      (getIndex 4 (pose_p (mkPose (mkPosition 3 3) North)))
    = Some v
    /\ array_get (<[14%nat := 5]> (<[15%nat := 6]> (replicate 16 0)))
         (getIndex 4 (pose_p (mkPose (mkPosition 3 2) South))) = Some ve
    /\ Z.of_nat (length [South]) <= v - ve.
Proof.
  apply (descent_unit_moves 4 realTable open4 _ (mkPose (mkPosition 3 3) North)
           false).
  - reflexivity.
  - by vm_compute; repeat constructor.
  - vm_compute. reflexivity.
Defined.

(** With unit costs, in a maze with a walled border whose walls are the same
    from both sides and a bounding box that holds the field,
    [calcShortestDirections] finds a shortest way: from a start cell that
    some path from a destination reaches, the directions it returns lead
    through sides that let the search through to a destination, and no path
    between a destination and the start cell has fewer moves. *)
Theorem shortest_directions_shortest (MAZE_SIZE : Z) (stepTable : list Z)
    (PQ : PriorityQueue) (maze : Maze) (start : Position) (dest : Positions)
    (knownOnly : bool) :
  0 < MAZE_SIZE <= 127 ->
  maze_closed MAZE_SIZE maze ->
  maze_symmetric MAZE_SIZE maze ->
  box_covers MAZE_SIZE (bounding_box maze dest) ->
  isInsideOfField MAZE_SIZE start = true ->
  reachable MAZE_SIZE maze knownOnly dest start ->
  exists m r,
    calcShortestDirections MAZE_SIZE stepTable maze start dest knownOnly true
    = Some (m, r)
    /\ path_open maze knownOnly start r
    /\ In (path_end start r) dest
    /\ forall g dirs,
         In g dest -> isInsideOfField MAZE_SIZE g = true ->
         path_open maze knownOnly g dirs -> path_end g dirs = start ->
         (length r <= length dirs)%nat.
Proof.
  intros HN Hclosed Hsym Hcov Hin (g0 & ds0 & Hg0 & Hing0 & Hopen0 & Hend0).
  destruct (update_simple_field MAZE_SIZE stepTable HN maze Hclosed knownOnly
              true dest Hcov) as (m & Hm & Hlen & Hfield).
  assert (Hval : Forall (fun v => 0 <= v <= STEP_MAX) m).
  { destruct (update_total MAZE_SIZE stepTable PQ maze dest knownOnly true HN
                Hclosed ltac:(discriminate)) as (m' & Hm' & _ & Hval).
    unfold update in Hm'. rewrite Hm in Hm'. by injection Hm' as <-. }
  assert (Hupper : forall p g dirs,
            isInsideOfField MAZE_SIZE p = true -> In g dest ->
            isInsideOfField MAZE_SIZE g = true ->
            path_open maze knownOnly g dirs -> path_end g dirs = p ->
            getStep MAZE_SIZE m p < STEP_MAX
            /\ getStep MAZE_SIZE m p <= Z.of_nat (length dirs)).
  { intros p g dirs Hp Hg Hing Hopen Hend.
    destruct (Hfield p Hp) as (H1 & _ & _).
    destruct (H1 g dirs Hg Hing Hopen Hend) as (Hfin & c & Hc & Hle).
    rewrite path_cost_simple in Hc. by injection Hc as <-. }
  assert (Hpath : forall p,
            isInsideOfField MAZE_SIZE p = true ->
            getStep MAZE_SIZE m p <> STEP_MAX ->
            exists g dirs,
              In g dest /\ isInsideOfField MAZE_SIZE g = true
              /\ path_open maze knownOnly g dirs /\ path_end g dirs = p
              /\ Z.of_nat (length dirs) = getStep MAZE_SIZE m p).
  { intros p Hp Hne. destruct (Hfield p Hp) as (_ & H2 & _).
    destruct (H2 Hne) as (g & dirs & Hg & Hing & Hopen & Hend & Hc).
    rewrite path_cost_simple in Hc. injection Hc as Hc.
    by exists g, dirs. }
  clear Hfield.
  destruct (getStepDownDirections_total MAZE_SIZE stepTable maze m
              (mkPose start Direction_Max) knownOnly true false HN Hclosed
              ltac:(discriminate) Hlen Hval) as (dirs & e & Hd).
  destruct (Hupper start g0 ds0 Hin Hg0 Hing0 Hopen0 Hend0) as [Hfin _].
  destruct (descent_reaches_zero MAZE_SIZE stepTable HN maze Hclosed Hsym
              knownOnly dest m Hlen Hval
              (fun p g dirs Hp Hg Hing Hopen Hend =>
                 proj2 (Hupper p g dirs Hp Hg Hing Hopen Hend))
              Hpath (mkPose start Direction_Max) dirs e Hin
              ltac:(simpl; lia) Hd) as (He & Hz & Hmoves).
  destruct (getStepDownDirections_path _ _ _ _ _ _ _ _ _ _ Hd)
    as (Hend & Hopen & _).
  cbn [pose_p] in Hend, Hopen, Hmoves.
  exists m, dirs. split.
  { unfold calcShortestDirections, update. rewrite Hm. clear Hm.
    cbn [mbind option_bind]. rewrite Hd. clear Hd. cbn [mbind option_bind].
    rewrite (getStep_inside MAZE_SIZE HN m _ Hlen He), Hz.
    reflexivity. }
  clear Hm Hd. split; [exact Hopen|]. split.
  - rewrite Hend.
    destruct (Hpath (pose_p e) He) as (g & ds & Hg & _ & _ & Hendg & Hl).
    { rewrite Hz. unfold STEP_MAX. lia. }
    rewrite Hz in Hl. destruct ds; [|simpl in Hl; lia].
    by rewrite <- Hendg.
  - intros g ds Hg Hing Hopeng Hendg.
    destruct (Hupper start g ds Hin Hg Hing Hopeng Hendg) as [_ Hle]. lia.
Qed.

Lemma shortest_directions_shortest_witness :
  exists m r,
    @calcShortestDirections 4 realTable lifo_queue open4 (mkPosition 3 3)
      [mkPosition 0 0] false true = Some (m, r)
    /\ path_open open4 false (mkPosition 3 3) r
    /\ In (path_end (mkPosition 3 3) r) [mkPosition 0 0]
    /\ forall g dirs,
         In g [mkPosition 0 0] -> isInsideOfField 4 g = true ->
         path_open open4 false g dirs -> path_end g dirs = mkPosition 3 3 ->
         (length r <= length dirs)%nat.
Proof.
  apply (shortest_directions_shortest 4 realTable lifo_queue open4
           (mkPosition 3 3) [mkPosition 0 0] false).
  - lia.
  - apply open_maze_closed.
  - apply open_maze_symmetric. lia.
  - apply box_covers_intro; vm_compute; discriminate.
  - reflexivity.
  - exists (mkPosition 0 0), [East; East; East; North; North; North].
    split; [by left|]. split; [reflexivity|]. split; [|reflexivity].
    vm_compute. tauto.
Defined.
(** ** The cost table and the update *)

Lemma to_step_range (f : Float32.float) (z : Z) :
  Float32.to_step f = Some z -> 0 <= z <= STEP_MAX.
Proof.
  unfold Float32.to_step. destruct (Float32.trunc f) as [t|]; [|done].
  destruct (0 <=? t) eqn:E1; [|done]. destruct (t <=? STEP_MAX) eqn:E2; [|done].
  simpl. intros H. injection H as <-. lia.
Qed.

Lemma rawStepCost_range (i c : Z) :
  rawStepCost i = Some c -> 0 <= c <= STEP_MAX.
Proof.
  unfold rawStepCost. destruct (calcStraightCost _ _ _ _ _); [|done].
  apply to_step_range.
Qed.

(** The table that [calcStraightCostTable] fills suits [update]: entry 0 is
    0, every entry is a [step_t] without truncation, and the table has an
    entry for every run of a field whose side is at most the size of the
    table. *)
Theorem cost_table_suits_update (stepTableSize scalingFactor MAZE_SIZE : Z)
    (t : list Z) :
  2 <= stepTableSize -> 0 < scalingFactor -> MAZE_SIZE <= stepTableSize ->
  calcStraightCostTable stepTableSize scalingFactor = Some t ->
  t !! 0%nat = Some 0 /\ table_ok MAZE_SIZE t.
Proof.
  intros Hn Hs HN Ht.
  assert (Hlen : length t = Z.to_nat stepTableSize).
  { unfold calcStraightCostTable in Ht. apply mapM_Some in Ht.
    apply Forall2_length in Ht. rewrite <- Ht, length_map, length_seq. done. }
  split.
  - change 0%nat with (Z.to_nat 0).
    rewrite (calcStraightCostTable_lookup _ _ _ 0 Ht) by lia.
    unfold table_entry. simpl. by rewrite Z.div_0_l by lia.
  - split; [lia|]. split; [lia|].
    apply Forall_lookup. intros k c Hk.
    assert (Hk' : (k < length t)%nat) by (by apply lookup_lt_Some in Hk).
    replace k with (Z.to_nat (Z.of_nat k)) in Hk by lia.
    rewrite (calcStraightCostTable_lookup _ _ _ (Z.of_nat k) Ht) in Hk by lia.
    unfold table_entry in Hk. destruct (Z.of_nat k =? 0).
    + injection Hk as <-. rewrite Z.div_0_l by lia. unfold STEP_MAX. lia.
    + destruct (rawStepCost (Z.of_nat k)) as [a|] eqn:Ha; [|done].
      injection Hk as <-. apply rawStepCost_range in Ha.
      split; [apply Z.div_pos; lia|].
      transitivity a; [|lia]. apply Z.div_le_upper_bound; [lia|]. nia.
Qed.

Lemma cost_table_suits_update_witness :
  realTable !! 0%nat = Some 0 /\ table_ok 32 realTable.
Proof.
  apply (cost_table_suits_update 32 2 32 realTable).
  - lia.
  - lia.
  - lia.
  - vm_compute. reflexivity.
Defined.
(** ** The early end of a run *)

Lemma advance_other (u : Position) (d : Direction) (k : nat) :
  (d = 0 \/ d = 4 -> py (advance u d k) = py u)
  /\ (d = 2 \/ d = 6 -> px (advance u d k) = px u).
Proof.
  induction k as [|k [IH1 IH2]]; [done|]. simpl advance.
  split; intros [-> | ->]; simpl; auto.
Qed.

Section BoxGeometry.

Variable MAZE_SIZE : Z.
Hypothesis HN : 0 < MAZE_SIZE <= 127.
Variable maze : Maze.
Hypothesis Hclosed : maze_closed MAZE_SIZE maze.
Variable knownOnly : bool.
Variable b : Box.

Local Abbreviation inside p := (isInsideOfField MAZE_SIZE p = true).

(** The cells of a run: inside of the field, on the line of the run. *)
Lemma advance_along (u : Position) (d : Direction) (k : nat) :
  In d Along4 -> inside u ->
  (forall j, (j < k)%nat -> passable maze knownOnly (advance u d j) d = true) ->
  inside (advance u d k)
  /\ px (advance u d k)
     = px u + (if d =? 0 then Z.of_nat k
               else if d =? 4 then - Z.of_nat k else 0)
  /\ py (advance u d k)
     = py u + (if d =? 2 then Z.of_nat k
               else if d =? 6 then - Z.of_nat k else 0).
Proof.
  intros Hd Hu Hopen.
  destruct (advance_room MAZE_SIZE [] HN maze Hclosed knownOnly u d k Hd Hu
              Hopen) as [Hin Hr].
  split; [exact Hin|].
  destruct (advance_other u d k) as [Hy Hx].
  unfold Along4, East, North, West, South in Hd. simpl in Hd.
  destruct Hd as [<-|[<-|[<-|[<-|[]]]]]; simpl in *;
    rewrite ?Hy, ?Hx by auto; lia.
Qed.

Lemma outward_outside (c : Position) (d : Direction) :
  outward b c d = true -> outside_box b c = true.
Proof.
  unfold outward, outside_box. intros H.
  repeat match type of H with
         | match ?x with _ => _ end = _ => destruct x; try done
         end; rewrite H; by rewrite ?orb_true_r.
Qed.

Lemma box_bounds (p : Position) :
  outside_box b p = false
  <-> min_x b <= px p <= max_x b /\ min_y b <= py p <= max_y b.
Proof. unfold outside_box. rewrite !orb_false_iff, !Z.ltb_ge. lia. Qed.

Lemma outward_spec (c : Position) (d : Direction) :
  In d Along4 ->
  outward b c d = true
  <-> (d = 0 /\ max_x b < px c) \/ (d = 2 /\ max_y b < py c)
      \/ (d = 4 /\ px c < min_x b) \/ (d = 6 /\ py c < min_y b).
Proof.
  unfold Along4, East, North, West, South. simpl.
  intros [<-|[<-|[<-|[<-|[]]]]]; simpl; rewrite Z.ltb_lt; lia.
Qed.

(** A run out of the box leaves it in its own direction, and in no other
    one. *)
Lemma run_outward (u : Position) (d : Direction) (k : nat) :
  In d Along4 -> inside u -> outside_box b u = false ->
  (forall j, (j < k)%nat -> passable maze knownOnly (advance u d j) d = true) ->
  outside_box b (advance u d k) = true ->
  outward b (advance u d k) d = true.
Proof.
  intros Hd Hu Hbox Hopen Hout.
  destruct (advance_along u d k Hd Hu Hopen) as (_ & Hx & Hy).
  apply box_bounds in Hbox. apply (outward_spec _ _ Hd).
  assert (~ (min_x b <= px (advance u d k) <= max_x b
             /\ min_y b <= py (advance u d k) <= max_y b)) as Hn.
  { intros H%box_bounds. congruence. }
  rewrite Hx, Hy in *.
  unfold Along4, East, North, West, South in Hd. simpl in Hd.
  destruct Hd as [<-|[<-|[<-|[<-|[]]]]]; simpl in *; lia.
Qed.

Lemma run_outward_only (u : Position) (d d' : Direction) (k : nat) :
  In d Along4 -> In d' Along4 -> inside u -> outside_box b u = false ->
  (forall j, (j < k)%nat -> passable maze knownOnly (advance u d j) d = true) ->
  outward b (advance u d k) d' = true -> d' = d.
Proof.
  intros Hd Hd' Hu Hbox Hopen Hout.
  destruct (advance_along u d k Hd Hu Hopen) as (_ & Hx & Hy).
  apply box_bounds in Hbox. apply (outward_spec _ _ Hd') in Hout.
  rewrite Hx, Hy in Hout.
  unfold Along4, East, North, West, South in Hd. simpl in Hd.
  destruct Hd as [<-|[<-|[<-|[<-|[]]]]]; simpl in *; lia.
Qed.

(** The cells of a run between two cells of the box are in the box. *)
Lemma box_convex (u : Position) (d : Direction) (k j : nat) :
  In d Along4 -> inside u -> outside_box b u = false ->
  (forall j, (j < k)%nat -> passable maze knownOnly (advance u d j) d = true) ->
  outside_box b (advance u d k) = false -> (j <= k)%nat ->
  outside_box b (advance u d j) = false.
Proof.
  intros Hd Hu Hbox Hopen Hk Hj.
  destruct (advance_along u d k Hd Hu Hopen) as (_ & Hx & Hy).
  destruct (advance_along u d j Hd Hu) as (_ & Hx' & Hy').
  { intros i Hi. apply Hopen. lia. }
  apply box_bounds in Hbox, Hk. apply box_bounds.
  rewrite Hx, Hy in Hk. rewrite Hx', Hy'.
  unfold Along4, East, North, West, South in Hd. simpl in Hd.
  destruct Hd as [<-|[<-|[<-|[<-|[]]]]]; simpl in *; lia.
Qed.

End BoxGeometry.

(** The box of [int8_t] coordinates: when a cell of the field is inside of
    it, the padding has not wrapped and every destination is inside. *)
Lemma box_holds_dest (MAZE_SIZE : Z) (maze : Maze) (dest : Positions)
    (u g : Position) :
  0 < MAZE_SIZE <= 127 -> int8_coords maze dest ->
  isInsideOfField MAZE_SIZE u = true ->
  outside_box (bounding_box maze dest) u = false ->
  In g dest ->
  outside_box (bounding_box maze dest) g = false.
Proof.
  intros HN (H1 & H2 & H3 & H4 & Hd) Hu Hbox Hg.
  apply inside_bounds in Hu. apply box_bounds in Hbox. apply box_bounds.
  unfold bounding_box in *.
  destruct (bounding_box_fold dest
              (mkBox (getMinX maze) (getMaxX maze) (getMinY maze)
                 (getMaxY maze))) as (Hb0 & Hin & Hr).
  cbn zeta in Hb0, Hin, Hr.
  destruct (Hr (-128) 127) as (R1 & R2 & R3 & R4); simpl; try lia; [done|].
  specialize (Hin g Hg). simpl in Hb0.
  set (bx := foldl _ _ dest) in *. simpl in Hbox |- *.
  unfold wrap8 in *. Z.div_mod_to_equations. lia.
Qed.

Lemma foldl_bind_cons {A B : Type} (f : B -> A -> option A) (a : A) (x : B)
    (l : list B) :
  foldl (fun acc y => a' ← acc; f y a') (Some a) (x :: l)
  = foldl (fun acc y => a' ← acc; f y a') (f x a) l.
Proof. reflexivity. Qed.

Lemma foldl_bind_None {A B : Type} (f : B -> A -> option A) (l : list B) :
  foldl (fun acc y => a' ← acc; f y a') None l = None.
Proof. induction l as [|x l IH]; [reflexivity|exact IH]. Qed.

Section UnitRun.

Variable MAZE_SIZE : Z.
Variable stepTable : list Z.
Hypothesis HN : 0 < MAZE_SIZE <= 127.
Variable maze : Maze.
Hypothesis Hclosed : maze_closed MAZE_SIZE maze.
Variable knownOnly : bool.
Variable brk : bool.
Variable b : Box.
Variable focus : Position.
Variable fs : Z.
Hypothesis Hfocus : isInsideOfField MAZE_SIZE focus = true.
Hypothesis Hbox : outside_box b focus = false.
Hypothesis Hfs : 0 <= fs < 32768.

Local Abbreviation inside p := (isInsideOfField MAZE_SIZE p = true).
Local Abbreviation get m p := (array_get m (getIndex MAZE_SIZE p)).
Local Abbreviation chain := (outward_chain MAZE_SIZE maze knownOnly b).

Lemma get_set (m : StepArray) (c p : Position) (v : Z) :
  length m = Z.to_nat (MAZE_SIZE * MAZE_SIZE) -> inside c -> inside p ->
  get (array_set m (getIndex MAZE_SIZE c) v) p
  = if decide (p = c) then Some v else get m p.
Proof.
  intros Hlen Hc Hp.
  pose proof (getIndex_range MAZE_SIZE HN c Hc).
  pose proof (getIndex_range MAZE_SIZE HN p Hp).
  destruct (decide (p = c)) as [->|Hne].
  - apply array_get_set_eq. lia.
  - apply array_get_set_ne; [lia|lia|].
    intros E. apply Hne. symmetry. by apply (getIndex_inj MAZE_SIZE HN).
Qed.

Lemma get_is_Some (m : StepArray) (p : Position) :
  length m = Z.to_nat (MAZE_SIZE * MAZE_SIZE) -> inside p ->
  is_Some (get m p).
Proof.
  intros Hlen Hp. pose proof (getIndex_range MAZE_SIZE HN p Hp).
  apply array_get_Some. lia.
Qed.

Lemma passable_inside (c : Position) (d : Direction) :
  In d Along4 -> inside c -> passable maze knownOnly c d = true ->
  inside (Position_next c d).
Proof.
  intros Hd Hc Hpass. apply (next_inside MAZE_SIZE HN c d Hd Hc).
  exact (passable_next_inside MAZE_SIZE stepTable HN maze Hclosed knownOnly c
           d Hd Hc Hpass).
Qed.

(** A run with unit costs keeps the chain away from the box: behind the
    cell that it has just lowered it goes on, or it finds a step that is
    low enough. *)
Lemma update_run_chain (d : Direction) (fuel : nat) :
  In d Along4 ->
  forall (k : nat) (st st' : StepArray * list Element),
    (k + fuel <= 127)%nat ->
    length st.1 = Z.to_nat (MAZE_SIZE * MAZE_SIZE) ->
    (forall j, (j < k)%nat ->
       passable maze knownOnly (advance focus d j) d = true) ->
    outward_chain_at MAZE_SIZE maze knownOnly b (advance focus d k) d
      (fs + Z.of_nat k) st.1 ->
    update_run MAZE_SIZE stepTable brk fuel maze knownOnly true fs d
      (advance focus d k) (Z.of_nat k + 1) st = Some st' ->
    chain st'.1 /\ length st'.1 = Z.to_nat (MAZE_SIZE * MAZE_SIZE).
Proof.
  intros Hd. induction fuel as [|fuel IH];
    intros k st st' Hfuel Hlen Hopen Hinv Hrun; [done|].
  cbn [update_run] in Hrun.
  destruct (isWall maze (advance focus d k) d
            || knownOnly && negb (isKnown maze (advance focus d k) d))
    eqn:Hw.
  { injection Hrun as <-. split; [|exact Hlen].
    intros c d' vc Hc Hd' Hout Hget Hfin Hpass.
    destruct (Hinv c d' vc Hc Hd' Hout Hget Hfin Hpass)
      as (vn & Hvn & [Hle|(-> & -> & _)]); [by exists vn|].
    unfold passable in Hpass. rewrite Hw in Hpass. done. }
  assert (Hpass0 : passable maze knownOnly (advance focus d k) d = true).
  { unfold passable. by rewrite Hw. }
  assert (Hopen' : forall j, (j < S k)%nat ->
            passable maze knownOnly (advance focus d j) d = true).
  { intros j Hj. destruct (decide (j = k)) as [->|]; [done|].
    apply Hopen. lia. }
  change (Position_next (advance focus d k) d) with (advance focus d (S k))
    in Hrun.
  destruct (advance_along MAZE_SIZE HN maze Hclosed knownOnly focus d (S k)
              Hd Hfocus Hopen') as (Hin' & _).
  unfold run_cost in Hrun. cbn [mbind option_bind] in Hrun.
  assert (Hns : wrap16 (fs + (Z.of_nat k + 1)) = fs + Z.of_nat k + 1).
  { unfold wrap16. rewrite Z.mod_small; lia. }
  rewrite Hns in Hrun.
  destruct (get_is_Some st.1 _ Hlen Hin') as [cur Hcur].
  rewrite Hcur in Hrun. cbn [mbind option_bind] in Hrun.
  replace (Z.of_nat k + 1 + 1) with (Z.of_nat (S k) + 1) in Hrun by lia.
  destruct (cur <=? fs + Z.of_nat k + 1) eqn:Hle.
  - apply Z.leb_le in Hle.
    assert (Hall : forall c d' vc,
              inside c -> In d' Along4 -> outward b c d' = true ->
              get st.1 c = Some vc -> vc < STEP_MAX ->
              passable maze knownOnly c d' = true ->
              exists vn, get st.1 (Position_next c d') = Some vn
                         /\ vn <= vc + 1).
    { clear Hrun IH. intros c d' vc Hc Hd' Hout Hget Hfin Hpass.
      destruct (Hinv c d' vc Hc Hd' Hout Hget Hfin Hpass)
        as (vn & Hvn & [Hle'|(-> & -> & ->)]); [by exists vn|].
      exists vn. split; [done|].
      change (Position_next (advance focus d k) d)
        with (advance focus d (S k)) in Hvn.
      rewrite Hcur in Hvn. injection Hvn as <-. lia. }
    destruct brk.
    + injection Hrun as <-. split; [exact Hall|exact Hlen].
    + apply (IH (S k) st st'); [lia|exact Hlen|exact Hopen'| |exact Hrun].
      clear Hrun IH. intros c d' vc Hc Hd' Hout Hget Hfin Hpass.
      destruct (Hall c d' vc Hc Hd' Hout Hget Hfin Hpass) as (vn & Hvn & Hle').
      exists vn. split; [done|by left].
  - apply Z.leb_gt in Hle.
    set (st2 := (array_set st.1 (getIndex MAZE_SIZE (advance focus d (S k)))
                   (fs + Z.of_nat k + 1),
                 pq_push (advance focus d (S k), fs + Z.of_nat k + 1) st.2))
      in Hrun.
    apply (IH (S k) st2 st'); [lia| |exact Hopen'| |exact Hrun].
    { unfold st2. cbn [fst]. unfold array_set. rewrite length_insert.
      exact Hlen. }
    unfold st2. cbn [fst]. clear Hrun st2 IH.
    intros c d' vc Hc Hd' Hout Hget Hfin Hpass.
    pose proof (passable_inside c d' Hd' Hc Hpass) as Hcn.
    rewrite (get_set st.1 _ c _ Hlen Hin' Hc) in Hget.
    rewrite (get_set st.1 _ _ _ Hlen Hin' Hcn).
    destruct (decide (c = advance focus d (S k))) as [->|Hne].
    + injection Hget as <-.
      assert (d' = d) as ->.
      { exact (run_outward_only MAZE_SIZE HN maze Hclosed knownOnly b focus
                 d d' (S k) Hd Hd' Hfocus Hbox Hopen' Hout). }
      destruct (decide (Position_next (advance focus d (S k)) d
                        = advance focus d (S k))) as [E|_].
      { by apply (next_ne MAZE_SIZE HN) in E. }
      destruct (get_is_Some st.1 _ Hlen Hcn) as [vn Hvn].
      exists vn. split; [done|]. right. split; [done|]. split; [done|]. lia.
    + destruct (Hinv c d' vc Hc Hd' Hout Hget Hfin Hpass)
        as (vn & Hvn & Hcase).
      destruct (decide (Position_next c d' = advance focus d (S k)))
        as [E|E].
      * eexists. split; [reflexivity|]. left.
        rewrite E, Hcur in Hvn. injection Hvn as <-.
        destruct Hcase as [?|(_ & _ & ->)]; lia.
      * exists vn. split; [done|]. left.
        destruct Hcase as [?|(-> & -> & _)]; [done|]. by destruct E.
Qed.

Lemma update_dirs_chain (ds : list Direction) :
  (forall d, In d ds -> In d Along4) ->
  forall st st' : StepArray * list Element,
    length st.1 = Z.to_nat (MAZE_SIZE * MAZE_SIZE) ->
    chain st.1 ->
    foldl (fun acc d =>
             st' ← acc;
             update_run MAZE_SIZE stepTable brk run_fuel maze knownOnly true
               fs d focus 1 st')
          (Some st) ds = Some st' ->
    chain st'.1 /\ length st'.1 = Z.to_nat (MAZE_SIZE * MAZE_SIZE).
Proof.
  induction ds as [|d ds IH]; intros Hds st st' Hlen Hchain.
  { intros Hfold. injection Hfold as <-. split; [exact Hchain|exact Hlen]. }
  assert (Hd : In d Along4) by (apply Hds; by left).
  assert (Hat : outward_chain_at MAZE_SIZE maze knownOnly b
                  (advance focus d 0) d (fs + Z.of_nat 0) st.1).
  { clear IH. intros c d' vc Hc Hd' Hout Hget Hfin Hpass.
    destruct (Hchain c d' vc Hc Hd' Hout Hget Hfin Hpass) as (vn & ? & ?).
    exists vn. split; [done|by left]. }
  assert (Hf : (0 + run_fuel <= 127)%nat) by (unfold run_fuel; lia).
  assert (Hop : forall j, (j < 0)%nat ->
            passable maze knownOnly (advance focus d j) d = true).
  { clear. intros j Hj. lia. }
  rewrite (foldl_bind_cons
             (fun d st' =>
                update_run MAZE_SIZE stepTable brk run_fuel maze knownOnly
                  true fs d focus 1 st')).
  destruct (update_run MAZE_SIZE stepTable brk run_fuel maze knownOnly true
              fs d focus 1 st) as [st1|] eqn:Hrun.
  - destruct (update_run_chain d run_fuel Hd 0 st st1 Hf Hlen Hop Hat Hrun)
      as [Hc1 Hl1].
    exact (IH (fun d' H => Hds d' (or_intror H)) st1 st' Hl1 Hc1).
  - rewrite foldl_bind_None. discriminate.
Qed.

End UnitRun.

Section UnitBox.

Variable MAZE_SIZE : Z.
Variable stepTable : list Z.
Context {PQ : PriorityQueue}.
Hypothesis HN : 0 < MAZE_SIZE <= 127.
Variable maze : Maze.
Hypothesis Hclosed : maze_closed MAZE_SIZE maze.
Variable knownOnly : bool.
Variable brk : bool.
Variable dest : Positions.

Local Abbreviation inside p := (isInsideOfField MAZE_SIZE p = true).
Local Abbreviation b := (bounding_box maze dest).
Local Abbreviation walk := (walk_to MAZE_SIZE maze knownOnly b dest).
Local Abbreviation route := (box_route MAZE_SIZE maze knownOnly b dest).
Local Abbreviation good := (unit_good MAZE_SIZE maze knownOnly b dest).
Local Abbreviation chain := (outward_chain MAZE_SIZE maze knownOnly b).
Local Abbreviation get m p := (array_get m (getIndex MAZE_SIZE p)).

Lemma box_route_inside (p : Position) (v : Z) : route p v -> inside p.
Proof.
  induction 1 as [g Hg Hin|u v d k _ IH Hbox Hd Hopen]; [done|].
  by destruct (advance_along MAZE_SIZE HN maze Hclosed knownOnly u d (S k) Hd
                 IH Hopen).
Qed.

(** Inside of the box a route is a walk. *)
Lemma box_route_walk (p : Position) (v : Z) :
  route p v -> outside_box b p = false -> exists n, walk p n.
Proof.
  induction 1 as [g Hg Hin|u v d k Hr IH Hbox Hd Hopen]; intros Hp.
  { exists 0%nat. by constructor. }
  destruct (IH Hbox) as [n Hn].
  pose proof (box_route_inside u v Hr) as Hu.
  assert (Hall : forall j, (j <= S k)%nat -> walk (advance u d j) (n + j)).
  { induction j as [|j IHj]; intros Hj.
    - by rewrite Nat.add_0_r.
    - rewrite Nat.add_succ_r. simpl advance. constructor.
      + apply IHj. lia.
      + apply (box_convex MAZE_SIZE HN maze Hclosed knownOnly b u d (S k) j
                 Hd Hu Hbox Hopen Hp). lia.
      + done.
      + apply Hopen. lia. }
  exists (n + S k)%nat. apply Hall. lia.
Qed.

Lemma unit_good_step u fs d (k : nat) c :
  inside u -> outside_box b u = false -> good u fs -> 0 <= fs < STEP_MAX ->
  (forall n, walk u n -> 1 * Z.of_nat n < STEP_MAX -> fs <= 1 * Z.of_nat n) ->
  In d Along4 ->
  (forall j, (j < S k)%nat ->
     passable maze knownOnly (advance u d j) d = true) ->
  inside (advance u d (S k)) ->
  run_cost stepTable true (Z.of_nat (S k)) = Some c ->
  wrap16 (fs + c) < STEP_MAX ->
  good (advance u d (S k)) (wrap16 (fs + c)).
Proof.
  intros Hu Hbox [Hr Hb] Hfs Hbound Hd Hopen Hin Hc _.
  simpl in Hc. injection Hc as <-.
  destruct (box_route_walk u fs Hr Hbox) as [n Hw].
  destruct (walk_short MAZE_SIZE HN maze Hclosed knownOnly b dest _ _ Hw)
    as (n' & Hw' & Hn').
  assert (fs <= 1 * Z.of_nat n').
  { apply Hbound; [done|]. unfold STEP_MAX. nia. }
  destruct (advance_room MAZE_SIZE stepTable HN maze Hclosed knownOnly u d
              (S k) Hd Hu Hopen) as [_ Hroom].
  pose proof (room_range MAZE_SIZE HN _ d Hd Hin).
  pose proof (room_range MAZE_SIZE HN _ d Hd Hu).
  assert (wrap16 (fs + Z.of_nat (S k)) = fs + Z.of_nat (S k)) as ->.
  { unfold wrap16. rewrite Z.mod_small; [done|]. nia. }
  split; [by constructor|]. nia.
Qed.

Hypothesis Hdest : forall g, In g dest -> inside g -> outside_box b g = false.

Lemma seed_chain :
  chain (seed MAZE_SIZE dest (reset MAZE_SIZE, [])).1.
Proof.
  destruct (seed_spec MAZE_SIZE HN dest) as (_ & H2 & _). cbn zeta in H2.
  intros c d vc Hc Hd Hout Hget Hfin Hpass.
  destruct (H2 c Hc) as [E|(_ & Hg & _)].
  - rewrite Hget in E. injection E as ->. unfold STEP_MAX in Hfin. lia.
  - apply outward_outside in Hout. rewrite (Hdest c Hg Hc) in Hout. done.
Qed.

Lemma update_step_chain (st st' : StepArray * list Element) :
  state_wf MAZE_SIZE st ->
  solver_inv MAZE_SIZE stepTable maze knownOnly true b dest good st ->
  chain st.1 ->
  update_step MAZE_SIZE stepTable brk maze knownOnly true b st
  = Some (inl st') ->
  chain st'.1.
Proof.
  intros Hwf (Hq & _ & _ & Hgood) Hchain. unfold update_step.
  destruct (pq_pop st.2) as [[[focus fsq] q]|] eqn:Hpop; [|done].
  destruct (pop_wf MAZE_SIZE stepTable st _ q Hwf Hpop)
    as (Hwf' & Hfocus & Hfsq). cbn [fst snd] in Hfocus, Hfsq.
  destruct (outside_box b focus) eqn:Hbox.
  { intros H. by injection H as <-. }
  assert (exists v, get st.1 focus = Some v /\ v <= fsq) as (v & Hv & Hle).
  { unfold queue_sound in Hq. rewrite Forall_forall in Hq.
    apply (Hq (focus, fsq)). rewrite (pq_pop_perm _ _ _ Hpop). by left. }
  rewrite Hv. cbn [mbind option_bind].
  destruct (v <? fsq); [intros H; by injection H as <-|].
  destruct (Hgood focus v Hfocus Hv ltac:(lia)) as [_ Hb].
  destruct Hwf' as (Hlen & _).
  unfold update_dirs.
  destruct (foldl _ _ _) as [st1|] eqn:Hfold; [|done].
  cbn [mbind option_bind]. intros H. injection H as <-.
  by destruct (update_dirs_chain MAZE_SIZE stepTable HN maze Hclosed knownOnly
                 brk b focus v Hfocus Hbox Hb Along4 (fun d H => H) (st.1, q)
                 st1 Hlen Hchain Hfold).
Qed.

End UnitBox.

Section UnitField.

Variable MAZE_SIZE : Z.
Variable stepTable : list Z.
Context {PQ : PriorityQueue}.
Hypothesis HN : 0 < MAZE_SIZE <= 127.
Variable maze : Maze.
Hypothesis Hclosed : maze_closed MAZE_SIZE maze.
Variable knownOnly : bool.
Variable brk : bool.
Variable dest : Positions.

Local Abbreviation inside p := (isInsideOfField MAZE_SIZE p = true).
Local Abbreviation b := (bounding_box maze dest).
Local Abbreviation route := (box_route MAZE_SIZE maze knownOnly b dest).
Local Abbreviation good := (unit_good MAZE_SIZE maze knownOnly b dest).
Local Abbreviation chain := (outward_chain MAZE_SIZE maze knownOnly b).
Local Abbreviation get m p := (array_get m (getIndex MAZE_SIZE p)).

(** The field at the end of the update with unit costs, with or without
    the early end of the runs and for every order of the queue. *)
Lemma update_unit_final :
  exists m,
    update_gen MAZE_SIZE stepTable brk maze dest knownOnly true = Some m
    /\ state_wf MAZE_SIZE (m, [])
    /\ solver_inv MAZE_SIZE stepTable maze knownOnly true b dest good (m, [])
    /\ ((forall g, In g dest -> inside g -> outside_box b g = false) ->
        chain m).
Proof.
  assert (Hgd : forall g, In g dest -> inside g -> good g 0).
  { intros g Hg Hin. split; [by constructor|lia]. }
  assert (H1 : (0 : Z) <= 1) by lia.
  apply (update_solver_inv_with MAZE_SIZE stepTable HN maze Hclosed knownOnly
           true (fun H => False_ind _ (Bool.diff_true_false H)) brk dest 1
           eq_refl H1 good Hgd
           (unit_good_step MAZE_SIZE stepTable HN maze Hclosed knownOnly dest)
           (fun st =>
              (forall g, In g dest -> inside g -> outside_box b g = false) ->
              chain st.1)).
  - intros Hdest. by apply seed_chain.
  - intros st st' Hwf Hinv Hex Hstep Hdest.
    exact (update_step_chain MAZE_SIZE stepTable HN maze Hclosed knownOnly
             brk dest st st' Hwf Hinv (Hex Hdest) Hstep).
Qed.

End UnitField.

Section UnitSame.

Variable MAZE_SIZE : Z.
Variable stepTable : list Z.
Hypothesis HN : 0 < MAZE_SIZE <= 127.
Variable maze : Maze.
Hypothesis Hclosed : maze_closed MAZE_SIZE maze.
Variable knownOnly : bool.
Variable dest : Positions.
Hypothesis Hint : int8_coords maze dest.

Local Abbreviation inside p := (isInsideOfField MAZE_SIZE p = true).
Local Abbreviation b := (bounding_box maze dest).
Local Abbreviation route := (box_route MAZE_SIZE maze knownOnly b dest).
Local Abbreviation good := (unit_good MAZE_SIZE maze knownOnly b dest).
Local Abbreviation chain := (outward_chain MAZE_SIZE maze knownOnly b).
Local Abbreviation get m p := (array_get m (getIndex MAZE_SIZE p)).

Local Abbreviation final :=
  (unit_final MAZE_SIZE stepTable maze knownOnly dest).

(** Such a field has at most the number of moves of every route. *)
Lemma field_upper (m : StepArray) (p : Position) (v : Z) :
  final m -> route p v -> v < STEP_MAX ->
  exists w, get m p = Some w /\ w <= v.
Proof.
  intros (Hwf & (_ & Hsettled & Hzero & _) & Hchain).
  destruct Hwf as (Hlen & Hval & _). cbn [fst] in Hlen, Hval.
  induction 1 as [g Hg Hin|u v d k Hr IH Hbox Hd Hopen]; intros Hv.
  { exists 0. split; [by apply Hzero|lia]. }
  destruct IH as (w & Hw & Hle); [lia|].
  pose proof (box_route_inside MAZE_SIZE HN maze Hclosed knownOnly dest u v
                Hr) as Hu.
  assert (Hdest : forall g, In g dest -> inside g -> outside_box b g = false).
  { intros g Hg _. exact (box_holds_dest MAZE_SIZE maze dest u g HN Hint Hu
                            Hbox Hg). }
  specialize (Hchain Hdest).
  assert (Hall : forall j, (j <= S k)%nat ->
            exists wj, get m (advance u d j) = Some wj
                       /\ wj <= w + Z.of_nat j).
  { induction j as [|j IHj]; intros Hj.
    - exists w. split; [done|lia].
    - destruct IHj as (wj & Hwj & Hlej); [lia|].
      assert (Hopenj : forall i, (i < j)%nat ->
                passable maze knownOnly (advance u d i) d = true).
      { intros i Hi. apply Hopen. lia. }
      destruct (advance_along MAZE_SIZE HN maze Hclosed knownOnly u d j Hd Hu
                  Hopenj) as (Hinj & _).
      assert (Hpass : passable maze knownOnly (advance u d j) d = true)
        by (apply Hopen; lia).
      assert (Hrange : 0 <= wj <= STEP_MAX).
      { exact (get_step_range MAZE_SIZE m Hval _ _ Hwj). }
      simpl advance.
      destruct (outside_box b (advance u d j)) eqn:Hbj.
      + pose proof (run_outward MAZE_SIZE HN maze Hclosed knownOnly b u d j
                      Hd Hu Hbox Hopenj Hbj) as Hout.
        destruct (Hchain _ d wj Hinj Hd Hout Hwj ltac:(lia) Hpass)
          as (vn & Hvn & Hle').
        exists vn. split; [done|lia].
      + destruct (Hsettled (advance u d j) wj) as [[]|Hs]; try done.
        { lia. }
        destruct (Hs d Hd Hpass) as (c & vn & Hc & Hvn & Hle').
        simpl in Hc. injection Hc as <-. cbn [fst] in Hvn.
        exists vn. split; [done|]. unfold wrap16, STEP_MAX in *.
        rewrite Z.mod_small in Hle' by lia. lia. }
  destruct (Hall (S k) ltac:(lia)) as (wk & Hwk & Hlek).
  exists wk. split; [done|lia].
Qed.

(** Two such fields are the same. *)
Lemma final_unique (m1 m2 : StepArray) : final m1 -> final m2 -> m1 = m2.
Proof.
  intros H1 H2.
  assert (Hhalf : forall ma mb p,
            final ma -> final mb -> inside p ->
            getStep MAZE_SIZE mb p < STEP_MAX ->
            getStep MAZE_SIZE ma p <= getStep MAZE_SIZE mb p).
  { intros ma mb p Ha Hb Hp Hfin.
    pose proof Ha as ((Hlena & _) & _). pose proof Hb as ((Hlenb & _) & Hinvb & _).
    cbn [fst] in Hlena, Hlenb.
    destruct Hinvb as (_ & _ & _ & Hgood).
    pose proof (getStep_inside MAZE_SIZE HN mb p Hlenb Hp) as Hgb.
    destruct (Hgood p _ Hp Hgb Hfin) as [Hr _].
    destruct (field_upper ma p _ Ha Hr Hfin) as (w & Hw & Hle).
    rewrite (getStep_inside MAZE_SIZE HN ma p Hlena Hp) in Hw.
    by injection Hw as <-. }
  pose proof H1 as ((Hlen1 & Hval1 & _) & _).
  pose proof H2 as ((Hlen2 & Hval2 & _) & _).
  cbn [fst] in Hlen1, Hlen2, Hval1, Hval2.
  apply (field_ext MAZE_SIZE); [exact HN|exact Hlen1|exact Hlen2|].
  intros p Hp.
  pose proof (get_step_range MAZE_SIZE m1 Hval1 p _
                (getStep_inside MAZE_SIZE HN m1 p Hlen1 Hp)) as R1.
  pose proof (get_step_range MAZE_SIZE m2 Hval2 p _
                (getStep_inside MAZE_SIZE HN m2 p Hlen2 Hp)) as R2.
  destruct (Z_lt_le_dec (getStep MAZE_SIZE m1 p) STEP_MAX) as [L1|L1];
    destruct (Z_lt_le_dec (getStep MAZE_SIZE m2 p) STEP_MAX) as [L2|L2].
  - pose proof (Hhalf m1 m2 p H1 H2 Hp L2).
    pose proof (Hhalf m2 m1 p H2 H1 Hp L1). lia.
  - pose proof (Hhalf m2 m1 p H2 H1 Hp L1). lia.
  - pose proof (Hhalf m1 m2 p H1 H2 Hp L2). lia.
  - lia.
Qed.

End UnitSame.



